(** * Smart order router: the alpha router's core, embedded and verified

    A shallow embedding of [src/routers/alpha-router/alpha-router.ts]
    (amount distributor, route enumerator, slice 2 of the pool selector,
    split optimiser) and of the per-call result handling of the multicall
    provider, followed by the properties the specification states about
    them.

    Conventions.
    - A JavaScript [number] that holds a percentage, a count or a
      configuration option is an integer [Z].
    - [CurrencyAmount] / [Fraction] (from the SDK) are exact rationals,
      [Q]; [BigNumber] is [Z].
    - A [throw] is the [Throw] outcome of the [result] type below; code
      that cannot throw is a plain function.
    - Collaborators that are not part of the router (the engine's
      [Array.prototype.sort], [Pool.getAddress], the gas model, the ABI
      coder, the aggregator contract) are parameters.
    - Logging and metrics are left out, as the specification places them
      out of scope.

    Layout: the embedding, the specification predicates and the example
    data come first; the lemmas and theorems follow. *)

From Stdlib Require Import ZArith QArith List String Ascii Permutation Lia.
From stdpp Require Import base option list gmap strings.

Local Open Scope Z_scope.

(** ** Outcomes of code that may throw *)

Inductive exn : Type :=
| TypeError                (* dereferencing or iterating [undefined] *)
| Error (msg : string)     (* [throw new Error(msg)] *)
| Overflow                 (* [BigNumber.toNumber] outside the safe range *)
| External (msg : string). (* raised by a collaborator (transport, decoder) *)

Inductive result (A : Type) : Type :=
| Ok (a : A)
| Throw (e : exn).
Arguments Ok {A} a.
Arguments Throw {A} e.

#[global] Instance result_ret : MRet result := @Ok.
#[global] Instance result_bind : MBind result := fun A B k m =>
  match m with
  | Ok a => k a
  | Throw e => Throw e
  end.

#[global] Instance result_fmap : FMap result := fun A B f m =>
  match m with
  | Ok a => Ok (f a)
  | Throw e => Throw e
  end.

(** A [for] loop over an array whose body may throw: the state is threaded
    through the iterations, the first [throw] ends the loop. *)
Fixpoint forEachM {A S : Type} (body : S -> A -> result S) (l : list A)
    (s : S) : result S :=
  match l with
  | [] => Ok s
  | x :: l' => s' ← body s x; forEachM body l' s'
  end.

(** ** Configuration *)

Record AlphaRouterConfig : Type := {
  topN : Z;
  topNTokenInOut : Z;
  topNSecondHop : Z;
  maxSwapsPerPath : Z;
  maxSplits : Z;
  distributionPercent : Z;
  multicallChunkSize : Z
}.

Definition DEFAULT_CONFIG : AlphaRouterConfig := {|
  topN := 4;
  topNTokenInOut := 4;
  topNSecondHop := 2;
  maxSwapsPerPath := 3;
  maxSplits := 3;
  distributionPercent := 5;
  multicallChunkSize := 50
|}.

Inductive TradeType : Type := EXACT_INPUT | EXACT_OUTPUT.

(** ** Amounts *)

(** [CurrencyAmount] of the SDK: an exact fraction.  [multiply] and [add]
    are the SDK's fraction operations, [Qmult] and [Qplus] here; equality
    of amounts is [Qeq], the SDK's cross-multiplying [equalTo].  The SDK's
    range check on amounts (at most [2^256 - 1]) is not part of the
    model. *)
Definition CurrencyAmount : Type := Q.

(** [new Fraction(numerator, denominator)]. *)
Definition Fraction (numerator : Z) (denominator : positive) : Q :=
  Qmake numerator denominator.

(** [a.greaterThan(b)] and [a.lessThan(b)]: the SDK compares the cross
    products of numerators and denominators. *)
Definition greaterThan (a b : CurrencyAmount) : bool :=
  Qnum b * QDen a <? Qnum a * QDen b.
Definition lessThan (a b : CurrencyAmount) : bool :=
  Qnum a * QDen b <? Qnum b * QDen a.

(** ** Amount distributor *)

(** The body of [for (let i = 1; i <= 100 / distributionPercent; i++)],
    run [n] more times from counter [i]. *)
Fixpoint distributionLoop (n : nat) (i : Z) (distributionPercent : Z)
    (amount : CurrencyAmount) : list Z * list CurrencyAmount :=
  match n with
  | O => ([], [])
  | S n' =>
      let '(percents, amounts) :=
        distributionLoop n' (i + 1) distributionPercent amount in
      (i * distributionPercent :: percents,
       Qmult amount (Fraction (i * distributionPercent) 100) :: amounts)
  end.

(** [getAmountDistribution].  The loop bound [100 / distributionPercent]
    is a floating-point quotient; the integer counter [i] stays below it
    exactly [floor(100 / distributionPercent)] times when the option is
    positive, never when it is negative.  With [distributionPercent = 0]
    the bound is [Infinity] and the loop does not end: [None]. *)
Definition getAmountDistribution (amount : CurrencyAmount)
    (routingConfig : AlphaRouterConfig)
    : option (list Z * list CurrencyAmount) :=
  let d := distributionPercent routingConfig in
  if d =? 0 then None
  else Some (distributionLoop (Z.to_nat (100 / d)) 1 d amount).

(** ** Tokens, pools, routes *)

Module Token.
Record t : Type := {
  chainId : Z;
  address : string;
  decimals : Z;
  symbol : string
}.

(** [Token.equals]: same chain and same address. *)
Definition equals (a b : t) : bool :=
  (chainId a =? chainId b) && String.eqb (address a) (address b).
End Token.

Module Pool.
Record t : Type := {
  token0 : Token.t;
  token1 : Token.t;
  fee : Z;
  liquidity : Z;
  sqrtRatioX96 : Z;
  tickCurrent : Z
}.

Definition involvesToken (pool : t) (token : Token.t) : bool :=
  Token.equals token (token0 pool) || Token.equals token (token1 pool).
End Pool.

(** [RouteSOR], the SDK's [Route]: the pools and the two end tokens.  The
    SDK constructor rejects a path that does not hold (its INPUT, OUTPUT
    and PATH invariants); they are proved below for every route the
    enumerator builds ([wellFormedRoute]), so [new] is total here. *)
Module RouteSOR.
Record t : Type := new {
  pools : list Pool.t;
  input : Token.t;
  output : Token.t
}.
End RouteSOR.

(** ** Route enumerator *)

Section ComputeAllRoutes.
Variables (tokenIn tokenOut : Token.t) (pools : list Pool.t) (maxHops : Z).

(** [currentRoute[currentRoute.length - 1]!.involvesToken(tokenOut)]
    guarded by [currentRoute.length > 0]. *)
Definition lastInvolvesTokenOut (currentRoute : list Pool.t) : bool :=
  match last currentRoute with
  | Some pool => Pool.involvesToken pool tokenOut
  | None => false
  end.

(** The inner [computeRoutes].  It pushes routes on the shared [routes]
    array; here it returns the routes it pushes, in order.  The pushes
    and pops on [currentRoute] and the marks on [poolsUsed] are undone
    when a recursive call returns, so each call gets its own value.
    [fuel] bounds the nesting of calls: a call made with the path longer
    than [maxHops] returns at once, so [maxHops + 1] nested calls are
    all the code can make (see [computeRoutes_fuel]). *)
Fixpoint computeRoutes (fuel : nat) (currentRoute : list Pool.t)
    (poolsUsed : list bool) (_previousTokenOut : option Token.t)
    : list RouteSOR.t :=
  if Z.of_nat (length currentRoute) >? maxHops then []
  else if lastInvolvesTokenOut currentRoute
  then [RouteSOR.new currentRoute tokenIn tokenOut]
  else
    match fuel with
    | O => []
    | S fuel' =>
        concat (imap (fun i curPool =>
          if default false (poolsUsed !! i) then []
          else
            let previousTokenOut := default tokenIn _previousTokenOut in
            if negb (Pool.involvesToken curPool previousTokenOut) then []
            else
              let currentTokenOut :=
                if Token.equals (Pool.token0 curPool) previousTokenOut
                then Pool.token1 curPool
                else Pool.token0 curPool in
              computeRoutes fuel' (currentRoute ++ [curPool])
                (<[i:=true]> poolsUsed) (Some currentTokenOut))
          pools)
    end.

Definition computeAllRoutes : list RouteSOR.t :=
  computeRoutes (S (Z.to_nat maxHops)) []
    (replicate (length pools) false) None.
End ComputeAllRoutes.

(** ** Multicall provider: per-call results *)

(** One element of the aggregator's [returnData]. *)
Record AggregateResult : Type := {
  success : bool;
  returnData : string;   (* hex string; the literal 0x has length 2 *)
  gasUsed : Z
}.

(** [Result<TReturn>]: [{ success: true, result }] or
    [{ success: false, returnData }]. *)
Inductive Result (TReturn : Type) : Type :=
| ResultSuccess (result : TReturn)
| ResultFailure (returnData : string).
Arguments ResultSuccess {TReturn} result.
Arguments ResultFailure {TReturn} returnData.

Record Call : Type := {
  target : string;
  callData : string;
  gasLimit : Z
}.

(** [BigNumber.toNumber]: raises outside the 53-bit safe range. *)
Definition toNumber (n : Z) : result Z :=
  if Z.abs n <? 2 ^ 53 then Ok n else Throw Overflow.

Record MulticallOutcome (TReturn Number : Type) : Type := {
  blockNumber : Z;
  results : list (Result TReturn);
  approxGasUsedPerSuccessCall : Number
}.
Arguments blockNumber {TReturn Number} _.
Arguments results {TReturn Number} _.
Arguments approxGasUsedPerSuccessCall {TReturn Number} _.

Section UniswapMulticallProvider.
Context {TFunctionParams TReturn Number : Type}.
(** The collaborators: the ABI coder of the contract interface, the
    aggregator contract behind [callStatic.multicall], and
    [stats.percentile]. *)
Variable encodeFunctionData : TFunctionParams -> string.
Variable decodeFunctionResult : string -> result TReturn.
Variable multicall :
  list Call -> option Z -> result (Z * list AggregateResult).
Variable percentile : list Z -> Z -> Number.

(** One iteration of the loop over [aggregateResults]; the state is the
    pair of arrays [results] and [gasUsedForSuccess]. *)
Definition processResult (st : list (Result TReturn) * list Z)
    (r : AggregateResult) : result (list (Result TReturn) * list Z) :=
  let '(results, gasUsedForSuccess) := st in
  if negb (success r) || (String.length (returnData r) <=? 2)%nat
  then Ok (results ++ [ResultFailure (returnData r)], gasUsedForSuccess)
  else
    gas ← toNumber (gasUsed r);
    decoded ← decodeFunctionResult (returnData r);
    Ok (results ++ [ResultSuccess decoded], gasUsedForSuccess ++ [gas]).

Definition callSameFunctionOnContractWithMultipleParams
    (address : string) (functionParams : list TFunctionParams)
    (gasLimitPerCall : Z) (blockNumberOverride : option Z)
    : result (MulticallOutcome TReturn Number) :=
  let calls :=
    map (fun functionParam =>
           {| target := address;
              callData := encodeFunctionData functionParam;
              gasLimit := gasLimitPerCall |}) functionParams in
  '(blockNumber, aggregateResults) ← multicall calls blockNumberOverride;
  '(results, gasUsedForSuccess) ←
    forEachM processResult aggregateResults ([], []);
  Ok {| blockNumber := blockNumber;
        results := results;
        approxGasUsedPerSuccessCall := percentile gasUsedForSuccess 99 |}.
End UniswapMulticallProvider.

(** ** Pool selector: the ETH / quote-token slice *)

Module SubgraphToken.
Record t : Type := { id : string; symbol : string }.
End SubgraphToken.

Module SubgraphPool.
Record t : Type := {
  id : string;
  token0 : SubgraphToken.t;
  token1 : SubgraphToken.t;
  feeTier : string;
  totalValueLockedUSD : string
}.
End SubgraphPool.

Definition toLowerAscii (c : ascii) : ascii :=
  let n := nat_of_ascii c in
  if ((65 <=? n) && (n <=? 90))%nat then ascii_of_nat (n + 32) else c.

(** [String.prototype.toLowerCase] on the hexadecimal addresses it is
    applied to. *)
Fixpoint toLowerCase (s : string) : string :=
  match s with
  | EmptyString => EmptyString
  | String c s' => String (toLowerAscii c) (toLowerCase s')
  end.

Section GetPoolsToConsider.
(** [Ether.onChain(this.chainId).wrapped]. *)
Variable wrappedNative : Token.t.
Variables (tokenIn tokenOut : Token.t) (routeType : TradeType).
(** The token-list pools, already sorted by decreasing TVL. *)
Variable subgraphPoolsSorted : list SubgraphPool.t.

Definition tokenInAddress : string := toLowerCase (Token.address tokenIn).
Definition tokenOutAddress : string := toLowerCase (Token.address tokenOut).
Definition wethAddress : string :=
  toLowerCase (Token.address wrappedNative).

(** The filter of slice 2, branch by branch as in the source. *)
Definition isEthQuoteTokenPool (subgraphPool : SubgraphPool.t) : bool :=
  match routeType with
  | EXACT_INPUT =>
      (String.eqb (SubgraphToken.id (SubgraphPool.token0 subgraphPool))
         wethAddress
       && String.eqb (SubgraphToken.id (SubgraphPool.token1 subgraphPool))
            tokenOutAddress)
      || (String.eqb (SubgraphToken.id (SubgraphPool.token1 subgraphPool))
            wethAddress
          && String.eqb
               (SubgraphToken.id (SubgraphPool.token0 subgraphPool))
               tokenOutAddress)
  | EXACT_OUTPUT =>
      (String.eqb
         (SubgraphToken.symbol (SubgraphPool.token0 subgraphPool))
         wethAddress
       && String.eqb
            (SubgraphToken.symbol (SubgraphPool.token1 subgraphPool))
            (Token.symbol tokenIn))
      || (String.eqb
            (SubgraphToken.symbol (SubgraphPool.token1 subgraphPool))
            wethAddress
          && String.eqb
               (SubgraphToken.symbol (SubgraphPool.token0 subgraphPool))
               (Token.symbol tokenIn))
  end.

(** [top2EthQuoteTokenPool] of [getPoolsToConsider]. *)
Definition top2EthQuoteTokenPool : list SubgraphPool.t :=
  take 2 (List.filter isEthQuoteTokenPool subgraphPoolsSorted).
End GetPoolsToConsider.

(** The slice as each entry point obtains it: both [routeExactIn] and
    [routeExactOut] call [getPoolsToConsider] with
    [TradeType.EXACT_INPUT]. *)
Definition routeExactIn_top2EthQuoteTokenPool (wrappedNative : Token.t)
    (currencyIn currencyOut : Token.t)
    (subgraphPoolsSorted : list SubgraphPool.t) : list SubgraphPool.t :=
  top2EthQuoteTokenPool wrappedNative currencyIn currencyOut EXACT_INPUT
    subgraphPoolsSorted.

Definition routeExactOut_top2EthQuoteTokenPool (wrappedNative : Token.t)
    (currencyIn currencyOut : Token.t)
    (subgraphPoolsSorted : list SubgraphPool.t) : list SubgraphPool.t :=
  top2EthQuoteTokenPool wrappedNative currencyIn currencyOut EXACT_INPUT
    subgraphPoolsSorted.

(** What slice 2 is for: a pool of the wrapped-native token and [token],
    in either order, by address. *)
Definition pairsWrappedNativeWith (wrappedNative token : Token.t)
    (subgraphPool : SubgraphPool.t) : Prop :=
  let weth := toLowerCase (Token.address wrappedNative) in
  let tok := toLowerCase (Token.address token) in
  (SubgraphToken.id (SubgraphPool.token0 subgraphPool) = weth
   /\ SubgraphToken.id (SubgraphPool.token1 subgraphPool) = tok)
  \/ (SubgraphToken.id (SubgraphPool.token1 subgraphPool) = weth
      /\ SubgraphToken.id (SubgraphPool.token0 subgraphPool) = tok).

(** ** Split optimiser: data *)

Module AmountQuote.
(** An absent optional field is [None]. *)
Record t : Type := {
  amount : CurrencyAmount;
  quote : option Z;
  sqrtPriceX96AfterList : option (list Z);
  initializedTicksCrossedList : option (list Z);
  gasEstimate : option Z
}.
End AmountQuote.

(** [RouteWithQuotes]: a route and one [AmountQuote] per amount. *)
Definition RouteWithQuotes : Type := (RouteSOR.t * list AmountQuote.t)%type.

(** What the gas model's [estimateGasCost] yields for a route. *)
Record GasCost : Type := {
  gasCostEstimate : Z;
  gasCostInQuoteToken : CurrencyAmount
}.

Module RouteWithValidQuote.
Record t : Type := {
  route : RouteSOR.t;
  amount : CurrencyAmount;
  rawQuote : Z;
  quote : CurrencyAmount;
  quoteAdjustedForGas : CurrencyAmount;
  gasEstimate : Z;
  percent : Z;
  tradeType : TradeType
}.

(** Modelled from the spec: the constructor of [RouteWithValidQuote]
    ([entities/route-with-valid-quote.ts] is not among the sources).  The
    quote is the raw quote as an amount of the quote token;
    [quoteAdjustedForGas = rawQuote - gasCostInQuoteToken] for EXACT_IN
    and [rawQuote + gasCostInQuoteToken] for EXACT_OUT; the gas estimate
    is the one the gas model records.  The gas model itself is a
    parameter. *)
Definition new (estimateGasCost : RouteSOR.t -> Z -> GasCost)
    (route : RouteSOR.t) (rawQuote : Z) (amount : CurrencyAmount)
    (percent : Z) (quoterGasEstimate : Z) (tradeType : TradeType) : t :=
  let cost := estimateGasCost route quoterGasEstimate in
  {| route := route;
     amount := amount;
     rawQuote := rawQuote;
     quote := inject_Z rawQuote;
     quoteAdjustedForGas :=
       match tradeType with
       | EXACT_INPUT =>
           Qminus (inject_Z rawQuote) (gasCostInQuoteToken cost)
       | EXACT_OUTPUT =>
           Qplus (inject_Z rawQuote) (gasCostInQuoteToken cost)
       end;
     gasEstimate := gasCostEstimate cost;
     percent := percent;
     tradeType := tradeType |}.
End RouteWithValidQuote.

Module RouteAmount.
Record t : Type := {
  route : RouteSOR.t;
  amount : CurrencyAmount;
  quote : CurrencyAmount;
  quoteGasAdjusted : CurrencyAmount;
  estimatedGasUsed : Z;
  percentage : Z
}.
End RouteAmount.

(** The plan [getBestSwapRouteBy] returns. *)
Module SwapRoute.
Record t : Type := {
  quote : CurrencyAmount;
  quoteGasAdjusted : CurrencyAmount;
  estimatedGasUsed : Z;
  routeAmounts : list RouteAmount.t
}.
End SwapRoute.

(** ** [Array.prototype.sort] *)

(** The engine's sort is a parameter of the optimiser: what the proofs use
    is that it rearranges the array.  [Array_sort] is one such sort
    (a stable insertion sort), used to run the optimiser on examples. *)
Fixpoint Array_insert {A : Type} (compareFn : A -> A -> Z) (x : A)
    (sorted : list A) : list A :=
  match sorted with
  | [] => [x]
  | y :: rest =>
      if compareFn x y <=? 0 then x :: y :: rest
      else y :: Array_insert compareFn x rest
  end.

Fixpoint Array_sort (A : Type) (compareFn : A -> A -> Z) (l : list A)
    : list A :=
  match l with
  | [] => []
  | x :: rest => Array_insert compareFn x (Array_sort A compareFn rest)
  end.

(** ** Split optimiser: [getBestSwapRoute] and [getBestSwapRouteBy] *)

Section GetBestSwapRoute.
Variable sort : forall A : Type, (A -> A -> Z) -> list A -> list A.
(** [Pool.getAddress(pool.token0, pool.token1, pool.fee)]. *)
Variable getPoolAddress : Pool.t -> string.
Variable estimateGasCost : RouteSOR.t -> Z -> GasCost.

(** *** Bucketing by percent, in [getBestSwapRoute] *)

(** [percentToQuotes[percent]!.push(routeWithValidQuote)], after the
    bucket has been created when absent. *)
Definition pushQuote (percentToQuotes : gmap Z (list RouteWithValidQuote.t))
    (percent : Z) (routeWithValidQuote : RouteWithValidQuote.t)
    : gmap Z (list RouteWithValidQuote.t) :=
  <[percent := default [] (percentToQuotes !! percent)
               ++ [routeWithValidQuote]]> percentToQuotes.

(** The loop [for (let i = 0; i < quotes.length; i++)] over one route's
    quotes, [percents] and [quotes] being the parts of the two arrays
    from index [i] on.  A quote past the end of [percents] would be filed
    under the key [undefined], which no lookup of the optimiser reads
    (they all use numbers): it is left out. *)
Fixpoint bucketQuotes (routeType : TradeType) (route : RouteSOR.t)
    (percents : list Z) (quotes : list AmountQuote.t)
    (percentToQuotes : gmap Z (list RouteWithValidQuote.t))
    {struct quotes} : gmap Z (list RouteWithValidQuote.t) :=
  match quotes, percents with
  | amountQuote :: quotes', percent :: percents' =>
      match AmountQuote.quote amountQuote,
            AmountQuote.sqrtPriceX96AfterList amountQuote,
            AmountQuote.initializedTicksCrossedList amountQuote,
            AmountQuote.gasEstimate amountQuote with
      | Some quote, Some _, Some _, Some gasEstimate =>
          let routeWithValidQuote :=
            RouteWithValidQuote.new estimateGasCost route quote
              (AmountQuote.amount amountQuote) percent gasEstimate
              routeType in
          bucketQuotes routeType route percents' quotes'
            (pushQuote percentToQuotes percent routeWithValidQuote)
      | _, _, _, _ =>
          (* Dropping a null quote for route. *)
          bucketQuotes routeType route percents' quotes' percentToQuotes
      end
  | _, _ => percentToQuotes
  end.

(** The object [percentToQuotes] that [getBestSwapRoute] builds. *)
Definition percentToQuotes (percents : list Z)
    (routesWithQuotes : list RouteWithQuotes) (routeType : TradeType)
    : gmap Z (list RouteWithValidQuote.t) :=
  fold_left
    (fun acc (routeWithQuote : RouteWithQuotes) =>
       bucketQuotes routeType routeWithQuote.1 percents routeWithQuote.2
         acc)
    routesWithQuotes ∅.

(** *** [getBestSwapRouteBy] *)

Section By.
Variable routeType : TradeType.
Variable percentToQuotes0 : gmap Z (list RouteWithValidQuote.t).
Variable percents : list Z.
Variable by_ : RouteWithValidQuote.t -> CurrencyAmount.
Variable routingConfig : AlphaRouterConfig.

Definition compareQuotes (routeQuoteA routeQuoteB : RouteWithValidQuote.t)
    : Z :=
  match routeType with
  | EXACT_INPUT =>
      if greaterThan (by_ routeQuoteA) (by_ routeQuoteB) then -1 else 1
  | EXACT_OUTPUT =>
      if lessThan (by_ routeQuoteA) (by_ routeQuoteB) then -1 else 1
  end.

Definition percentToSortedQuotes : gmap Z (list RouteWithValidQuote.t) :=
  sort _ compareQuotes <$> percentToQuotes0.

Definition findFirstRouteNotUsingUsedPools (usedRoutes : list RouteSOR.t)
    (candidateRouteQuotes : list RouteWithValidQuote.t)
    : option RouteWithValidQuote.t :=
  let usedPoolAddresses :=
    map getPoolAddress (flat_map RouteSOR.pools usedRoutes) in
  let poolAddressSet : gset string := list_to_set usedPoolAddresses in
  List.find
    (fun routeQuote =>
       negb (existsb
               (fun pool =>
                  bool_decide (getPoolAddress pool ∈ poolAddressSet))
               (RouteSOR.pools (RouteWithValidQuote.route routeQuote))))
    candidateRouteQuotes.

Definition quoteCompFn (a b : CurrencyAmount) : bool :=
  match routeType with
  | EXACT_INPUT => greaterThan a b
  | EXACT_OUTPUT => lessThan a b
  end.

(** [percentToSortedQuotes[percent]![0]!] followed by the read of its
    [route]: a [TypeError] when the bucket is missing (or empty). *)
Definition firstOfBucket (percent : Z) : result RouteWithValidQuote.t :=
  match percentToSortedQuotes !! percent with
  | Some (routeWithQuote :: _) => Ok routeWithQuote
  | Some [] => Throw TypeError
  | None => Throw TypeError
  end.

(** The search state: [bestQuote] and [bestSwap]. *)
Definition SearchState : Type :=
  (CurrencyAmount * list RouteWithValidQuote.t)%type.

(** The body of the 2-split loop, for [percentA = percents[i]]. *)
Definition split2Body (st : SearchState) (percentA : Z)
    : result SearchState :=
  routeWithQuoteA ← firstOfBucket percentA;
  let routeA := RouteWithValidQuote.route routeWithQuoteA in
  let quoteA := by_ routeWithQuoteA in
  let percentB := 100 - percentA in
  match percentToSortedQuotes !! percentB with
  | None => Ok st
  | Some candidateRoutesB =>
      match findFirstRouteNotUsingUsedPools [routeA] candidateRoutesB with
      | None => Ok st
      | Some routeWithQuoteB =>
          let newQuote := Qplus quoteA (by_ routeWithQuoteB) in
          if quoteCompFn newQuote st.1
          then Ok (newQuote, [routeWithQuoteA; routeWithQuoteB])
          else Ok st
      end
  end.

(** [for (let i = 0; i < Math.ceil(percents.length / 2); i++)]. *)
Definition split2 (st : SearchState) : result SearchState :=
  forEachM split2Body (take (Nat.div2 (S (length percents))) percents) st.

(** The body of the inner 3-split loop, for [percentB = percents[j]].
    [candidateRoutesB] is handed to [findFirstRouteNotUsingUsedPools]
    unchecked; iterating it when it is [undefined] is a [TypeError]. *)
Definition split3Body (routeWithQuoteA : RouteWithValidQuote.t)
    (remainingPercent : Z) (st : SearchState) (percentB : Z)
    : result SearchState :=
  let routeA := RouteWithValidQuote.route routeWithQuoteA in
  let quoteA := by_ routeWithQuoteA in
  match percentToSortedQuotes !! percentB with
  | None => Throw TypeError
  | Some candidateRoutesB =>
      match findFirstRouteNotUsingUsedPools [routeA] candidateRoutesB with
      | None => Ok st
      | Some routeWithQuoteB =>
          let routeB := RouteWithValidQuote.route routeWithQuoteB in
          let quoteB := by_ routeWithQuoteB in
          let percentC := remainingPercent - percentB in
          match percentToSortedQuotes !! percentC with
          | None => Ok st
          | Some candidateRoutesC =>
              match findFirstRouteNotUsingUsedPools [routeA; routeB]
                      candidateRoutesC with
              | None => Ok st
              | Some routeWithQuoteC =>
                  let quoteC := by_ routeWithQuoteC in
                  let newQuote := Qplus (Qplus quoteA quoteB) quoteC in
                  if quoteCompFn newQuote st.1
                  then Ok (newQuote, [routeWithQuoteA; routeWithQuoteB;
                                      routeWithQuoteC])
                  else Ok st
              end
          end
      end
  end.

(** The outer 3-split loop over [i], [percentsFromI] being [percents]
    from index [i] on; the inner loop runs over [j = i + 1 ...]. *)
Fixpoint split3 (percentsFromI : list Z) (st : SearchState)
    : result SearchState :=
  match percentsFromI with
  | [] => Ok st
  | percentA :: percentsAfterI =>
      routeWithQuoteA ← firstOfBucket percentA;
      let remainingPercent := 100 - percentA in
      st' ← forEachM (split3Body routeWithQuoteA remainingPercent)
              percentsAfterI st;
      split3 percentsAfterI st'
  end.

(** The body of [while (splits <= routingConfig.maxSplits)]. *)
Definition splitsBody (splits : Z) (st : SearchState)
    : result SearchState :=
  st ← (if splits =? 2 then split2 st else Ok st);
  st ← (if (splits =? 3) && (length st.2 =? 2)%nat
        then split3 percents st else Ok st);
  if splits =? 4 then Throw (Error "Four splits is not supported")
  else Ok st.

(** The [while] loop: [splits] starts at 2 and goes up by one, so the
    body runs for [splits = 2, ..., maxSplits], [n] counting the runs
    that are left. *)
Fixpoint splitsLoop (n : nat) (splits : Z) (st : SearchState)
    : result SearchState :=
  match n with
  | O => Ok st
  | S n' => st' ← splitsBody splits st; splitsLoop n' (splits + 1) st'
  end.

(** The local [sum]: [undefined] ([None]) on an empty array. *)
Definition sum (currencyAmounts : list CurrencyAmount)
    : option CurrencyAmount :=
  match currencyAmounts with
  | [] => None
  | first :: others => Some (fold_left Qplus others first)
  end.

Definition toRouteAmount (rq : RouteWithValidQuote.t) : RouteAmount.t :=
  {| RouteAmount.route := RouteWithValidQuote.route rq;
     RouteAmount.amount := RouteWithValidQuote.amount rq;
     RouteAmount.quote := RouteWithValidQuote.quote rq;
     RouteAmount.quoteGasAdjusted :=
       RouteWithValidQuote.quoteAdjustedForGas rq;
     RouteAmount.percentage := RouteWithValidQuote.percent rq;
     RouteAmount.estimatedGasUsed := RouteWithValidQuote.gasEstimate rq |}.

(** Plan assembly.  [bestSwap] is one of the array literals of length
    1, 2 or 3, so both sums are defined; an [undefined] sum is given
    the outcome it has at its first use by the caller. *)
Definition assemble (bestSwap : list RouteWithValidQuote.t)
    : result SwapRoute.t :=
  match sum (map RouteWithValidQuote.quoteAdjustedForGas bestSwap),
        sum (map RouteWithValidQuote.quote bestSwap) with
  | Some quoteGasAdjusted, Some quote =>
      Ok {| SwapRoute.quote := quote;
            SwapRoute.quoteGasAdjusted := quoteGasAdjusted;
            SwapRoute.estimatedGasUsed :=
              fold_left Z.add
                (map RouteWithValidQuote.gasEstimate bestSwap) 0;
            SwapRoute.routeAmounts :=
              sort _
                (fun routeAmountA routeAmountB =>
                   RouteAmount.percentage routeAmountB
                   - RouteAmount.percentage routeAmountA)
                (map toRouteAmount bestSwap) |}
  | _, _ => Throw TypeError
  end.

(** [getBestSwapRouteBy]: [Ok None] is the [undefined] it returns when
    there is no 100% bucket. *)
Definition getBestSwapRouteBy : result (option SwapRoute.t) :=
  match percentToSortedQuotes !! 100 with
  | None => Ok None
  | Some bucket100 =>
      match bucket100 with
      | [] => Throw TypeError
      | first :: _ =>
          '(_, bestSwap) ←
            splitsLoop (Z.to_nat (maxSplits routingConfig - 1)) 2
              (by_ first, [first]);
          plan ← assemble bestSwap;
          Ok (Some plan)
      end
  end.
End By.

(** [getBestSwapRoute]: bucket the valid quotes, optimise by
    [quoteAdjustedForGas]; [Ok None] is [null]. *)
Definition getBestSwapRoute (percents : list Z)
    (routesWithQuotes : list RouteWithQuotes) (quoteToken : Token.t)
    (routeType : TradeType) (routingConfig : AlphaRouterConfig)
    : result (option SwapRoute.t) :=
  swapRoute ←
    getBestSwapRouteBy routeType
      (percentToQuotes percents routesWithQuotes routeType) percents
      RouteWithValidQuote.quoteAdjustedForGas routingConfig;
  match swapRoute with
  | None => Ok None
  | Some swapRoute => Ok (Some swapRoute)
  end.
End GetBestSwapRoute.


(** * Specification predicates *)

(** ** Routes *)

(** The token path the SDK's [Route] constructor walks: from [current],
    each pool must involve the current token and leads to its other
    token.  [Some] of the last token when the path holds, [None] when a
    pool does not involve the token reached (the constructor's [PATH]
    invariant). *)
Fixpoint tokenPathEnd (current : Token.t) (pools : list Pool.t)
    : option Token.t :=
  match pools with
  | [] => Some current
  | pool :: rest =>
      if Pool.involvesToken pool current
      then tokenPathEnd
             (if Token.equals (Pool.token0 pool) current
              then Pool.token1 pool else Pool.token0 pool) rest
      else None
  end.

(** Two pools share a token: an endpoint of the first is involved in the
    second. *)
Definition shareToken (p q : Pool.t) : Prop :=
  exists token,
    (token = Pool.token0 p \/ token = Pool.token1 p)
    /\ Pool.involvesToken q token = true.

Definition consecutivePoolsShareToken (route : list Pool.t) : Prop :=
  forall (i : nat) p q,
    route !! i = Some p -> route !! S i = Some q -> shareToken p q.

(** The route takes each of its pools from a different index of the pool
    array. *)
Definition usesDistinctPools (pools route : list Pool.t) : Prop :=
  exists indices : list nat,
    NoDup indices /\ Forall2 (fun i p => pools !! i = Some p) indices route.

Record wellFormedRoute (tokenIn tokenOut : Token.t) (pools : list Pool.t)
    (maxHops : Z) (r : RouteSOR.t) : Prop := {
  wf_input : RouteSOR.input r = tokenIn;
  wf_output : RouteSOR.output r = tokenOut;
  wf_length : 1 <= Z.of_nat (length (RouteSOR.pools r)) <= maxHops;
  wf_consecutive : consecutivePoolsShareToken (RouteSOR.pools r);
  wf_first :
    exists first, head (RouteSOR.pools r) = Some first
                  /\ Pool.involvesToken first tokenIn = true;
  wf_path : is_Some (tokenPathEnd tokenIn (RouteSOR.pools r));
  wf_last :
    exists final, last (RouteSOR.pools r) = Some final
                  /\ Pool.involvesToken final tokenOut = true;
  wf_distinct : usesDistinctPools pools (RouteSOR.pools r);
  wf_nodup : NoDup pools -> NoDup (RouteSOR.pools r)
}.

(** A pool before the final one involves [tokenOut]: the route passes
    through [tokenOut] mid-way. *)
Definition passesThroughTokenOutMidway (tokenOut : Token.t) (r : RouteSOR.t)
    : Prop :=
  exists (i : nat) p,
    RouteSOR.pools r !! i = Some p
    /\ (S i < length (RouteSOR.pools r))%nat
    /\ Pool.involvesToken p tokenOut = true.

(** The invariant of a call [computeRoutes(.., currentRoute, poolsUsed,
    _previousTokenOut)]. *)
Record enumerationState (tokenIn tokenOut : Token.t) (pools : list Pool.t)
    (currentRoute : list Pool.t) (poolsUsed : list bool)
    (_previousTokenOut : option Token.t) : Prop := {
  es_length : length poolsUsed = length pools;
  es_indices :
    exists indices : list nat,
      NoDup indices
      /\ Forall2 (fun i p => pools !! i = Some p) indices currentRoute
      /\ forall i, i ∈ indices -> poolsUsed !! i = Some true;
  es_path :
    tokenPathEnd tokenIn currentRoute
    = Some (default tokenIn _previousTokenOut);
  es_consecutive : consecutivePoolsShareToken currentRoute;
  es_last :
    forall p, last currentRoute = Some p ->
      default tokenIn _previousTokenOut = Pool.token0 p
      \/ default tokenIn _previousTokenOut = Pool.token1 p;
  es_notOut :
    forall (i : nat) p,
      currentRoute !! i = Some p -> (S i < length currentRoute)%nat ->
      Pool.involvesToken p tokenOut = false
}.

(** ** Multicall slots *)

(** A failed call: [success == false], or return data no longer than the
    literal 0x. *)
Definition failedCall (r : AggregateResult) : bool :=
  negb (success r) || (String.length (returnData r) <=? 2)%nat.

(** What the slot of call [r] must hold: the failure with its return data,
    or the decoded result. *)
Definition slotOf {TReturn : Type}
    (decodeFunctionResult : string -> result TReturn)
    (r : AggregateResult) (slot : Result TReturn) : Prop :=
  if failedCall r then slot = ResultFailure (returnData r)
  else exists decoded,
         decodeFunctionResult (returnData r) = Ok decoded
         /\ slot = ResultSuccess decoded.

(** The environment of a batch: the decoder accepts the return data of
    every call that did not fail, whose gas is a safe number. *)
Definition decodable {TReturn : Type}
    (decodeFunctionResult : string -> result TReturn)
    (r : AggregateResult) : Prop :=
  failedCall r = false ->
  (exists decoded, decodeFunctionResult (returnData r) = Ok decoded)
  /\ Z.abs (gasUsed r) < 2 ^ 53.

(** ** Plans *)

(** The pool-address set of a route: [Pool.getAddress] over its pools. *)
Definition poolAddresses (getPoolAddress : Pool.t -> string)
    (route : RouteSOR.t) : gset string :=
  list_to_set (map getPoolAddress (RouteSOR.pools route)).

Definition poolDisjoint (getPoolAddress : Pool.t -> string)
    (r1 r2 : RouteSOR.t) : Prop :=
  poolAddresses getPoolAddress r1 ∩ poolAddresses getPoolAddress r2 = ∅.

(** [R] holds between the entries at any two different positions. *)
Definition pairwise {A : Type} (R : A -> A -> Prop) (l : list A) : Prop :=
  forall (i j : nat) a b,
    i <> j -> l !! i = Some a -> l !! j = Some b -> R a b.

Definition sumZ (l : list Z) : Z := foldr Z.add 0 l.
Definition sumQ (l : list Q) : Q := foldr Qplus 0%Q l.

(** The trade type's comparator, non-strict: greater-or-equal for
    EXACT_IN, less-or-equal for EXACT_OUT. *)
Definition atLeastAsGood (routeType : TradeType) (a b : CurrencyAmount)
    : Prop :=
  match routeType with
  | EXACT_INPUT => (b <= a)%Q
  | EXACT_OUTPUT => (a <= b)%Q
  end.

(** A quote that [getBestSwapRoute] keeps: none of the four optional
    fields is absent. *)
Definition isValidQuote (amountQuote : AmountQuote.t) : bool :=
  match AmountQuote.quote amountQuote,
        AmountQuote.sqrtPriceX96AfterList amountQuote,
        AmountQuote.initializedTicksCrossedList amountQuote,
        AmountQuote.gasEstimate amountQuote with
  | Some _, Some _, Some _, Some _ => true
  | _, _, _, _ => false
  end.

(** Some route has a valid quote at [percent]. *)
Definition hasValidQuoteAt (percents : list Z)
    (routesWithQuotes : list RouteWithQuotes) (percent : Z) : Prop :=
  exists route quotes (i : nat) amountQuote,
    (route, quotes) ∈ routesWithQuotes
    /\ percents !! i = Some percent
    /\ quotes !! i = Some amountQuote
    /\ isValidQuote amountQuote = true.

(** Every quote of a bucket carries the percent the bucket is filed
    under, and no bucket is empty. *)
Definition bucketsKeyed (buckets : gmap Z (list RouteWithValidQuote.t))
    : Prop :=
  forall percent bucket,
    buckets !! percent = Some bucket ->
    bucket <> []
    /\ forall rq, rq ∈ bucket -> RouteWithValidQuote.percent rq = percent.

(** The invariant of the search state [(bestQuote, bestSwap)]. *)
Record goodSwap (getPoolAddress : Pool.t -> string) (routeType : TradeType)
    (by_ : RouteWithValidQuote.t -> CurrencyAmount)
    (baseline : CurrencyAmount)
    (st : CurrencyAmount * list RouteWithValidQuote.t) : Prop := {
  gs_percent : sumZ (map RouteWithValidQuote.percent st.2) = 100;
  gs_disjoint :
    pairwise (fun a b =>
                poolDisjoint getPoolAddress (RouteWithValidQuote.route a)
                  (RouteWithValidQuote.route b)) st.2;
  gs_quote : sum (map by_ st.2) = Some st.1;
  gs_better : atLeastAsGood routeType st.1 baseline
}.

(** What a sort leaves behind, in the form that suits a comparator that
    never answers 0: no entry is ordered strictly before an earlier one. *)
Definition noLaterBefore {A : Type} (compareFn : A -> A -> Z) (l : list A)
    : Prop :=
  ForallOrdPairs (fun earlier later => ~ compareFn later earlier < 0) l.

(** * Example data *)

Module Fixture.
Definition tokenA : Token.t :=
  {| Token.chainId := 1; Token.address := "0xAa"; Token.decimals := 18;
     Token.symbol := "AAA" |}.
Definition tokenB : Token.t :=
  {| Token.chainId := 1; Token.address := "0xBb"; Token.decimals := 18;
     Token.symbol := "BBB" |}.
Definition tokenC : Token.t :=
  {| Token.chainId := 1; Token.address := "0xCc"; Token.decimals := 6;
     Token.symbol := "CCC" |}.
Definition tokenD : Token.t :=
  {| Token.chainId := 1; Token.address := "0xDd"; Token.decimals := 6;
     Token.symbol := "DDD" |}.
Definition WETH : Token.t :=
  {| Token.chainId := 1; Token.address := "0xEe"; Token.decimals := 18;
     Token.symbol := "WETH" |}.

Definition pool (a b : Token.t) (fee : Z) : Pool.t :=
  {| Pool.token0 := a; Pool.token1 := b; Pool.fee := fee;
     Pool.liquidity := 1000; Pool.sqrtRatioX96 := 2 ^ 96;
     Pool.tickCurrent := 0 |}.

Definition poolAB : Pool.t := pool tokenA tokenB 500.
Definition poolBC : Pool.t := pool tokenB tokenC 500.
Definition poolAC : Pool.t := pool tokenA tokenC 3000.
Definition poolCD : Pool.t := pool tokenC tokenD 500.
Definition poolCD' : Pool.t := pool tokenC tokenD 3000.
Definition poolAD : Pool.t := pool tokenA tokenD 500.
Definition poolDB : Pool.t := pool tokenB tokenD 500.

Definition route (pools : list Pool.t) (input output : Token.t)
    : RouteSOR.t :=
  RouteSOR.new pools input output.

(** A batch of three quote calls: the first reverts, the second returns
    the empty 0x, the third succeeds. *)
Definition encodeAmount (amount : Z) : string :=
  if amount =? 1 then "0x01" else if amount =? 2 then "0x02" else "0x03".

Definition decodeQuote (returnData : string) : result string :=
  if (String.length returnData <=? 3)%nat
  then Throw (External "data out-of-bounds")
  else Ok (substring 2 (String.length returnData - 2) returnData).

Definition aggregator (calls : list Call) (blockTag : option Z)
    : result (Z * list AggregateResult) :=
  Ok (default 100 blockTag,
      map (fun call =>
             if String.eqb (callData call) "0x01"
             then {| success := false; returnData := "0x08c379a0";
                     gasUsed := 21000 |}
             else if String.eqb (callData call) "0x02"
             then {| success := true; returnData := "0x";
                     gasUsed := 30000 |}
             else {| success := true; returnData := "0x2a";
                     gasUsed := 90000 |}) calls).

Definition maxGas (gasUsed : list Z) (_ : Z) : Z :=
  fold_right Z.max 0 gasUsed.

(** Subgraph pools: token ids are lowercase addresses. *)
Definition subgraphToken (token : Token.t) : SubgraphToken.t :=
  {| SubgraphToken.id := toLowerCase (Token.address token);
     SubgraphToken.symbol := Token.symbol token |}.

Definition subgraphPool (id : string) (a b : Token.t) (tvl : string)
    : SubgraphPool.t :=
  {| SubgraphPool.id := id;
     SubgraphPool.token0 := subgraphToken a;
     SubgraphPool.token1 := subgraphToken b;
     SubgraphPool.feeTier := "3000";
     SubgraphPool.totalValueLockedUSD := tvl |}.

Definition wethA : SubgraphPool.t := subgraphPool "0x01" tokenA WETH "900".
Definition wethC : SubgraphPool.t := subgraphPool "0x02" tokenC WETH "800".
Definition directAC : SubgraphPool.t :=
  subgraphPool "0x03" tokenA tokenC "700".

(** A stand-in for [Pool.getAddress]: the token addresses and the fee
    tier. *)
Definition poolAddress (p : Pool.t) : string :=
  let tier : string := if Pool.fee p =? 500 then "/500" else "/3000" in
  Token.address (Pool.token0 p) +:+ Token.address (Pool.token1 p) +:+ tier.

(** A gas model that charges one unit of the quote token per hop. *)
Definition gasModel (route : RouteSOR.t) (quoterGasEstimate : Z) : GasCost :=
  {| gasCostEstimate := quoterGasEstimate;
     gasCostInQuoteToken :=
       inject_Z (Z.of_nat (length (RouteSOR.pools route))) |}.

Definition validQuote (amount quote : Z) : AmountQuote.t :=
  {| AmountQuote.amount := inject_Z amount;
     AmountQuote.quote := Some quote;
     AmountQuote.sqrtPriceX96AfterList := Some [2 ^ 96];
     AmountQuote.initializedTicksCrossedList := Some [1];
     AmountQuote.gasEstimate := Some 100000 |}.

(** A failed quote: the optional fields are absent. *)
Definition failedQuote (amount : Z) : AmountQuote.t :=
  {| AmountQuote.amount := inject_Z amount;
     AmountQuote.quote := None;
     AmountQuote.sqrtPriceX96AfterList := None;
     AmountQuote.initializedTicksCrossedList := None;
     AmountQuote.gasEstimate := None |}.

Definition routeAC : RouteSOR.t := route [poolAC] tokenA tokenC.
Definition routeABC : RouteSOR.t := route [poolAB; poolBC] tokenA tokenC.
Definition routeADC : RouteSOR.t := route [poolAD; poolCD] tokenA tokenC.

(** Forced split: the direct pool fills half of the amount well and
    slips above; a disjoint two-hop route takes the other half. *)
Definition forcedSplit : list RouteWithQuotes :=
  [ (routeAC, [validQuote 50 60; validQuote 100 90]);
    (routeABC, [validQuote 50 55; validQuote 100 80]) ].

(** Three disjoint routes quoted at 25, 50, 75 and 100 percent. *)
Definition threeWay : list RouteWithQuotes :=
  [ (routeAC, [validQuote 25 40; validQuote 50 60; validQuote 75 70;
               validQuote 100 80]);
    (routeABC, [validQuote 25 38; validQuote 50 55; validQuote 75 65;
                validQuote 100 75]);
    (routeADC, [validQuote 25 37; validQuote 50 50; validQuote 75 60;
                validQuote 100 70]) ].

(** One route whose 50% quote failed and whose 100% quote is valid. *)
Definition halfFailed : list RouteWithQuotes :=
  [ (routeAC, [failedQuote 50; validQuote 100 90]) ].

(** One route quoted at 100% only. *)
Definition unsplit : list RouteWithQuotes :=
  [ (routeAC, [validQuote 100 90]) ].

(** The default configuration with [maxSplits] raised to 4. *)
Definition fourSplits : AlphaRouterConfig :=
  {| topN := 4; topNTokenInOut := 4; topNSecondHop := 2;
     maxSwapsPerPath := 3; maxSplits := 4; distributionPercent := 5;
     multicallChunkSize := 50 |}.
End Fixture.

(** * Further embedding *)

(** ** Multicall provider: one function on several contracts *)

Section CallSameFunctionOnMultipleContracts.
Context {TFunctionParams TReturn : Type}.
Variable encodeFunctionData : TFunctionParams -> string.
Variable decodeFunctionResult : string -> result TReturn.
Variable multicall :
  list Call -> option Z -> result (Z * list AggregateResult).
(** [this.gasLimitPerCall]. *)
Variable gasLimitPerCall : Z.

(** One iteration of the loop over [aggregateResults]: here the gas used
    by the call is not read. *)
Definition processContractResult (results : list (Result TReturn))
    (r : AggregateResult) : result (list (Result TReturn)) :=
  if negb (success r) || (String.length (returnData r) <=? 2)%nat
  then Ok (results ++ [ResultFailure (returnData r)])
  else
    decoded ← decodeFunctionResult (returnData r);
    Ok (results ++ [ResultSuccess decoded]).

(** [callSameFunctionOnMultipleContracts]: the call data is encoded once
    and sent to every address; no block tag is passed. *)
Definition callSameFunctionOnMultipleContracts (addresses : list string)
    (functionParams : TFunctionParams)
    : result (Z * list (Result TReturn)) :=
  let callData := encodeFunctionData functionParams in
  let calls :=
    map (fun address =>
           {| target := address;
              callData := callData;
              gasLimit := gasLimitPerCall |}) addresses in
  '(blockNumber, aggregateResults) ← multicall calls None;
  results ← forEachM processContractResult aggregateResults [];
  Ok (blockNumber, results).
End CallSameFunctionOnMultipleContracts.

(** A call that did not fail and that the provider cannot turn into a
    slot: its gas is not a safe number, or the decoder rejects its data. *)
Definition unusableCall {TReturn : Type}
    (decodeFunctionResult : string -> result TReturn)
    (r : AggregateResult) : Prop :=
  failedCall r = false
  /\ (2 ^ 53 <= Z.abs (gasUsed r)
      \/ exists e, decodeFunctionResult (returnData r) = Throw e).

Module FixtureCalls.
(** Pool contracts answering [liquidity()]: the second is not deployed. *)
Definition poolAggregator (calls : list Call) (blockTag : option Z)
    : result (Z * list AggregateResult) :=
  Ok (default 200 blockTag,
      map (fun call =>
             if String.eqb (target call) "0xPool2"
             then {| success := true; returnData := "0x";
                     gasUsed := 2 ^ 60 |}
             else {| success := true; returnData := "0x07";
                     gasUsed := 2 ^ 60 |}) calls).

Definition encodeNoParams (_ : unit) : string := "0x1a686502".
End FixtureCalls.

(** ** Split optimiser: further predicates *)

(** A candidate re-uses a pool, by address, of a route already used. *)
Definition sharesPool (getPoolAddress : Pool.t -> string)
    (usedRoutes : list RouteSOR.t) (rq : RouteWithValidQuote.t) : Prop :=
  exists used p q,
    used ∈ usedRoutes
    /\ p ∈ RouteSOR.pools used
    /\ q ∈ RouteSOR.pools (RouteWithValidQuote.route rq)
    /\ getPoolAddress p = getPoolAddress q.

(** The trade type's comparator, strict: what [quoteCompFn] tests. *)
Definition strictlyBetter (routeType : TradeType) (a b : CurrencyAmount)
    : Prop :=
  match routeType with
  | EXACT_INPUT => (b < a)%Q
  | EXACT_OUTPUT => (a < b)%Q
  end.

(** The quote a [RouteWithValidQuote] was built from: a valid quote of
    [routesWithQuotes], at the index of the quote's percent. *)
Definition builtFromQuote (estimateGasCost : RouteSOR.t -> Z -> GasCost)
    (routeType : TradeType) (percents : list Z)
    (routesWithQuotes : list RouteWithQuotes)
    (rq : RouteWithValidQuote.t) : Prop :=
  exists route quotes (i : nat) amountQuote rawQuote gasEstimate,
    (route, quotes) ∈ routesWithQuotes
    /\ percents !! i = Some (RouteWithValidQuote.percent rq)
    /\ quotes !! i = Some amountQuote
    /\ isValidQuote amountQuote = true
    /\ AmountQuote.quote amountQuote = Some rawQuote
    /\ AmountQuote.gasEstimate amountQuote = Some gasEstimate
    /\ rq = RouteWithValidQuote.new estimateGasCost route rawQuote
              (AmountQuote.amount amountQuote)
              (RouteWithValidQuote.percent rq) gasEstimate routeType.

(** Every quote of every bucket was built from a valid input quote. *)
Definition allBuilt (estimateGasCost : RouteSOR.t -> Z -> GasCost)
    (routeType : TradeType) (percents : list Z)
    (routesWithQuotes : list RouteWithQuotes)
    (buckets : gmap Z (list RouteWithValidQuote.t)) : Prop :=
  forall percent bucket rq,
    buckets !! percent = Some bucket -> rq ∈ bucket ->
    builtFromQuote estimateGasCost routeType percents routesWithQuotes rq.

Module FixturePlans.
(** The default configuration with [maxSplits] lowered to 1. *)
Definition noSplits : AlphaRouterConfig :=
  {| topN := 4; topNTokenInOut := 4; topNSecondHop := 2;
     maxSwapsPerPath := 3; maxSplits := 1; distributionPercent := 5;
     multicallChunkSize := 50 |}.
End FixturePlans.

(** What [Token.equals] compares. *)
Definition tokenKey (token : Token.t) : Z * string :=
  (Token.chainId token, Token.address token).

(** ** Pool selector: the seven slices of [getPoolsToConsider] *)

(** lodash's [slice(0, end)]: a negative [end] counts from the end of
    the array. *)
Definition slice0 {A : Type} (end_ : Z) (l : list A) : list A :=
  if end_ <? 0 then take (Z.to_nat (Z.of_nat (length l) + end_)) l
  else take (Z.to_nat end_) l.

(** lodash's [sortBy]: a stable sort, ascending in the iteratee. *)
Definition sortBy {A : Type} (iteratee : A -> Q) (l : list A) : list A :=
  Array_sort A
    (fun a b =>
       match (iteratee a ?= iteratee b)%Q with
       | Lt => -1
       | Eq => 0
       | Gt => 1
       end) l.

(** lodash's [uniqBy]: the first element of each iteratee value, [seen]
    being the values met so far. *)
Fixpoint uniqByFrom {A : Type} (iteratee : A -> string)
    (seen : gset string) (l : list A) : list A :=
  match l with
  | [] => []
  | x :: rest =>
      if bool_decide (iteratee x ∈ seen) then uniqByFrom iteratee seen rest
      else x :: uniqByFrom iteratee ({[iteratee x]} ∪ seen) rest
  end.

Definition uniqBy {A : Type} (iteratee : A -> string) (l : list A)
    : list A :=
  uniqByFrom iteratee ∅ l.

Module GetPoolsToConsider.
Section Slices.
(** [Ether.onChain(this.chainId).wrapped]. *)
Variable wrappedNative : Token.t.
Variables (tokenIn tokenOut : Token.t) (routeType : TradeType).
Variable routingConfig : AlphaRouterConfig.
(** [this.tokenProvider.tokenExists(this.chainId, symbol)]. *)
Variable tokenExists : string -> bool.
(** The pool's field [totalValueLockedUSDFloat], a finite number. *)
Variable totalValueLockedUSDFloat : SubgraphPool.t -> Q.
(** [await this.subgraphProvider.getPools()]. *)
Variable allPools : list SubgraphPool.t.

(** Only pools where both tokens are in the token list, by decreasing
    TVL. *)
Definition subgraphPoolsSorted : list SubgraphPool.t :=
  sortBy (fun tokenListPool => - totalValueLockedUSDFloat tokenListPool)%Q
    (List.filter
       (fun pool =>
          tokenExists (SubgraphToken.symbol (SubgraphPool.token0 pool))
          && tokenExists (SubgraphToken.symbol (SubgraphPool.token1 pool)))
       allPools).

(** [addToAddressSet]: the ids of [pools] added one by one. *)
Definition addToAddressSet (poolAddressesSoFar : gset string)
    (pools : list SubgraphPool.t) : gset string :=
  fold_left (fun soFar poolAddress => {[poolAddress]} ∪ soFar)
    (map SubgraphPool.id pools) poolAddressesSoFar.

(** [!poolAddressesSoFar.has(subgraphPool.id)]. *)
Definition notSoFar (poolAddressesSoFar : gset string)
    (subgraphPool : SubgraphPool.t) : bool :=
  negb (bool_decide (SubgraphPool.id subgraphPool ∈ poolAddressesSoFar)).

(** [subgraphPool.token0.id == tokenId || subgraphPool.token1.id ==
    tokenId]. *)
Definition usesToken (tokenId : string) (subgraphPool : SubgraphPool.t)
    : bool :=
  String.eqb (SubgraphToken.id (SubgraphPool.token0 subgraphPool)) tokenId
  || String.eqb (SubgraphToken.id (SubgraphPool.token1 subgraphPool))
       tokenId.

Definition isDirectSwapPool (subgraphPool : SubgraphPool.t) : bool :=
  (String.eqb (SubgraphToken.id (SubgraphPool.token0 subgraphPool))
     (tokenInAddress tokenIn)
   && String.eqb (SubgraphToken.id (SubgraphPool.token1 subgraphPool))
        (tokenOutAddress tokenOut))
  || (String.eqb (SubgraphToken.id (SubgraphPool.token1 subgraphPool))
        (tokenInAddress tokenIn)
      && String.eqb (SubgraphToken.id (SubgraphPool.token0 subgraphPool))
           (tokenOutAddress tokenOut)).

Definition top2DirectSwapPool : list SubgraphPool.t :=
  slice0 2
    (List.filter
       (fun subgraphPool =>
          notSoFar ∅ subgraphPool && isDirectSwapPool subgraphPool)
       subgraphPoolsSorted).

Definition poolAddressesSoFar1 : gset string :=
  addToAddressSet ∅ top2DirectSwapPool.

(** The seen-address set is not checked for this slice. *)
Definition top2EthQuoteTokenPool : list SubgraphPool.t :=
  top2EthQuoteTokenPool wrappedNative tokenIn tokenOut routeType
    subgraphPoolsSorted.

Definition poolAddressesSoFar2 : gset string :=
  addToAddressSet poolAddressesSoFar1 top2EthQuoteTokenPool.

Definition topByTVL : list SubgraphPool.t :=
  slice0 (topN routingConfig) subgraphPoolsSorted.

Definition poolAddressesSoFar3 : gset string :=
  addToAddressSet poolAddressesSoFar2 topByTVL.

Definition topByTVLUsingTokenIn : list SubgraphPool.t :=
  slice0 (topNTokenInOut routingConfig)
    (List.filter
       (fun subgraphPool =>
          notSoFar poolAddressesSoFar3 subgraphPool
          && usesToken (tokenInAddress tokenIn) subgraphPool)
       subgraphPoolsSorted).

Definition poolAddressesSoFar4 : gset string :=
  addToAddressSet poolAddressesSoFar3 topByTVLUsingTokenIn.

Definition topByTVLUsingTokenOut : list SubgraphPool.t :=
  slice0 (topNTokenInOut routingConfig)
    (List.filter
       (fun subgraphPool =>
          notSoFar poolAddressesSoFar4 subgraphPool
          && usesToken (tokenOutAddress tokenOut) subgraphPool)
       subgraphPoolsSorted).

Definition poolAddressesSoFar5 : gset string :=
  addToAddressSet poolAddressesSoFar4 topByTVLUsingTokenOut.

(** The token of [subgraphPool] on the other side of [tokenAddress], as
    the [map] of the second-hop slices computes it. *)
Definition secondHopId (tokenAddress : string)
    (subgraphPool : SubgraphPool.t) : string :=
  if String.eqb tokenAddress
       (SubgraphToken.id (SubgraphPool.token0 subgraphPool))
  then SubgraphToken.id (SubgraphPool.token1 subgraphPool)
  else SubgraphToken.id (SubgraphPool.token0 subgraphPool).

(** The chain shared by the two second-hop slices: the pools of
    [firstHops] mapped to their other token, each token's top pools not
    seen so far, then [uniqBy], [sortBy] and [slice]. *)
Definition secondHops (tokenAddress : string)
    (poolAddressesSoFar : gset string) (firstHops : list SubgraphPool.t)
    : list SubgraphPool.t :=
  slice0 (topNSecondHop routingConfig)
    (sortBy
       (fun tokenListPool => - totalValueLockedUSDFloat tokenListPool)%Q
       (uniqBy SubgraphPool.id
          (flat_map
             (fun hopId =>
                slice0 (topNSecondHop routingConfig)
                  (List.filter
                     (fun subgraphPool =>
                        notSoFar poolAddressesSoFar subgraphPool
                        && usesToken hopId subgraphPool)
                     subgraphPoolsSorted))
             (map (secondHopId tokenAddress) firstHops)))).

Definition topByTVLUsingTokenInSecondHops : list SubgraphPool.t :=
  secondHops (tokenInAddress tokenIn) poolAddressesSoFar5
    topByTVLUsingTokenIn.

Definition poolAddressesSoFar6 : gset string :=
  addToAddressSet poolAddressesSoFar5 topByTVLUsingTokenInSecondHops.

(** As in the source, the chain starts from [topByTVLUsingTokenIn]
    here too. *)
Definition topByTVLUsingTokenOutSecondHops : list SubgraphPool.t :=
  secondHops (tokenOutAddress tokenOut) poolAddressesSoFar6
    topByTVLUsingTokenIn.

(** The pools handed to the pool provider ([compact] drops nothing: no
    entry is falsy). *)
Definition subgraphPools : list SubgraphPool.t :=
  uniqBy SubgraphPool.id
    (top2DirectSwapPool ++ top2EthQuoteTokenPool ++ topByTVL
     ++ topByTVLUsingTokenIn ++ topByTVLUsingTokenOut
     ++ topByTVLUsingTokenInSecondHops
     ++ topByTVLUsingTokenOutSecondHops).
End Slices.
End GetPoolsToConsider.

Module FixturePools.
(** Token-list pools around A, B, C and WETH, and one pool of a token
    that is not in the token list. *)
Definition poolAB : SubgraphPool.t :=
  Fixture.subgraphPool "0x04" Fixture.tokenA Fixture.tokenB "600".
Definition poolBC : SubgraphPool.t :=
  Fixture.subgraphPool "0x05" Fixture.tokenB Fixture.tokenC "500".
Definition poolBD : SubgraphPool.t :=
  Fixture.subgraphPool "0x06" Fixture.tokenB Fixture.tokenD "400".
Definition wethB : SubgraphPool.t :=
  Fixture.subgraphPool "0x07" Fixture.tokenB Fixture.WETH "300".
Definition poolAB' : SubgraphPool.t :=
  Fixture.subgraphPool "0x08" Fixture.tokenA Fixture.tokenB "200".

Definition allPools : list SubgraphPool.t :=
  [poolAB'; poolBD; wethB; poolBC; poolAB; Fixture.directAC; Fixture.wethC;
   Fixture.wethA].

Definition tokenExists (symbol : string) : bool :=
  negb (String.eqb symbol (Token.symbol Fixture.tokenD)).

Definition totalValueLockedUSDFloat (pool : SubgraphPool.t) : Q :=
  let id := SubgraphPool.id pool in
  if String.eqb id "0x01" then 900
  else if String.eqb id "0x02" then 800
  else if String.eqb id "0x03" then 700
  else if String.eqb id "0x04" then 600
  else if String.eqb id "0x05" then 500
  else if String.eqb id "0x06" then 400
  else if String.eqb id "0x07" then 300
  else 200.

(** One pool per slice. *)
Definition onePerSlice : AlphaRouterConfig :=
  {| topN := 1; topNTokenInOut := 1; topNSecondHop := 1;
     maxSwapsPerPath := 3; maxSplits := 3; distributionPercent := 5;
     multicallChunkSize := 50 |}.

Definition subgraphPools : list SubgraphPool.t :=
  GetPoolsToConsider.subgraphPools Fixture.WETH Fixture.tokenA
    Fixture.tokenC EXACT_INPUT onePerSlice tokenExists
    totalValueLockedUSDFloat allPools.
End FixturePools.

Module FixtureDistribution.
(** The default configuration with a [distributionPercent] that does not
    divide 100. *)
Definition thirtyPercent : AlphaRouterConfig :=
  {| topN := 4; topNTokenInOut := 4; topNSecondHop := 2;
     maxSwapsPerPath := 3; maxSplits := 3; distributionPercent := 30;
     multicallChunkSize := 50 |}.

(** One route quoted at 30, 60 and 90 percent. *)
Definition quotes : list RouteWithQuotes :=
  [ (Fixture.routeAC,
     [Fixture.validQuote 30 40; Fixture.validQuote 60 70;
      Fixture.validQuote 90 95]) ].
End FixtureDistribution.

(** The quote [rq] is in the bucket of its percent. *)
Definition bucketed (buckets : gmap Z (list RouteWithValidQuote.t))
    (rq : RouteWithValidQuote.t) : Prop :=
  exists bucket,
    buckets !! RouteWithValidQuote.percent rq = Some bucket /\ rq ∈ bucket.

(** ** Pool selection metrics: [emitPoolSelectionMetrics] *)

Definition toUpperAscii (c : ascii) : ascii :=
  let n := nat_of_ascii c in
  if ((97 <=? n) && (n <=? 122))%nat then ascii_of_nat (n - 32) else c.

(** lodash's [capitalize], on the selection names it is applied to: the
    first character in upper case, the others in lower case. *)
Definition capitalize (s : string) : string :=
  match s with
  | EmptyString => EmptyString
  | String c rest => String (toUpperAscii c) (toLowerCase rest)
  end.

(** lodash's [findLastIndex]: the array is walked from its end; -1 when
    no element passes. *)
Fixpoint findLastIndex {A : Type} (predicate : A -> bool) (l : list A)
    : Z :=
  match l with
  | [] => -1
  | x :: rest =>
      let later := findLastIndex predicate rest in
      if 0 <=? later then later + 1
      else if predicate x then 0 else -1
  end.

(** [poolsBySelection]: the slices under their property names, in the
    order of the object literal, which is the order [_.forIn] visits. *)
Definition PoolsBySelection : Type :=
  list (string * list SubgraphPool.t).

Section EmitPoolSelectionMetrics.
Variable getPoolAddress : Pool.t -> string.

(** The set [poolAddressesUsed]: the lowercase addresses of the pools of
    the plan's routes. *)
Definition poolAddressesUsed (routeAmounts : list RouteAmount.t)
    : gset string :=
  fold_left (fun used address => {[address]} ∪ used)
    (flat_map
       (fun routeAmount =>
          map (fun pool => toLowerCase (getPoolAddress pool))
            (RouteSOR.pools (RouteAmount.route routeAmount)))
       routeAmounts)
    ∅.

Definition topNUsed (used : gset string) (pools : list SubgraphPool.t)
    : Z :=
  findLastIndex
    (fun pool => bool_decide (toLowerCase (SubgraphPool.id pool) ∈ used))
    pools
  + 1.

(** The metrics put, in order: name and count. *)
Definition emitPoolSelectionMetrics (swapRouteRaw : SwapRoute.t)
    (poolsBySelection : PoolsBySelection) : list (string * Z) :=
  let used := poolAddressesUsed (SwapRoute.routeAmounts swapRouteRaw) in
  map (fun '(topNSelection, pools) =>
         (capitalize topNSelection, topNUsed used pools))
    poolsBySelection.

(** A selected pool is used by the plan: its id is, up to case, the
    address of a pool of one of the plan's routes. *)
Definition usedByPlan (swapRouteRaw : SwapRoute.t)
    (subgraphPool : SubgraphPool.t) : Prop :=
  exists routeAmount pool,
    routeAmount ∈ SwapRoute.routeAmounts swapRouteRaw
    /\ pool ∈ RouteSOR.pools (RouteAmount.route routeAmount)
    /\ toLowerCase (getPoolAddress pool)
       = toLowerCase (SubgraphPool.id subgraphPool).
End EmitPoolSelectionMetrics.

Module GetPoolsToConsiderResult.
(** The object [poolsBySelection] that [getPoolsToConsider] returns. *)
Definition poolsBySelection (wrappedNative tokenIn tokenOut : Token.t)
    (routeType : TradeType) (routingConfig : AlphaRouterConfig)
    (tokenExists : string -> bool)
    (totalValueLockedUSDFloat : SubgraphPool.t -> Q)
    (allPools : list SubgraphPool.t) : PoolsBySelection :=
  [ ("top2DirectSwapPool"%string,
     GetPoolsToConsider.top2DirectSwapPool tokenIn tokenOut tokenExists
       totalValueLockedUSDFloat allPools);
    ("top2EthQuoteTokenPool"%string,
     GetPoolsToConsider.top2EthQuoteTokenPool wrappedNative tokenIn
       tokenOut routeType tokenExists totalValueLockedUSDFloat allPools);
    ("topByTVL"%string,
     GetPoolsToConsider.topByTVL routingConfig tokenExists
       totalValueLockedUSDFloat allPools);
    ("topByTVLUsingTokenIn"%string,
     GetPoolsToConsider.topByTVLUsingTokenIn wrappedNative tokenIn
       tokenOut routeType routingConfig tokenExists
       totalValueLockedUSDFloat allPools);
    ("topByTVLUsingTokenOut"%string,
     GetPoolsToConsider.topByTVLUsingTokenOut wrappedNative tokenIn
       tokenOut routeType routingConfig tokenExists
       totalValueLockedUSDFloat allPools);
    ("topByTVLUsingTokenInSecondHops"%string,
     GetPoolsToConsider.topByTVLUsingTokenInSecondHops wrappedNative
       tokenIn tokenOut routeType routingConfig tokenExists
       totalValueLockedUSDFloat allPools);
    ("topByTVLUsingTokenOutSecondHops"%string,
     GetPoolsToConsider.topByTVLUsingTokenOutSecondHops wrappedNative
       tokenIn tokenOut routeType routingConfig tokenExists
       totalValueLockedUSDFloat allPools) ].
End GetPoolsToConsiderResult.

Module FixtureMetrics.
(** Subgraph pools whose ids are the addresses of the example's pools,
    in mixed case as [Pool.getAddress] gives them. *)
Definition selected (pool : Pool.t) : SubgraphPool.t :=
  {| SubgraphPool.id := Fixture.poolAddress pool;
     SubgraphPool.token0 := Fixture.subgraphToken (Pool.token0 pool);
     SubgraphPool.token1 := Fixture.subgraphToken (Pool.token1 pool);
     SubgraphPool.feeTier := "3000";
     SubgraphPool.totalValueLockedUSD := "100" |}.

Definition poolsBySelection : PoolsBySelection :=
  [ ("top2DirectSwapPool"%string, [selected Fixture.poolAC]);
    ("topByTVL"%string,
     [selected Fixture.poolAD; selected Fixture.poolBC;
      selected Fixture.poolCD]);
    ("topByTVLUsingTokenIn"%string, [selected Fixture.poolAD]) ].

(** A plan that splits between A -> C and A -> B -> C. *)
Definition plan : SwapRoute.t :=
  {| SwapRoute.quote := inject_Z 115;
     SwapRoute.quoteGasAdjusted := inject_Z 112;
     SwapRoute.estimatedGasUsed := 200000;
     SwapRoute.routeAmounts :=
       [ {| RouteAmount.route := Fixture.routeAC;
            RouteAmount.amount := inject_Z 50;
            RouteAmount.quote := inject_Z 60;
            RouteAmount.quoteGasAdjusted := inject_Z 59;
            RouteAmount.estimatedGasUsed := 100000;
            RouteAmount.percentage := 50 |};
         {| RouteAmount.route := Fixture.routeABC;
            RouteAmount.amount := inject_Z 50;
            RouteAmount.quote := inject_Z 55;
            RouteAmount.quoteGasAdjusted := inject_Z 53;
            RouteAmount.estimatedGasUsed := 100000;
            RouteAmount.percentage := 50 |} ] |}.
End FixtureMetrics.

(** * Properties *)

(** ** Amount distributor *)

Lemma distributionLoop_length n i d amount :
  length (distributionLoop n i d amount).1 = n
  /\ length (distributionLoop n i d amount).2 = n.
Proof.
  revert i. induction n as [|n IH]; intros i; simpl; [done|].
  specialize (IH (i + 1)).
  destruct (distributionLoop n (i + 1) d amount) as [ps amts]; simpl in *.
  lia.
Qed.

Lemma distributionLoop_lookup n i d amount (k : nat) :
  (k < n)%nat ->
  (distributionLoop n i d amount).1 !! k = Some ((i + Z.of_nat k) * d)
  /\ (distributionLoop n i d amount).2 !! k
     = Some (Qmult amount (Fraction ((i + Z.of_nat k) * d) 100)).
Proof.
  revert i k. induction n as [|n IH]; intros i k Hk; [lia|].
  simpl. specialize (IH (i + 1)).
  destruct (distributionLoop n (i + 1) d amount) as [ps amts]; simpl in *.
  destruct k as [|k]; simpl.
  - rewrite Z.add_0_r. done.
  - destruct (IH k) as [Hp Ha]; [lia|].
    replace (i + Z.of_nat (S k)) with (i + 1 + Z.of_nat k) by lia. done.
Qed.

Lemma Fraction_percent_eq (amount : Q) (n : Z) :
  (Qmult amount (Fraction n 100) == amount * (inject_Z n / inject_Z 100))%Q.
Proof.
  apply Qmult_comp; [reflexivity|].
  unfold Fraction. rewrite (Qmake_Qdiv n 100). reflexivity.
Qed.

(** C9.  For a positive [distributionPercent] that divides 100, the
    distributor returns exactly [K = 100 / distributionPercent] percents
    and amounts; entry [i - 1] holds [i * distributionPercent] and the
    exact rational [amount * (i * distributionPercent) / 100]; the last
    amount is the whole input amount. *)
Theorem getAmountDistribution_exact (amount : CurrencyAmount)
    (routingConfig : AlphaRouterConfig) :
  let d := distributionPercent routingConfig in
  let K := 100 / d in
  0 < d -> (d | 100) ->
  exists percents amounts,
    getAmountDistribution amount routingConfig = Some (percents, amounts)
    /\ Z.of_nat (length percents) = K
    /\ Z.of_nat (length amounts) = K
    /\ (forall i, 1 <= i <= K ->
          percents !! Z.to_nat (i - 1) = Some (i * d)
          /\ exists a, amounts !! Z.to_nat (i - 1) = Some a
               /\ a = Qmult amount (Fraction (i * d) 100)
               /\ (a == amount * (inject_Z (i * d) / inject_Z 100))%Q)
    /\ exists lastAmount,
         last amounts = Some lastAmount /\ (lastAmount == amount)%Q.
Proof.
  intros d K Hd [q Hq].
  assert (HK : K = q).
  { unfold K. rewrite Hq. apply Z.div_mul. lia. }
  assert (HK1 : 1 <= K) by nia.
  unfold getAmountDistribution. fold d.
  destruct (Z.eqb_spec d 0) as [->|_]; [lia|].
  fold K.
  pose proof (distributionLoop_length (Z.to_nat K) 1 d amount) as [Hlp Hla].
  pose proof (distributionLoop_lookup (Z.to_nat K) 1 d amount) as Hlk.
  destruct (distributionLoop (Z.to_nat K) 1 d amount) as [ps amts] eqn:E.
  simpl in *.
  exists ps, amts. split; [done|].
  split; [lia|]. split; [lia|]. split.
  - intros i Hi. destruct (Hlk (Z.to_nat (i - 1))) as [Hp Ha]; [lia|].
    replace (1 + Z.of_nat (Z.to_nat (i - 1))) with i in Hp, Ha by lia.
    split; [done|].
    eexists. split; [exact Ha|]. split; [done|].
    apply Fraction_percent_eq.
  - destruct (Hlk (Z.to_nat (K - 1))) as [_ Ha]; [lia|].
    replace (1 + Z.of_nat (Z.to_nat (K - 1))) with K in Ha by lia.
    eexists. split.
    + rewrite last_lookup.
      replace (Nat.pred (length amts)) with (Z.to_nat (K - 1)) by lia.
      exact Ha.
    + replace (K * d) with 100 by lia.
      unfold Fraction.
      assert (H1 : (100 # 100 == 1)%Q) by reflexivity.
      rewrite H1. apply Qmult_1_r.
Qed.

(** The default configuration, amount 1000: twenty slices of 5%. *)
Lemma getAmountDistribution_exact_witness :
  exists percents amounts,
    getAmountDistribution (Fraction 1000 1) DEFAULT_CONFIG
      = Some (percents, amounts)
    /\ Z.of_nat (length percents) = 20
    /\ Z.of_nat (length amounts) = 20
    /\ (forall i, 1 <= i <= 20 ->
          percents !! Z.to_nat (i - 1) = Some (i * 5)
          /\ exists a, amounts !! Z.to_nat (i - 1) = Some a
               /\ a = Qmult (Fraction 1000 1) (Fraction (i * 5) 100)
               /\ (a == Fraction 1000 1
                        * (inject_Z (i * 5) / inject_Z 100))%Q)
    /\ exists lastAmount,
         last amounts = Some lastAmount
         /\ (lastAmount == Fraction 1000 1)%Q.
Proof.
  apply (getAmountDistribution_exact (Fraction 1000 1) DEFAULT_CONFIG).
  - simpl. lia.
  - exists 20. reflexivity.
Defined.

(** The sum of the amounts the loop emits from counter [i]. *)
Lemma distributionLoop_sum n i d amount :
  (sumQ (distributionLoop n i d amount).2
   == amount * (inject_Z d / inject_Z 100)
      * (inject_Z (Z.of_nat n) * inject_Z i
         + inject_Z (Z.of_nat n) * (inject_Z (Z.of_nat n) - 1) / 2))%Q.
Proof.
  revert i. induction n as [|n IH]; intros i.
  - simpl. unfold sumQ. simpl. field.
  - rewrite Nat2Z.inj_succ, <- Z.add_1_r.
    remember (Z.of_nat n) as m eqn:Em.
    simpl. specialize (IH (i + 1)).
    destruct (distributionLoop n (i + 1) d amount) as [ps amts]; simpl in *.
    unfold sumQ in *. simpl. rewrite IH.
    rewrite Fraction_percent_eq.
    rewrite !inject_Z_plus, !inject_Z_mult. simpl (inject_Z 1).
    field.
Qed.

(** The distributor is a rational function of its inputs: the amounts sum
    to [amount * K * (K + 1) / (2 * 100 / distributionPercent)]. *)
Lemma getAmountDistribution_sum (amount : CurrencyAmount)
    (routingConfig : AlphaRouterConfig) :
  let d := distributionPercent routingConfig in
  let K := 100 / d in
  0 < d -> (d | 100) ->
  exists percents amounts,
    getAmountDistribution amount routingConfig = Some (percents, amounts)
    /\ (sumQ amounts
        == amount * inject_Z K * (inject_Z K + 1)
           / (2 * (100 / inject_Z d)))%Q.
Proof.
  intros d K Hd [q Hq].
  assert (HK : K = q) by (unfold K; rewrite Hq; apply Z.div_mul; lia).
  assert (HK1 : 1 <= K) by nia.
  unfold getAmountDistribution. fold d.
  destruct (Z.eqb_spec d 0) as [->|_]; [lia|]. fold K.
  pose proof (distributionLoop_sum (Z.to_nat K) 1 d amount) as Hsum.
  destruct (distributionLoop (Z.to_nat K) 1 d amount) as [ps amts].
  simpl in Hsum. exists ps, amts. split; [done|].
  rewrite Hsum, Z2Nat.id by lia.
  assert (Hd100 : (inject_Z 100 == inject_Z K * inject_Z d)%Q).
  { rewrite <- inject_Z_mult. apply inject_Z_injective. lia. }
  assert (HdQ : ~ (inject_Z d == 0)%Q).
  { intros H. apply (inject_Z_injective d 0) in H. lia. }
  assert (HKQ : ~ (inject_Z K == 0)%Q).
  { intros H. apply (inject_Z_injective K 0) in H. lia. }
  change 100%Q with (inject_Z 100).
  rewrite Hd100. simpl (inject_Z 1). field. split; done.
Qed.

(** The default configuration: 5, 10, ..., 100. *)
Example getAmountDistribution_default_percents :
  fst <$> getAmountDistribution (Fraction 1000 1) DEFAULT_CONFIG
  = Some [5; 10; 15; 20; 25; 30; 35; 40; 45; 50;
          55; 60; 65; 70; 75; 80; 85; 90; 95; 100].
Proof. reflexivity. Qed.

(** ** Route enumerator *)

Section RouteEnumeratorFacts.
Variables (tokenIn tokenOut : Token.t) (pools : list Pool.t) (maxHops : Z).

Local Abbreviation computeRoutes :=
  (computeRoutes tokenIn tokenOut pools maxHops).

Lemma elem_of_concat_imap {A B} (f : nat -> A -> list B) (l : list A) x :
  x ∈ concat (imap f l) <-> exists i y, l !! i = Some y /\ x ∈ f i y.
Proof.
  revert f. induction l as [|a l IH]; intros f; simpl.
  - split; [intros H; inversion H | intros (i & y & H & _); done].
  - rewrite elem_of_app, IH. split.
    + intros [H | (i & y & Hl & Hx)].
      * exists 0%nat, a. done.
      * exists (S i), y. done.
    + intros (i & y & Hl & Hx). destruct i as [|i]; simpl in Hl.
      * left. by simplify_eq.
      * right. exists i, y. done.
Qed.

(** The equation of a call that has fuel left. *)
Lemma computeRoutes_unfold fuel currentRoute poolsUsed prev :
  computeRoutes (S fuel) currentRoute poolsUsed prev
  = if Z.of_nat (length currentRoute) >? maxHops then []
    else if lastInvolvesTokenOut tokenOut currentRoute
    then [RouteSOR.new currentRoute tokenIn tokenOut]
    else
      concat (imap (fun i curPool =>
        if default false (poolsUsed !! i) then []
        else
          if negb (Pool.involvesToken curPool (default tokenIn prev))
          then []
          else
            computeRoutes fuel (currentRoute ++ [curPool])
              (<[i:=true]> poolsUsed)
              (Some (if Token.equals (Pool.token0 curPool)
                          (default tokenIn prev)
                     then Pool.token1 curPool
                     else Pool.token0 curPool)))
        pools).
Proof. reflexivity. Qed.

(** Enough fuel: one more unit changes nothing once the fuel covers the
    hops that are left. *)
Lemma computeRoutes_fuel fuel currentRoute poolsUsed prev :
  (Z.to_nat maxHops + 1 <= fuel + length currentRoute)%nat ->
  computeRoutes (S fuel) currentRoute poolsUsed prev
  = computeRoutes fuel currentRoute poolsUsed prev.
Proof.
  revert currentRoute poolsUsed prev.
  induction fuel as [|fuel IH]; intros cr used prev Hfuel.
  - simpl.
    destruct (Z.of_nat (length cr) >? maxHops) eqn:E; [done|].
    rewrite Z.gtb_ltb in E. apply Z.ltb_ge in E. lia.
  - rewrite (computeRoutes_unfold (S fuel)), (computeRoutes_unfold fuel).
    destruct (Z.of_nat (length cr) >? maxHops); [done|].
    destruct (lastInvolvesTokenOut tokenOut cr); [done|].
    f_equal. apply imap_ext.
    intros i curPool _. cbv beta.
    destruct (default false (used !! i)); [done|].
    destruct (negb _); [done|].
    apply IH. rewrite length_app. simpl. lia.
Qed.

Lemma computeRoutes_enough_fuel fuel :
  (S (Z.to_nat maxHops) <= fuel)%nat ->
  computeRoutes fuel [] (replicate (length pools) false) None
  = computeAllRoutes tokenIn tokenOut pools maxHops.
Proof.
  unfold computeAllRoutes.
  induction 1 as [|fuel Hle IH]; [done|].
  rewrite computeRoutes_fuel; [done | simpl; lia].
Qed.

Lemma tokenPathEnd_snoc current route pool :
  tokenPathEnd current (route ++ [pool])
  = match tokenPathEnd current route with
    | Some reached =>
        if Pool.involvesToken pool reached
        then Some (if Token.equals (Pool.token0 pool) reached
                   then Pool.token1 pool else Pool.token0 pool)
        else None
    | None => None
    end.
Proof.
  revert current. induction route as [|p route IH]; intros current; simpl.
  - by destruct (Pool.involvesToken pool current).
  - destruct (Pool.involvesToken p current); [apply IH | done].
Qed.

Lemma consecutivePoolsShareToken_snoc route pool :
  consecutivePoolsShareToken route ->
  (forall p, last route = Some p -> shareToken p pool) ->
  consecutivePoolsShareToken (route ++ [pool]).
Proof.
  intros Hroute Hlast i p q Hp Hq.
  destruct (decide (S i < length route)%nat) as [Hlt|Hge].
  - rewrite lookup_app_l in Hp by lia. rewrite lookup_app_l in Hq by lia.
    by eapply Hroute.
  - assert (Hi : S i = length route).
    { apply lookup_lt_Some in Hq. rewrite length_app in Hq. simpl in Hq.
      lia. }
    rewrite lookup_app_l in Hp by lia.
    rewrite lookup_app_r in Hq by lia.
    replace (S i - length route)%nat with 0%nat in Hq by lia.
    simpl in Hq. simplify_eq. apply Hlast.
    rewrite last_lookup. by replace (Nat.pred (length route)) with i by lia.
Qed.

Lemma enumerationState_initial :
  enumerationState tokenIn tokenOut pools []
    (replicate (length pools) false) None.
Proof.
  split; simpl; try done.
  - by rewrite length_replicate.
  - exists []. split; [constructor|]. split; [constructor|].
    intros i Hi. inversion Hi.
Qed.

(** The state of the recursive call made for pool [i]. *)
Lemma enumerationState_step currentRoute poolsUsed prev (i : nat) curPool :
  enumerationState tokenIn tokenOut pools currentRoute poolsUsed prev ->
  lastInvolvesTokenOut tokenOut currentRoute = false ->
  pools !! i = Some curPool ->
  default false (poolsUsed !! i) = false ->
  Pool.involvesToken curPool (default tokenIn prev) = true ->
  enumerationState tokenIn tokenOut pools (currentRoute ++ [curPool])
    (<[i:=true]> poolsUsed)
    (Some (if Token.equals (Pool.token0 curPool) (default tokenIn prev)
           then Pool.token1 curPool else Pool.token0 curPool)).
Proof.
  intros [Hlen Hidx Hpath Hcons Hlast HnotOut] HlastOut Hi Hunused Hinv.
  split.
  - by rewrite length_insert.
  - destruct Hidx as (idxs & Hnd & Hall & Hused).
    exists (idxs ++ [i]). split; [|split].
    + apply NoDup_app. split; [done|]. split; [|apply NoDup_singleton].
      intros j Hj Hji. apply list_elem_of_singleton in Hji. subst j.
      apply Hused in Hj. rewrite Hj in Hunused. done.
    + apply Forall2_app; [done|]. by constructor.
    + intros j Hj.
      destruct (decide (j = i)) as [->|Hne].
      * apply list_lookup_insert_eq.
        apply elem_of_app in Hj as [Hj | Hj].
        -- apply Hused in Hj. by apply lookup_lt_Some in Hj.
        -- rewrite Hlen. by apply lookup_lt_Some in Hi.
      * rewrite list_lookup_insert_ne by done.
        apply elem_of_app in Hj as [Hj | Hj]; [by apply Hused|].
        apply list_elem_of_singleton in Hj. done.
  - rewrite tokenPathEnd_snoc, Hpath. simpl. by rewrite Hinv.
  - apply consecutivePoolsShareToken_snoc; [done|].
    intros p Hp. exists (default tokenIn prev). split; [by apply Hlast|done].
  - intros p Hp. rewrite last_snoc in Hp. simplify_eq. simpl.
    destruct (Token.equals (Pool.token0 p) (default tokenIn prev)); auto.
  - intros j p Hp Hj. rewrite length_app in Hj. simpl in Hj.
    rewrite lookup_app_l in Hp by lia.
    destruct (decide (S j < length currentRoute)%nat) as [Hlt|Hge].
    + by eapply HnotOut.
    + unfold lastInvolvesTokenOut in HlastOut.
      rewrite last_lookup in HlastOut.
      replace (Nat.pred (length currentRoute)) with j in HlastOut by lia.
      by rewrite Hp in HlastOut.
Qed.

Lemma distinct_indices_NoDup (indices : list nat) (route : list Pool.t) :
  NoDup pools -> NoDup indices ->
  Forall2 (fun i p => pools !! i = Some p) indices route ->
  NoDup route.
Proof.
  intros Hpools Hnd Hall. induction Hall as [|i p idxs route Hi Hall IH].
  - constructor.
  - apply NoDup_cons in Hnd as [Hnotin Hnd].
    apply NoDup_cons. split; [|by apply IH].
    intros Hin. apply list_elem_of_lookup in Hin as [k Hk].
    destruct (Forall2_lookup_r _ _ _ _ _ Hall Hk) as (j & Hj & Hpj).
    assert (j = i) by exact (NoDup_lookup pools j i p Hpools Hpj Hi).
    subst j.
    apply Hnotin. apply list_elem_of_lookup. eauto.
Qed.

(** A route pushed from a state that satisfies the invariant. *)
Lemma emitted_route_ok currentRoute poolsUsed prev :
  enumerationState tokenIn tokenOut pools currentRoute poolsUsed prev ->
  (Z.of_nat (length currentRoute) >? maxHops) = false ->
  lastInvolvesTokenOut tokenOut currentRoute = true ->
  wellFormedRoute tokenIn tokenOut pools maxHops
    (RouteSOR.new currentRoute tokenIn tokenOut)
  /\ ~ passesThroughTokenOutMidway tokenOut
         (RouteSOR.new currentRoute tokenIn tokenOut).
Proof.
  intros [Hlen Hidx Hpath Hcons Hlast HnotOut] Hhops HlastOut.
  rewrite Z.gtb_ltb in Hhops. apply Z.ltb_ge in Hhops.
  unfold lastInvolvesTokenOut in HlastOut.
  destruct (last currentRoute) as [final|] eqn:Efinal; [|done].
  assert (Hne : currentRoute <> []) by (intros ->; done).
  destruct Hidx as (idxs & Hnd & Hall & _).
  split.
  - split; simpl.
    + done.
    + done.
    + assert (0 < length currentRoute)%nat
        by (destruct currentRoute; [done | simpl; lia]).
      lia.
    + done.
    + destruct currentRoute as [|first rest]; [done|].
      exists first. split; [done|]. simpl in Hpath.
      by destruct (Pool.involvesToken first tokenIn).
    + by rewrite Hpath.
    + by exists final.
    + by exists idxs.
    + intros Hpools. by eapply distinct_indices_NoDup.
  - intros (i & p & Hp & Hi & Hout). simpl in *.
    by rewrite (HnotOut i p Hp Hi) in Hout.
Qed.

(** Every route a call pushes, at any depth below it, is well formed and
    involves [tokenOut] in its final pool only. *)
Lemma computeRoutes_sound fuel currentRoute poolsUsed prev r :
  enumerationState tokenIn tokenOut pools currentRoute poolsUsed prev ->
  r ∈ computeRoutes fuel currentRoute poolsUsed prev ->
  wellFormedRoute tokenIn tokenOut pools maxHops r
  /\ ~ passesThroughTokenOutMidway tokenOut r.
Proof.
  revert currentRoute poolsUsed prev.
  induction fuel as [|fuel IH]; intros cr used prev Hstate Hr.
  - simpl in Hr.
    destruct (Z.of_nat (length cr) >? maxHops) eqn:Ehops;
      [by inversion Hr|].
    destruct (lastInvolvesTokenOut tokenOut cr) eqn:Elast;
      [|by inversion Hr].
    apply list_elem_of_singleton in Hr. subst r.
    by eapply emitted_route_ok.
  - rewrite computeRoutes_unfold in Hr.
    destruct (Z.of_nat (length cr) >? maxHops) eqn:Ehops;
      [by inversion Hr|].
    destruct (lastInvolvesTokenOut tokenOut cr) eqn:Elast.
    + apply list_elem_of_singleton in Hr. subst r.
      by eapply emitted_route_ok.
    + apply elem_of_concat_imap in Hr as (i & curPool & Hi & Hr).
      destruct (default false (used !! i)) eqn:Eused; [by inversion Hr|].
      destruct (Pool.involvesToken curPool (default tokenIn prev))
        eqn:Einv; simpl in Hr; [|by inversion Hr].
      eapply IH; [|exact Hr].
      by apply enumerationState_step.
Qed.

(** C6.  Every route [computeAllRoutes] emits is well formed: between 1
    and [maxHops] pools, consecutive pools share a token, the first pool
    involves [tokenIn] and the token path from [tokenIn] holds all along
    the route, the final pool involves [tokenOut], and the pools come
    from distinct entries of the pool array (so none occurs twice when
    the array has no duplicate). *)
Theorem computeAllRoutes_well_formed r :
  r ∈ computeAllRoutes tokenIn tokenOut pools maxHops ->
  wellFormedRoute tokenIn tokenOut pools maxHops r.
Proof.
  intros Hr. eapply computeRoutes_sound; [|exact Hr].
  apply enumerationState_initial.
Qed.

(** C7, as the code has it.  The enumerator stops a branch at the first
    pool that involves [tokenOut]: in every emitted route the only pool
    that involves [tokenOut] is the final one. *)
Theorem computeAllRoutes_tokenOut_only_in_final_pool r (i : nat) p :
  r ∈ computeAllRoutes tokenIn tokenOut pools maxHops ->
  RouteSOR.pools r !! i = Some p ->
  Pool.involvesToken p tokenOut = true ->
  S i = length (RouteSOR.pools r).
Proof.
  intros Hr Hp Hout.
  destruct (computeRoutes_sound _ _ _ _ _ enumerationState_initial Hr)
    as [_ Hmid].
  apply lookup_lt_Some in Hp as Hlt.
  destruct (decide (S i = length (RouteSOR.pools r))) as [|Hne]; [done|].
  exfalso. apply Hmid. exists i, p. split; [done|]. split; [lia|done].
Qed.
End RouteEnumeratorFacts.

(** The two-hop route A -> B -> C among three pools. *)
Lemma computeAllRoutes_well_formed_witness :
  wellFormedRoute Fixture.tokenA Fixture.tokenC
    [Fixture.poolAB; Fixture.poolBC; Fixture.poolAC] 3
    (Fixture.route [Fixture.poolAB; Fixture.poolBC]
       Fixture.tokenA Fixture.tokenC).
Proof.
  apply (computeAllRoutes_well_formed Fixture.tokenA Fixture.tokenC
           [Fixture.poolAB; Fixture.poolBC; Fixture.poolAC] 3).
  vm_compute. apply list_elem_of_here.
Defined.

(** In the route A -> B -> C, the pool B/C that involves C is the last. *)
Lemma computeAllRoutes_tokenOut_only_in_final_pool_witness :
  2%nat = length (RouteSOR.pools
                    (Fixture.route [Fixture.poolAB; Fixture.poolBC]
                       Fixture.tokenA Fixture.tokenC)).
Proof.
  apply (computeAllRoutes_tokenOut_only_in_final_pool
           Fixture.tokenA Fixture.tokenC
           [Fixture.poolAB; Fixture.poolBC; Fixture.poolAC] 3
           (Fixture.route [Fixture.poolAB; Fixture.poolBC]
              Fixture.tokenA Fixture.tokenC)
           1%nat Fixture.poolBC).
  - vm_compute. apply list_elem_of_here.
  - reflexivity.
  - reflexivity.
Defined.

(** Two routes from A to C over three pools, in the order of the search. *)
Example computeAllRoutes_two_routes :
  computeAllRoutes Fixture.tokenA Fixture.tokenC
    [Fixture.poolAB; Fixture.poolBC; Fixture.poolAC] 3
  = [Fixture.route [Fixture.poolAB; Fixture.poolBC]
       Fixture.tokenA Fixture.tokenC;
     Fixture.route [Fixture.poolAC] Fixture.tokenA Fixture.tokenC].
Proof. reflexivity. Qed.

(** The path A -> C -> D -> C exists in this pool set and ends in a pool
    that contains C, yet the search stops at the direct pool. *)
Example computeAllRoutes_stops_at_tokenOut :
  computeAllRoutes Fixture.tokenA Fixture.tokenC
    [Fixture.poolAC; Fixture.poolCD; Fixture.poolCD'] 3
  = [Fixture.route [Fixture.poolAC] Fixture.tokenA Fixture.tokenC]
  /\ tokenPathEnd Fixture.tokenA
       [Fixture.poolAC; Fixture.poolCD; Fixture.poolCD']
     = Some Fixture.tokenC.
Proof. split; reflexivity. Qed.

(** C7, as stated: no pool set has an emitted route that passes through
    [tokenOut] mid-way. *)
Lemma computeAllRoutes_never_passes_through_tokenOut :
  ~ exists tokenIn tokenOut pools maxHops r,
      r ∈ computeAllRoutes tokenIn tokenOut pools maxHops
      /\ passesThroughTokenOutMidway tokenOut r
      /\ (exists final, last (RouteSOR.pools r) = Some final
                        /\ Pool.involvesToken final tokenOut = true).
Proof.
  intros (tokenIn & tokenOut & pools & maxHops & r & Hr & Hmid & _).
  destruct (computeRoutes_sound _ _ _ _ _ _ _ _ _
              (enumerationState_initial tokenIn tokenOut pools) Hr)
    as [_ Hno].
  by apply Hno.
Qed.


(** ** The [result] monad *)

Lemma bind_Ok {A B} (a : A) (k : A -> result B) : (Ok a ≫= k) = k a.
Proof. reflexivity. Qed.

Lemma bind_Throw {A B} (e : exn) (k : A -> result B) :
  (Throw e ≫= k) = Throw e.
Proof. reflexivity. Qed.

Lemma forEachM_cons {A S} (body : S -> A -> result S) x l s :
  forEachM body (x :: l) s = (body s x ≫= forEachM body l).
Proof. reflexivity. Qed.

Lemma forEachM_nil {A S} (body : S -> A -> result S) s :
  forEachM body [] s = Ok s.
Proof. reflexivity. Qed.

(** ** Multicall provider *)

Section UniswapMulticallProviderFacts.
Context {TFunctionParams TReturn Number : Type}.
Variable encodeFunctionData : TFunctionParams -> string.
Variable decodeFunctionResult : string -> result TReturn.
Variable multicall :
  list Call -> option Z -> result (Z * list AggregateResult).
Variable percentile : list Z -> Z -> Number.

Lemma processResult_failed results gasUsedForSuccess r :
  failedCall r = true ->
  processResult decodeFunctionResult (results, gasUsedForSuccess) r
  = Ok (results ++ [ResultFailure (returnData r)], gasUsedForSuccess).
Proof. unfold processResult, failedCall. by intros ->. Qed.

Lemma processResult_decoded results gasUsedForSuccess r decoded :
  failedCall r = false ->
  Z.abs (gasUsed r) < 2 ^ 53 ->
  decodeFunctionResult (returnData r) = Ok decoded ->
  processResult decodeFunctionResult (results, gasUsedForSuccess) r
  = Ok (results ++ [ResultSuccess decoded],
        gasUsedForSuccess ++ [gasUsed r]).
Proof.
  unfold processResult, failedCall, toNumber. intros -> Hgas ->.
  destruct (Z.ltb_spec (Z.abs (gasUsed r)) (2 ^ 53)) as [_|]; [done|lia].
Qed.

(** The loop fills one slot per aggregate result, in order, whatever the
    mix of failed and successful calls. *)
Lemma processResult_loop aggregateResults results gasUsedForSuccess :
  Forall (decodable decodeFunctionResult) aggregateResults ->
  exists slots gas,
    forEachM (processResult decodeFunctionResult) aggregateResults
      (results, gasUsedForSuccess)
    = Ok (results ++ slots, gasUsedForSuccess ++ gas)
    /\ Forall2 (slotOf decodeFunctionResult) aggregateResults slots.
Proof.
  revert results gasUsedForSuccess.
  induction aggregateResults as [|r rest IH]; intros results gasAcc Hall.
  - exists [], []. simpl. rewrite !app_nil_r. split; [done | constructor].
  - apply Forall_cons in Hall as [Hr Hrest].
    rewrite forEachM_cons. unfold decodable in Hr.
    destruct (failedCall r) eqn:Efail.
    + rewrite processResult_failed, bind_Ok by done.
      destruct (IH (results ++ [ResultFailure (returnData r)]) gasAcc Hrest)
        as (slots & gas & Hloop & Hslots).
      exists (ResultFailure (returnData r) :: slots), gas.
      rewrite Hloop, <- !app_assoc. split; [done|].
      constructor; [|done]. unfold slotOf. by rewrite Efail.
    + destruct Hr as [[decoded Hdecoded] Hgas]; [done|].
      rewrite (processResult_decoded _ _ _ decoded), bind_Ok by done.
      destruct (IH (results ++ [ResultSuccess decoded])
                  (gasAcc ++ [gasUsed r]) Hrest)
        as (slots & gas & Hloop & Hslots).
      exists (ResultSuccess decoded :: slots), (gasUsed r :: gas).
      rewrite Hloop, <- !app_assoc. split; [done|].
      constructor; [|done]. unfold slotOf. rewrite Efail. eauto.
Qed.

(** C10.  Whatever calls of a batch failed ([success == false] or
    return data of length at most 2), the batch is answered: the results
    have one slot per aggregate result, in order, a failed call's slot
    being the failure with its return data and every other slot the
    decoded result.  With an aggregator that answers each submitted
    call, that is one slot per submitted call. *)
Theorem multicall_failed_call_does_not_fail_batch
    (address : string) (functionParams : list TFunctionParams)
    (gasLimitPerCall : Z) (blockNumberOverride : option Z)
    (blockNumber : Z) (aggregateResults : list AggregateResult) :
  multicall
    (map (fun functionParam =>
            {| target := address;
               callData := encodeFunctionData functionParam;
               gasLimit := gasLimitPerCall |}) functionParams)
    blockNumberOverride
  = Ok (blockNumber, aggregateResults) ->
  length aggregateResults = length functionParams ->
  Forall (decodable decodeFunctionResult) aggregateResults ->
  exists outcome,
    callSameFunctionOnContractWithMultipleParams encodeFunctionData
      decodeFunctionResult multicall percentile address functionParams
      gasLimitPerCall blockNumberOverride
    = Ok outcome
    /\ length (results outcome) = length functionParams
    /\ forall (i : nat) functionParam,
         functionParams !! i = Some functionParam ->
         exists r slot,
           aggregateResults !! i = Some r
           /\ results outcome !! i = Some slot
           /\ (failedCall r = true ->
               slot = ResultFailure (returnData r))
           /\ (failedCall r = false ->
               exists decoded,
                 decodeFunctionResult (returnData r) = Ok decoded
                 /\ slot = ResultSuccess decoded).
Proof.
  intros Hcall Hlen Hall.
  destruct (processResult_loop aggregateResults [] [] Hall)
    as (slots & gas & Hloop & Hslots).
  unfold callSameFunctionOnContractWithMultipleParams.
  rewrite Hcall. simpl. rewrite Hloop. simpl.
  eexists. split; [done|]. simpl.
  pose proof (Forall2_length _ _ _ Hslots) as Hlen'.
  split; [lia|].
  intros i functionParam Hi.
  apply lookup_lt_Some in Hi.
  destruct (lookup_lt_is_Some_2 aggregateResults i) as [r Hr]; [lia|].
  destruct (Forall2_lookup_l _ _ _ _ _ Hslots Hr) as (slot & Hslot & Hok).
  exists r, slot. split; [done|]. split; [done|].
  unfold slotOf in Hok.
  destruct (failedCall r); split; intros; done.
Qed.
End UniswapMulticallProviderFacts.

(** A batch of three calls: one reverted, one empty, one decoded. *)
Lemma multicall_failed_call_does_not_fail_batch_witness :
  exists outcome,
    callSameFunctionOnContractWithMultipleParams Fixture.encodeAmount
      Fixture.decodeQuote Fixture.aggregator Fixture.maxGas "0xQuoter"
      [1; 2; 3] 1000000 None
    = Ok outcome
    /\ length (results outcome) = length [1; 2; 3]
    /\ forall (i : nat) functionParam,
         [1; 2; 3] !! i = Some functionParam ->
         exists r slot,
           [ {| success := false; returnData := "0x08c379a0";
                gasUsed := 21000 |};
             {| success := true; returnData := "0x"; gasUsed := 30000 |};
             {| success := true; returnData := "0x2a"; gasUsed := 90000 |} ]
             !! i = Some r
           /\ results outcome !! i = Some slot
           /\ (failedCall r = true -> slot = ResultFailure (returnData r))
           /\ (failedCall r = false ->
               exists decoded,
                 Fixture.decodeQuote (returnData r) = Ok decoded
                 /\ slot = ResultSuccess decoded).
Proof.
  apply (multicall_failed_call_does_not_fail_batch Fixture.encodeAmount
           Fixture.decodeQuote Fixture.aggregator Fixture.maxGas
           "0xQuoter" [1; 2; 3] 1000000 None 100).
  - reflexivity.
  - reflexivity.
  - apply Forall_cons_2; [intros Hfail; discriminate Hfail|].
    apply Forall_cons_2; [intros Hfail; discriminate Hfail|].
    apply Forall_cons_2; [|apply Forall_nil_2].
    intros _. split; [eexists; reflexivity | reflexivity].
Defined.

(** The batch of the witness, run: two failed slots, one decoded. *)
Example multicall_batch_run :
  results <$> (callSameFunctionOnContractWithMultipleParams
                 Fixture.encodeAmount Fixture.decodeQuote
                 Fixture.aggregator Fixture.maxGas "0xQuoter"
                 [1; 2; 3] 1000000 None)
  = Ok [ResultFailure "0x08c379a0"; ResultFailure "0x"; ResultSuccess "2a"].
Proof. reflexivity. Qed.

(** A call that did not fail and whose data the decoder rejects: the
    decoder's error surfaces to the caller. *)
Example multicall_decoder_error_surfaces :
  callSameFunctionOnContractWithMultipleParams Fixture.encodeAmount
    Fixture.decodeQuote
    (fun _ _ =>
       Ok (100, [ {| success := true; returnData := "0x1";
                     gasUsed := 50000 |} ]))
    Fixture.maxGas "0xQuoter" [1] 1000000 None
  = Throw (External "data out-of-bounds").
Proof. reflexivity. Qed.

(** ** Pool selector: the ETH / quote-token slice *)

Lemma String_eqb_true (a b : string) : String.eqb a b = true -> a = b.
Proof. apply String.eqb_eq. Qed.

(** With [routeType = EXACT_INPUT], slice 2 holds at most two pools and
    each pairs the wrapped-native token with [tokenOut]. *)
Lemma top2EthQuoteTokenPool_exact_input wrappedNative tokenIn tokenOut
    subgraphPoolsSorted :
  let slice :=
    top2EthQuoteTokenPool wrappedNative tokenIn tokenOut EXACT_INPUT
      subgraphPoolsSorted in
  (length slice <= 2)%nat
  /\ forall subgraphPool, subgraphPool ∈ slice ->
       subgraphPool ∈ subgraphPoolsSorted
       /\ pairsWrappedNativeWith wrappedNative tokenOut subgraphPool.
Proof.
  unfold top2EthQuoteTokenPool. split.
  - rewrite length_take. lia.
  - intros sp Hsp. apply elem_of_take in Hsp as (i & Hsp & _).
    apply list_elem_of_lookup_2 in Hsp. apply list_elem_of_In in Hsp.
    apply filter_In in Hsp as [Hin Hsp].
    split; [by apply list_elem_of_In|].
    unfold isEthQuoteTokenPool, wethAddress, tokenOutAddress in Hsp.
    unfold pairsWrappedNativeWith.
    apply orb_true_iff in Hsp as [Hsp | Hsp];
      apply andb_true_iff in Hsp as [H1 H2];
      apply String_eqb_true in H1; apply String_eqb_true in H2; auto.
Qed.

(** [routeExactIn] obtains the slice for [tokenOut], its quote token. *)
Lemma routeExactIn_top2EthQuoteTokenPool_pairs_tokenOut wrappedNative
    tokenIn tokenOut subgraphPoolsSorted subgraphPool :
  subgraphPool ∈ routeExactIn_top2EthQuoteTokenPool wrappedNative tokenIn
                   tokenOut subgraphPoolsSorted ->
  pairsWrappedNativeWith wrappedNative tokenOut subgraphPool.
Proof.
  intros H.
  by apply (top2EthQuoteTokenPool_exact_input wrappedNative tokenIn tokenOut
              subgraphPoolsSorted).
Qed.

(** C5, where the code departs from it.  For the EXACT_OUT request
    A -> C over the pools WETH/A, WETH/C and A/C, [routeExactOut] obtains
    the slice [WETH/C]: the pool of the wrapped-native token with
    [tokenOut], not with [tokenIn], the quote token of the request; the
    pool WETH/A is left out of the slice.  The EXACT_OUTPUT branch of the
    filter, had it been taken, compares symbols with an address and
    selects nothing. *)
Theorem routeExactOut_top2EthQuoteTokenPool_pairs_tokenOut :
  routeExactOut_top2EthQuoteTokenPool Fixture.WETH Fixture.tokenA
    Fixture.tokenC [Fixture.wethA; Fixture.wethC; Fixture.directAC]
  = [Fixture.wethC]
  /\ ~ pairsWrappedNativeWith Fixture.WETH Fixture.tokenA Fixture.wethC
  /\ pairsWrappedNativeWith Fixture.WETH Fixture.tokenA Fixture.wethA
  /\ top2EthQuoteTokenPool Fixture.WETH Fixture.tokenA Fixture.tokenC
       EXACT_OUTPUT [Fixture.wethA; Fixture.wethC; Fixture.directAC]
     = [].
Proof.
  split; [reflexivity|]. split; [|split; [|reflexivity]].
  - intros [[H _] | [_ H]]; vm_compute in H; discriminate H.
  - right. split; reflexivity.
Qed.

(** ** Split optimiser *)

Lemma greaterThan_spec (a b : CurrencyAmount) :
  greaterThan a b = true <-> (b < a)%Q.
Proof. unfold greaterThan, Qlt. apply Z.ltb_lt. Qed.

Lemma lessThan_spec (a b : CurrencyAmount) :
  lessThan a b = true <-> (a < b)%Q.
Proof. unfold lessThan, Qlt. apply Z.ltb_lt. Qed.

Lemma atLeastAsGood_refl routeType a : atLeastAsGood routeType a a.
Proof. destruct routeType; simpl; apply Qle_refl. Qed.

(** A quote that passes [quoteCompFn] against the best so far is at least
    as good as whatever the best so far was at least as good as. *)
Lemma quoteCompFn_better routeType newQuote bestQuote baseline :
  quoteCompFn routeType newQuote bestQuote = true ->
  atLeastAsGood routeType bestQuote baseline ->
  atLeastAsGood routeType newQuote baseline.
Proof.
  destruct routeType; simpl; intros Hcmp Hbest.
  - apply greaterThan_spec in Hcmp.
    eapply Qle_trans; [exact Hbest | by apply Qlt_le_weak].
  - apply lessThan_spec in Hcmp.
    eapply Qle_trans; [by apply Qlt_le_weak | exact Hbest].
Qed.

Lemma sumZ_Permutation (l k : list Z) : l ≡ₚ k -> sumZ l = sumZ k.
Proof.
  unfold sumZ. induction 1; simpl; lia.
Qed.

Lemma sumQ_Permutation (l k : list Q) : l ≡ₚ k -> (sumQ l == sumQ k)%Q.
Proof.
  unfold sumQ. induction 1 as [|x l k _ IH|x y l|l k m _ IH1 _ IH2]; simpl.
  - reflexivity.
  - by rewrite IH.
  - rewrite !Qplus_assoc, (Qplus_comm y x). reflexivity.
  - by rewrite IH1.
Qed.

Lemma fold_left_Zadd (l : list Z) (a : Z) :
  fold_left Z.add l a = a + sumZ l.
Proof.
  revert a. induction l as [|x l IH]; intros a; simpl.
  - unfold sumZ. simpl. lia.
  - rewrite IH. unfold sumZ. simpl. lia.
Qed.

Lemma fold_left_Qplus (l : list Q) (a : Q) :
  (fold_left Qplus l a == a + sumQ l)%Q.
Proof.
  revert a. induction l as [|x l IH]; intros a; simpl.
  - unfold sumQ. simpl. by rewrite Qplus_0_r.
  - rewrite IH. unfold sumQ. simpl. by rewrite Qplus_assoc.
Qed.

(** The local [sum] is the rational sum of a non-empty array. *)
Lemma sum_sumQ (l : list CurrencyAmount) (s : CurrencyAmount) :
  sum l = Some s -> (s == sumQ l)%Q.
Proof.
  destruct l as [|first others]; simpl; [done|].
  intros [= <-]. rewrite fold_left_Qplus. reflexivity.
Qed.

Lemma pairwise_Permutation {A} (R : A -> A -> Prop) (l k : list A) :
  l ≡ₚ k -> pairwise R k -> pairwise R l.
Proof.
  intros Hperm Hk i j a b Hij Ha Hb.
  apply Permutation_inj in Hperm as (_ & f & Hinj & Hf).
  rewrite Hf in Ha, Hb.
  eapply Hk; [|exact Ha|exact Hb].
  intros Heq. by apply Hinj in Heq.
Qed.

Lemma pairwise_fmap {A B} (f : A -> B) (R : B -> B -> Prop) (l : list A) :
  pairwise (fun a b => R (f a) (f b)) l -> pairwise R (map f l).
Proof.
  intros Hl i j a b Hij Ha Hb.
  change (map f l) with (f <$> l) in *.
  rewrite list_lookup_fmap in Ha, Hb.
  destruct (l !! i) as [a'|] eqn:Ea; [|done].
  destruct (l !! j) as [b'|] eqn:Eb; [|done].
  simpl in *. simplify_eq. by eapply Hl.
Qed.

Lemma pairwise_singleton {A} (R : A -> A -> Prop) (a : A) : pairwise R [a].
Proof.
  intros [|i] [|j] x y Hij Hx Hy; simpl in *; done.
Qed.

Lemma pairwise_two {A} (R : A -> A -> Prop) (a b : A) :
  R a b -> R b a -> pairwise R [a; b].
Proof.
  intros Hab Hba [|[|i]] [|[|j]] x y Hij Hx Hy; simpl in *;
    simplify_eq; done.
Qed.

Lemma pairwise_three {A} (R : A -> A -> Prop) (a b c : A) :
  (forall x y, R x y -> R y x) ->
  R a b -> R a c -> R b c -> pairwise R [a; b; c].
Proof.
  intros Hsym Hab Hac Hbc [|[|[|i]]] [|[|[|j]]] x y Hij Hx Hy; simpl in *;
    simplify_eq; auto.
Qed.

Lemma poolDisjoint_sym getPoolAddress r1 r2 :
  poolDisjoint getPoolAddress r1 r2 -> poolDisjoint getPoolAddress r2 r1.
Proof. unfold poolDisjoint. intros H. by rewrite (comm_L (∩)). Qed.

Lemma forEachM_invariant {A S} (P : S -> Prop) (body : S -> A -> result S)
    (l : list A) (s s' : S) :
  (forall s x s', x ∈ l -> P s -> body s x = Ok s' -> P s') ->
  P s -> forEachM body l s = Ok s' -> P s'.
Proof.
  revert s. induction l as [|x l IH]; intros s Hbody Hs Hrun.
  - rewrite forEachM_nil in Hrun. by simplify_eq.
  - rewrite forEachM_cons in Hrun.
    destruct (body s x) as [s1|e] eqn:Ebody; [|done].
    rewrite bind_Ok in Hrun.
    eapply IH; [|by eapply Hbody; [left| |]|exact Hrun].
    intros s2 y s3 Hy. apply Hbody. by right.
Qed.

Lemma forEachM_total {A S} (P : S -> Prop) (body : S -> A -> result S)
    (l : list A) (s : S) :
  (forall s x, x ∈ l -> P s -> exists s', body s x = Ok s' /\ P s') ->
  P s -> exists s', forEachM body l s = Ok s' /\ P s'.
Proof.
  revert s. induction l as [|x l IH]; intros s Hbody Hs.
  - exists s. by rewrite forEachM_nil.
  - rewrite forEachM_cons.
    destruct (Hbody s x) as (s1 & Hs1 & HP1); [by left|done|].
    rewrite Hs1, bind_Ok. apply IH; [|done].
    intros s2 y Hy. apply Hbody. by right.
Qed.

Section SplitOptimiserFacts.
Variable sort : forall A : Type, (A -> A -> Z) -> list A -> list A.
Hypothesis sort_permutation :
  forall (A : Type) (compareFn : A -> A -> Z) (l : list A),
    sort A compareFn l ≡ₚ l.
Variable getPoolAddress : Pool.t -> string.
Variable estimateGasCost : RouteSOR.t -> Z -> GasCost.

(** *** Finding a pool-disjoint candidate *)

Lemma findFirstRouteNotUsingUsedPools_spec usedRoutes candidates found :
  findFirstRouteNotUsingUsedPools getPoolAddress usedRoutes candidates
  = Some found ->
  found ∈ candidates
  /\ forall used, used ∈ usedRoutes ->
       poolDisjoint getPoolAddress used (RouteWithValidQuote.route found).
Proof.
  unfold findFirstRouteNotUsingUsedPools. intros Hfind.
  apply find_some in Hfind as [Hin Hfree].
  split; [by apply list_elem_of_In|].
  intros used Hused. unfold poolDisjoint, poolAddresses.
  apply negb_true_iff in Hfree.
  apply set_eq. intros addr. rewrite elem_of_intersection.
  rewrite !elem_of_list_to_set. split; [|intros H; by apply elem_of_empty in H].
  intros [Hu Hf]. exfalso.
  apply list_elem_of_In, in_map_iff in Hf as (pool & <- & Hpool).
  assert (Hex : existsb
            (fun pool0 =>
               bool_decide
                 (getPoolAddress pool0
                  ∈ (list_to_set
                       (map getPoolAddress
                          (flat_map RouteSOR.pools usedRoutes))
                     : gset string)))
            (RouteSOR.pools (RouteWithValidQuote.route found)) = true).
  { apply existsb_exists. exists pool. split; [done|].
    apply bool_decide_eq_true. apply elem_of_list_to_set.
    apply list_elem_of_In, in_map_iff in Hu as (p & Hp & Hpin).
    apply list_elem_of_In, in_map_iff. exists p. split; [done|].
    apply in_flat_map. exists used. split; [by apply list_elem_of_In|done]. }
  rewrite Hex in Hfree. done.
Qed.

(** *** Buckets *)

Lemma pushQuote_keyed buckets percent rq :
  bucketsKeyed buckets ->
  RouteWithValidQuote.percent rq = percent ->
  bucketsKeyed (pushQuote buckets percent rq).
Proof.
  intros Hkeyed Hrq p bucket. unfold pushQuote.
  destruct (decide (percent = p)) as [->|Hne].
  - rewrite lookup_insert_eq. intros [= <-]. split.
    + by destruct (default [] (buckets !! p)).
    + intros rq' Hin. apply elem_of_app in Hin as [Hin|Hin].
      * destruct (buckets !! p) as [old|] eqn:Eold; simpl in Hin.
        -- by apply (Hkeyed p old).
        -- inversion Hin.
      * apply list_elem_of_singleton in Hin. by subst.
  - rewrite lookup_insert_ne by done. apply Hkeyed.
Qed.

Lemma bucketQuotes_keyed routeType route percents quotes buckets :
  bucketsKeyed buckets ->
  bucketsKeyed
    (bucketQuotes estimateGasCost routeType route percents quotes buckets).
Proof.
  revert percents buckets.
  induction quotes as [|amountQuote quotes IH];
    intros percents buckets Hkeyed; simpl; [done|].
  destruct percents as [|percent percents]; [done|].
  destruct (AmountQuote.quote amountQuote); [|by apply IH].
  destruct (AmountQuote.sqrtPriceX96AfterList amountQuote); [|by apply IH].
  destruct (AmountQuote.initializedTicksCrossedList amountQuote);
    [|by apply IH].
  destruct (AmountQuote.gasEstimate amountQuote); [|by apply IH].
  apply IH. by apply pushQuote_keyed.
Qed.

Lemma percentToQuotes_keyed percents routesWithQuotes routeType :
  bucketsKeyed
    (percentToQuotes estimateGasCost percents routesWithQuotes routeType).
Proof.
  unfold percentToQuotes.
  assert (Hempty : bucketsKeyed (∅ : gmap Z (list RouteWithValidQuote.t))).
  { intros p bucket H. by rewrite lookup_empty in H. }
  revert Hempty.
  generalize (∅ : gmap Z (list RouteWithValidQuote.t)).
  induction routesWithQuotes as [|[route quotes] rest IH];
    intros buckets Hkeyed; simpl; [done|].
  apply IH. by apply bucketQuotes_keyed.
Qed.

Lemma percentToSortedQuotes_lookup routeType buckets by_ percent :
  percentToSortedQuotes sort routeType buckets by_ !! percent
  = sort _ (compareQuotes routeType by_) <$> buckets !! percent.
Proof. unfold percentToSortedQuotes. apply lookup_fmap. Qed.

Lemma percentToSortedQuotes_keyed routeType buckets by_ :
  bucketsKeyed buckets ->
  bucketsKeyed (percentToSortedQuotes sort routeType buckets by_).
Proof.
  intros Hkeyed percent sorted. rewrite percentToSortedQuotes_lookup.
  destruct (buckets !! percent) as [bucket|] eqn:Ebucket; [|done].
  simpl. intros [= <-].
  destruct (Hkeyed percent bucket Ebucket) as [Hne Hall].
  pose proof (sort_permutation _ (compareQuotes routeType by_) bucket)
    as Hperm.
  split.
  - intros Hnil. rewrite Hnil in Hperm.
    apply Permutation_nil_l in Hperm. by subst.
  - intros rq Hin. apply Hall. by rewrite <- Hperm.
Qed.

(** Which buckets exist: those of the percents some route has a valid
    quote at. *)
Lemma pushQuote_present buckets percent rq p :
  is_Some (pushQuote buckets percent rq !! p)
  <-> is_Some (buckets !! p) \/ percent = p.
Proof.
  unfold pushQuote. destruct (decide (percent = p)) as [->|Hne].
  - rewrite lookup_insert_eq. split; [by right | by eauto].
  - rewrite lookup_insert_ne by done. split; [by left|].
    by intros [H|H].
Qed.

Lemma bucketQuotes_present routeType route percents quotes buckets p :
  is_Some (bucketQuotes estimateGasCost routeType route percents quotes
             buckets !! p)
  <-> is_Some (buckets !! p)
      \/ exists (i : nat) amountQuote,
           percents !! i = Some p
           /\ quotes !! i = Some amountQuote
           /\ isValidQuote amountQuote = true.
Proof.
  revert percents buckets.
  induction quotes as [|amountQuote quotes IH]; intros percents buckets.
  - simpl. split; [by left|]. by intros [H|(i & aq & _ & H & _)].
  - destruct percents as [|percent percents].
    + simpl. split; [by left|]. by intros [H|(i & aq & H & _)].
    + assert (Hskip :
        isValidQuote amountQuote = false ->
        is_Some (bucketQuotes estimateGasCost routeType route percents
                   quotes buckets !! p)
        <-> is_Some (buckets !! p)
            \/ exists (i : nat) amountQuote0,
                 (percent :: percents) !! i = Some p
                 /\ (amountQuote :: quotes) !! i = Some amountQuote0
                 /\ isValidQuote amountQuote0 = true).
      { intros Hinvalid. rewrite IH. split.
        - intros [H|(i & aq & Hp & Hq & Hv)]; [by left|].
          right. by exists (S i), aq.
        - intros [H|(i & aq & Hp & Hq & Hv)]; [by left|].
          destruct i as [|i]; simpl in *.
          + simplify_eq. congruence.
          + right. by exists i, aq. }
      simpl. unfold isValidQuote in Hskip.
      destruct (AmountQuote.quote amountQuote) as [quote|] eqn:E1;
        [|by apply Hskip].
      destruct (AmountQuote.sqrtPriceX96AfterList amountQuote) eqn:E2;
        [|by apply Hskip].
      destruct (AmountQuote.initializedTicksCrossedList amountQuote)
        eqn:E3; [|by apply Hskip].
      destruct (AmountQuote.gasEstimate amountQuote) as [gas|] eqn:E4;
        [|by apply Hskip].
      rewrite IH, pushQuote_present. split.
      * intros [[H|H]|(i & aq & Hp & Hq & Hv)].
        -- by left.
        -- right. exists 0%nat, amountQuote. subst.
           unfold isValidQuote. by rewrite E1, E2, E3, E4.
        -- right. by exists (S i), aq.
      * intros [H|(i & aq & Hp & Hq & Hv)]; [by left; left|].
        destruct i as [|i]; simpl in *.
        -- simplify_eq. by left; right.
        -- right. by exists i, aq.
Qed.

Lemma percentToQuotes_present percents routesWithQuotes routeType p :
  is_Some (percentToQuotes estimateGasCost percents routesWithQuotes
             routeType !! p)
  <-> hasValidQuoteAt percents routesWithQuotes p.
Proof.
  unfold percentToQuotes.
  assert (Hgen : forall buckets,
    is_Some (fold_left
               (fun acc (routeWithQuote : RouteWithQuotes) =>
                  bucketQuotes estimateGasCost routeType routeWithQuote.1
                    percents routeWithQuote.2 acc)
               routesWithQuotes buckets !! p)
    <-> is_Some (buckets !! p)
        \/ hasValidQuoteAt percents routesWithQuotes p).
  { induction routesWithQuotes as [|[route quotes] rest IH];
      intros buckets; simpl.
    - split; [by left|].
      intros [H|(r & q & i & aq & Hin & _)]; [done|inversion Hin].
    - rewrite IH, bucketQuotes_present. unfold hasValidQuoteAt. split.
      + intros [[H|(i & aq & Hp & Hq & Hv)]|(r & q & i & aq & Hin & H)].
        * by left.
        * right. exists route, quotes, i, aq. split; [by left|done].
        * right. exists r, q, i, aq. split; [by right|done].
      + intros [H|(r & q & i & aq & Hin & Hp & Hq & Hv)]; [by left; left|].
        apply elem_of_cons in Hin as [Heq|Hin].
        * simplify_eq. left. right. by exists i, aq.
        * right. by exists r, q, i, aq. }
  rewrite Hgen, lookup_empty. split; [|by right].
  intros [[x Hx]|H]; done.
Qed.

(** *** The search keeps its invariant *)

Section Search.
Variable routeType : TradeType.
Variable buckets : gmap Z (list RouteWithValidQuote.t).
Variable percents : list Z.
Variable by_ : RouteWithValidQuote.t -> CurrencyAmount.
Variable routingConfig : AlphaRouterConfig.
Hypothesis buckets_keyed : bucketsKeyed buckets.
Variable baseline : CurrencyAmount.

Local Abbreviation sorted :=
  (percentToSortedQuotes sort routeType buckets by_).
Local Abbreviation good :=
  (goodSwap getPoolAddress routeType by_ baseline).

Lemma sorted_member percent bucket rq :
  sorted !! percent = Some bucket -> rq ∈ bucket ->
  RouteWithValidQuote.percent rq = percent.
Proof.
  intros Hbucket Hin.
  by apply (percentToSortedQuotes_keyed routeType buckets by_
              buckets_keyed percent bucket).
Qed.

Lemma firstOfBucket_Ok percent rq :
  firstOfBucket sort routeType buckets by_ percent = Ok rq ->
  RouteWithValidQuote.percent rq = percent.
Proof.
  unfold firstOfBucket.
  destruct (sorted !! percent) as [[|first rest]|] eqn:Ebucket; try done.
  intros [= ->]. eapply sorted_member; [exact Ebucket | by left].
Qed.

Lemma firstOfBucket_present percent :
  is_Some (sorted !! percent) ->
  exists rq, firstOfBucket sort routeType buckets by_ percent = Ok rq.
Proof.
  intros [bucket Hbucket]. unfold firstOfBucket. rewrite Hbucket.
  destruct (percentToSortedQuotes_keyed routeType buckets by_
              buckets_keyed percent bucket Hbucket) as [Hne _].
  destruct bucket; [done | eauto].
Qed.

Lemma split2Body_good st percentA st' :
  good st ->
  split2Body sort getPoolAddress routeType buckets by_ st percentA
  = Ok st' ->
  good st'.
Proof.
  intros Hst. unfold split2Body.
  destruct (firstOfBucket sort routeType buckets by_ percentA)
    as [A|] eqn:EA; [|done].
  rewrite bind_Ok.
  destruct (sorted !! (100 - percentA)) as [candidatesB|] eqn:EB;
    [|by intros [= <-]].
  destruct (findFirstRouteNotUsingUsedPools getPoolAddress
              [RouteWithValidQuote.route A] candidatesB)
    as [B|] eqn:EfB; [|by intros [= <-]].
  destruct (quoteCompFn routeType (by_ A + by_ B)%Q st.1) eqn:Ecmp;
    [|by intros [= <-]].
  intros [= <-].
  apply findFirstRouteNotUsingUsedPools_spec in EfB as [HB HdAB].
  specialize (HdAB (RouteWithValidQuote.route A) ltac:(by left)).
  apply firstOfBucket_Ok in EA.
  pose proof (sorted_member _ _ _ EB HB) as EpB.
  split; simpl.
  - unfold sumZ. simpl. lia.
  - apply pairwise_two; [done | by apply poolDisjoint_sym].
  - done.
  - eapply quoteCompFn_better; [exact Ecmp | by destruct Hst].
Qed.

Lemma split3Body_good A remainingPercent st percentB st' :
  remainingPercent = 100 - RouteWithValidQuote.percent A ->
  good st ->
  split3Body sort getPoolAddress routeType buckets by_ A
    remainingPercent st percentB
  = Ok st' ->
  good st'.
Proof.
  intros Hrem Hst. unfold split3Body.
  destruct (sorted !! percentB) as [candidatesB|] eqn:EB; [|done].
  destruct (findFirstRouteNotUsingUsedPools getPoolAddress
              [RouteWithValidQuote.route A] candidatesB)
    as [B|] eqn:EfB; [|by intros [= <-]].
  destruct (sorted !! (remainingPercent - percentB))
    as [candidatesC|] eqn:EC; [|by intros [= <-]].
  destruct (findFirstRouteNotUsingUsedPools getPoolAddress
              [RouteWithValidQuote.route A; RouteWithValidQuote.route B]
              candidatesC)
    as [C|] eqn:EfC; [|by intros [= <-]].
  destruct (quoteCompFn routeType (by_ A + by_ B + by_ C)%Q st.1)
    eqn:Ecmp; [|by intros [= <-]].
  intros [= <-].
  apply findFirstRouteNotUsingUsedPools_spec in EfB as [HB HdAB].
  apply findFirstRouteNotUsingUsedPools_spec in EfC as [HC HdC].
  specialize (HdAB (RouteWithValidQuote.route A) ltac:(by left)).
  pose proof (HdC (RouteWithValidQuote.route A) ltac:(by left)) as HdAC.
  pose proof (HdC (RouteWithValidQuote.route B)
                ltac:(by right; left)) as HdBC.
  pose proof (sorted_member _ _ _ EB HB) as EpB.
  pose proof (sorted_member _ _ _ EC HC) as EpC.
  split; simpl.
  - unfold sumZ. simpl. lia.
  - apply pairwise_three; [|done..].
    intros x y. apply poolDisjoint_sym.
  - done.
  - eapply quoteCompFn_better; [exact Ecmp | by destruct Hst].
Qed.

Lemma split2_good st st' :
  good st ->
  split2 sort getPoolAddress routeType buckets percents by_ st = Ok st' ->
  good st'.
Proof.
  intros Hst. unfold split2. apply forEachM_invariant; [|done].
  intros s x s' _. apply split2Body_good.
Qed.

Lemma split3_good percentsFromI st st' :
  good st ->
  split3 sort getPoolAddress routeType buckets by_ percentsFromI st
  = Ok st' ->
  good st'.
Proof.
  revert st. induction percentsFromI as [|percentA rest IH];
    intros st Hst; simpl.
  - by intros [= <-].
  - destruct (firstOfBucket sort routeType buckets by_ percentA)
      as [A|] eqn:EA; [|done].
    rewrite bind_Ok.
    destruct (forEachM
                (split3Body sort getPoolAddress routeType buckets by_ A
                   (100 - percentA)) rest st) as [st1|] eqn:Einner;
      [|done].
    rewrite bind_Ok. apply IH.
    revert Einner. apply forEachM_invariant; [|done].
    intros s x s' _. apply split3Body_good.
    by rewrite (firstOfBucket_Ok _ _ EA).
Qed.

Lemma splitsBody_good splits st st' :
  good st ->
  splitsBody sort getPoolAddress routeType buckets percents by_ splits st
  = Ok st' ->
  good st'.
Proof.
  intros Hst. unfold splitsBody.
  match goal with
  | |- (?m ≫= _) = _ -> _ => destruct m as [st1|] eqn:E2; [|done]
  end.
  assert (Hst1 : good st1).
  { destruct (splits =? 2); [by eapply split2_good | by simplify_eq]. }
  rewrite bind_Ok.
  match goal with
  | |- (?m ≫= _) = _ -> _ => destruct m as [st2|] eqn:E3; [|done]
  end.
  assert (Hst2 : good st2).
  { destruct ((splits =? 3) && (length st1.2 =? 2)%nat);
      [by eapply split3_good | by simplify_eq]. }
  rewrite bind_Ok.
  destruct (splits =? 4); [done|]. by intros [= <-].
Qed.

Lemma splitsLoop_good n splits st st' :
  good st ->
  splitsLoop sort getPoolAddress routeType buckets percents by_ n
    splits st
  = Ok st' ->
  good st'.
Proof.
  revert splits st. induction n as [|n IH]; intros splits st Hst; simpl.
  - by intros [= <-].
  - destruct (splitsBody sort getPoolAddress routeType buckets percents
                by_ splits st) as [st1|] eqn:Ebody; [|done].
    rewrite bind_Ok. apply IH. by eapply splitsBody_good.
Qed.

(** *** When the search runs to its end *)

Hypothesis buckets_present :
  forall percent, percent ∈ percents -> is_Some (sorted !! percent).

Lemma split2Body_total st percentA :
  is_Some (sorted !! percentA) ->
  exists st',
    split2Body sort getPoolAddress routeType buckets by_ st percentA
    = Ok st'.
Proof.
  intros Hpresent.
  destruct (firstOfBucket_present _ Hpresent) as [A EA].
  unfold split2Body. rewrite EA, bind_Ok.
  destruct (sorted !! (100 - percentA)) as [candidatesB|]; [|eauto].
  destruct (findFirstRouteNotUsingUsedPools _ _ _) as [B|]; [|eauto].
  destruct (quoteCompFn _ _ _); eauto.
Qed.

Lemma split3Body_total A remainingPercent st percentB :
  is_Some (sorted !! percentB) ->
  exists st',
    split3Body sort getPoolAddress routeType buckets by_ A
      remainingPercent st percentB
    = Ok st'.
Proof.
  intros [candidatesB EB]. unfold split3Body. rewrite EB.
  destruct (findFirstRouteNotUsingUsedPools _ _ candidatesB) as [B|];
    [|eauto].
  destruct (sorted !! (remainingPercent - percentB)) as [candidatesC|];
    [|eauto].
  destruct (findFirstRouteNotUsingUsedPools _ _ candidatesC) as [C|];
    [|eauto].
  destruct (quoteCompFn _ _ _); eauto.
Qed.

Lemma split2_total st :
  exists st',
    split2 sort getPoolAddress routeType buckets percents by_ st = Ok st'.
Proof.
  unfold split2.
  destruct (forEachM_total (fun _ => True)
              (split2Body sort getPoolAddress routeType buckets by_)
              (take (Nat.div2 (S (length percents))) percents) st)
    as (st' & Hst' & _); [|done|by exists st'].
  intros s percentA Hin _.
  destruct (split2Body_total s percentA) as [s' Hs']; [|by exists s'].
  apply buckets_present. by eapply subseteq_take.
Qed.

Lemma split3_total percentsFromI st :
  (forall percent, percent ∈ percentsFromI -> percent ∈ percents) ->
  exists st',
    split3 sort getPoolAddress routeType buckets by_ percentsFromI st
    = Ok st'.
Proof.
  revert st. induction percentsFromI as [|percentA rest IH];
    intros st Hsub; simpl; [eauto|].
  destruct (firstOfBucket_present percentA) as [A EA].
  { apply buckets_present, Hsub. by left. }
  rewrite EA, bind_Ok.
  destruct (forEachM_total (fun _ => True)
              (split3Body sort getPoolAddress routeType buckets by_ A
                 (100 - percentA)) rest st)
    as (st1 & Hst1 & _); [|done|].
  { intros s percentB Hin _.
    destruct (split3Body_total A (100 - percentA) s percentB)
      as [s' Hs']; [|by exists s'].
    apply buckets_present, Hsub. by right. }
  rewrite Hst1, bind_Ok. apply IH.
  intros percent Hin. apply Hsub. by right.
Qed.

Lemma splitsBody_total splits st :
  splits <> 4 ->
  exists st',
    splitsBody sort getPoolAddress routeType buckets percents by_ splits
      st
    = Ok st'.
Proof.
  intros Hsplits. unfold splitsBody.
  destruct (Z.eqb_spec splits 4) as [|_]; [done|].
  assert (H3 : forall st1 : SearchState,
            exists st2,
              ((if (splits =? 3) && (length st1.2 =? 2)%nat
                then split3 sort getPoolAddress routeType buckets by_
                       percents st1
                else Ok st1) ≫= (fun st2 : SearchState => Ok st2))
              = Ok st2).
  { intros st1.
    destruct ((splits =? 3) && (length st1.2 =? 2)%nat); cbv iota.
    - destruct (split3_total percents st1) as [st2 ->]; [done|].
      rewrite bind_Ok. eauto.
    - rewrite bind_Ok. eauto. }
  destruct (splits =? 2); cbv iota.
  - destruct (split2_total st) as [st1 ->]. rewrite bind_Ok. apply H3.
  - rewrite bind_Ok. apply H3.
Qed.

Lemma splitsBody_four st :
  splitsBody sort getPoolAddress routeType buckets percents by_ 4 st
  = Throw (Error "Four splits is not supported").
Proof. reflexivity. Qed.

Lemma splitsLoop_total n splits st :
  splits + Z.of_nat n <= 4 ->
  exists st',
    splitsLoop sort getPoolAddress routeType buckets percents by_ n
      splits st
    = Ok st'.
Proof.
  revert splits st. induction n as [|n IH]; intros splits st Hle; simpl;
    [eauto|].
  destruct (splitsBody_total splits st) as [st1 Hst1]; [lia|].
  rewrite Hst1, bind_Ok. apply IH. lia.
Qed.

Lemma splitsLoop_S n splits st :
  splitsLoop sort getPoolAddress routeType buckets percents by_ (S n)
    splits st
  = (splitsBody sort getPoolAddress routeType buckets percents by_
       splits st
     ≫= splitsLoop sort getPoolAddress routeType buckets percents by_ n
          (splits + 1)).
Proof. reflexivity. Qed.

(** With [maxSplits >= 4] the loop reaches [splits == 4]. *)
Lemma splitsLoop_four n st :
  splitsLoop sort getPoolAddress routeType buckets percents by_
    (S (S (S n))) 2 st
  = Throw (Error "Four splits is not supported").
Proof.
  rewrite splitsLoop_S.
  destruct (splitsBody_total 2 st) as [st1 Hst1]; [lia|].
  rewrite Hst1, bind_Ok, splitsLoop_S.
  destruct (splitsBody_total 3 st1) as [st2 Hst2]; [lia|].
  change (2 + 1) with 3. rewrite Hst2, bind_Ok, splitsLoop_S.
  change (3 + 1) with 4. by rewrite splitsBody_four.
Qed.
End Search.

(** *** From the search to the plan *)

Lemma assemble_spec bestSwap plan :
  assemble sort bestSwap = Ok plan ->
  sum (map RouteWithValidQuote.quote bestSwap)
  = Some (SwapRoute.quote plan)
  /\ sum (map RouteWithValidQuote.quoteAdjustedForGas bestSwap)
     = Some (SwapRoute.quoteGasAdjusted plan)
  /\ SwapRoute.estimatedGasUsed plan
     = sumZ (map RouteWithValidQuote.gasEstimate bestSwap)
  /\ SwapRoute.routeAmounts plan ≡ₚ map toRouteAmount bestSwap.
Proof.
  unfold assemble.
  destruct (sum (map RouteWithValidQuote.quoteAdjustedForGas bestSwap))
    as [quoteGasAdjusted|]; [|done].
  destruct (sum (map RouteWithValidQuote.quote bestSwap)) as [quote|];
    [|done].
  intros [= <-]. simpl. split; [done|]. split; [done|]. split.
  - rewrite fold_left_Zadd. lia.
  - apply sort_permutation.
Qed.

Lemma assemble_total bestSwap :
  bestSwap <> [] -> exists plan, assemble sort bestSwap = Ok plan.
Proof.
  intros Hne. unfold assemble.
  destruct bestSwap as [|first others]; [done|]. simpl. eauto.
Qed.

Lemma initial_good routeType buckets by_ first others :
  bucketsKeyed buckets ->
  percentToSortedQuotes sort routeType buckets by_ !! 100
  = Some (first :: others) ->
  goodSwap getPoolAddress routeType by_ (by_ first) (by_ first, [first]).
Proof.
  intros Hkeyed E100.
  pose proof (percentToSortedQuotes_keyed routeType buckets by_ Hkeyed
                100 (first :: others) E100) as [_ Hfirst].
  split; simpl.
  - unfold sumZ. simpl. rewrite (Hfirst first) by by left. lia.
  - apply pairwise_singleton.
  - done.
  - apply atLeastAsGood_refl.
Qed.

Lemma goodSwap_nonempty routeType by_ baseline st :
  goodSwap getPoolAddress routeType by_ baseline st -> st.2 <> [].
Proof. intros [_ _ Hsum _] Hnil. by rewrite Hnil in Hsum. Qed.

Lemma sorted_present routeType buckets by_ percent :
  is_Some (percentToSortedQuotes sort routeType buckets by_ !! percent)
  <-> is_Some (buckets !! percent).
Proof. rewrite percentToSortedQuotes_lookup. apply fmap_is_Some. Qed.

(** [undefined] is returned exactly when there is no 100% bucket. *)
Lemma getBestSwapRouteBy_undefined routeType buckets percents by_
    routingConfig :
  bucketsKeyed buckets ->
  getBestSwapRouteBy sort getPoolAddress routeType buckets percents by_
    routingConfig = Ok None
  <-> buckets !! 100 = None.
Proof.
  intros Hkeyed. unfold getBestSwapRouteBy.
  rewrite percentToSortedQuotes_lookup.
  destruct (buckets !! 100) as [bucket|] eqn:E100; simpl; [|done].
  split; [|done].
  destruct (sort _ _ bucket) as [|first others]; [done|].
  match goal with
  | |- (?m ≫= _) = _ -> _ => destruct m as [[bestQuote bestSwap]|]; [|done]
  end.
  rewrite bind_Ok.
  by destruct (assemble sort bestSwap).
Qed.

(** With at most three splits and a bucket for every percent, a 100%
    bucket gives a plan. *)
Lemma getBestSwapRouteBy_total routeType buckets percents by_
    routingConfig :
  bucketsKeyed buckets ->
  is_Some (buckets !! 100) ->
  maxSplits routingConfig <= 3 ->
  (forall percent, percent ∈ percents -> is_Some (buckets !! percent)) ->
  exists plan,
    getBestSwapRouteBy sort getPoolAddress routeType buckets percents by_
      routingConfig = Ok (Some plan).
Proof.
  intros Hkeyed H100 Hsplits Hpresent.
  apply (sorted_present routeType buckets by_) in H100 as [bucket E100].
  destruct (percentToSortedQuotes_keyed routeType buckets by_ Hkeyed 100
              bucket E100) as [Hne _].
  destruct bucket as [|first others]; [done|].
  unfold getBestSwapRouteBy. rewrite E100.
  destruct (splitsLoop_total routeType buckets percents by_ Hkeyed
              (fun p Hp => proj2 (sorted_present routeType buckets by_ p)
                             (Hpresent p Hp))
              (Z.to_nat (maxSplits routingConfig - 1)) 2
              (by_ first, [first])) as [[bestQuote bestSwap] Hloop];
    [lia|].
  rewrite Hloop, bind_Ok.
  destruct (assemble_total bestSwap) as [plan Hplan].
  { eapply (goodSwap_nonempty routeType by_ (by_ first)
              (bestQuote, bestSwap)).
    eapply splitsLoop_good; [exact Hkeyed| |exact Hloop].
    by eapply initial_good. }
  rewrite Hplan, bind_Ok. eauto.
Qed.

(** With [maxSplits >= 4], a 100% bucket and a bucket for every percent,
    the fatal error is raised. *)
Lemma getBestSwapRouteBy_four_splits routeType buckets percents by_
    routingConfig :
  bucketsKeyed buckets ->
  is_Some (buckets !! 100) ->
  4 <= maxSplits routingConfig ->
  (forall percent, percent ∈ percents -> is_Some (buckets !! percent)) ->
  getBestSwapRouteBy sort getPoolAddress routeType buckets percents by_
    routingConfig = Throw (Error "Four splits is not supported").
Proof.
  intros Hkeyed H100 Hsplits Hpresent.
  apply (sorted_present routeType buckets by_) in H100 as [bucket E100].
  destruct (percentToSortedQuotes_keyed routeType buckets by_ Hkeyed 100
              bucket E100) as [Hne _].
  destruct bucket as [|first others]; [done|].
  unfold getBestSwapRouteBy. rewrite E100.
  destruct (Z.to_nat (maxSplits routingConfig - 1))
    as [|[|[|n]]] eqn:En; [lia..|].
  rewrite (splitsLoop_four routeType buckets percents by_ Hkeyed
             (fun p Hp => proj2 (sorted_present routeType buckets by_ p)
                            (Hpresent p Hp))).
  done.
Qed.

Lemma split2Body_missing routeType buckets by_ st percentA :
  buckets !! percentA = None ->
  split2Body sort getPoolAddress routeType buckets by_ st percentA
  = Throw TypeError.
Proof.
  intros HA. unfold split2Body, firstOfBucket.
  by rewrite (percentToSortedQuotes_lookup routeType buckets by_ percentA),
    HA.
Qed.

(** A percent of the first half of [percents] without a bucket: the
    2-split loop dereferences [undefined]. *)
Lemma getBestSwapRouteBy_missing_bucket routeType buckets percentA
    otherPercents by_ routingConfig :
  bucketsKeyed buckets ->
  is_Some (buckets !! 100) ->
  buckets !! percentA = None ->
  2 <= maxSplits routingConfig ->
  getBestSwapRouteBy sort getPoolAddress routeType buckets
    (percentA :: otherPercents) by_ routingConfig = Throw TypeError.
Proof.
  intros Hkeyed H100 HA Hsplits.
  apply (sorted_present routeType buckets by_) in H100 as [bucket E100].
  destruct (percentToSortedQuotes_keyed routeType buckets by_ Hkeyed 100
              bucket E100) as [Hne _].
  destruct bucket as [|first others]; [done|].
  unfold getBestSwapRouteBy. rewrite E100.
  destruct (Z.to_nat (maxSplits routingConfig - 1)) as [|n] eqn:En; [lia|].
  rewrite splitsLoop_S.
  assert (Hbody :
    splitsBody sort getPoolAddress routeType buckets
      (percentA :: otherPercents) by_ 2 (by_ first, [first])
    = Throw TypeError).
  { unfold splitsBody. change (2 =? 2) with true. cbv iota.
    unfold split2.
    change (take (Nat.div2 (S (length (percentA :: otherPercents))))
              (percentA :: otherPercents))
      with (percentA
            :: take (Nat.div2 (length otherPercents)) otherPercents).
    rewrite forEachM_cons, split2Body_missing by done. done. }
  by rewrite Hbody.
Qed.

(** A returned plan comes from a search state that satisfies the
    invariant, started at the head of the sorted 100% bucket. *)
Lemma getBestSwapRouteBy_plan routeType buckets percents by_ routingConfig
    plan :
  bucketsKeyed buckets ->
  getBestSwapRouteBy sort getPoolAddress routeType buckets percents by_
    routingConfig
  = Ok (Some plan) ->
  exists first others bestQuote bestSwap,
    percentToSortedQuotes sort routeType buckets by_ !! 100
    = Some (first :: others)
    /\ goodSwap getPoolAddress routeType by_ (by_ first)
         (bestQuote, bestSwap)
    /\ assemble sort bestSwap = Ok plan.
Proof.
  intros Hkeyed. unfold getBestSwapRouteBy.
  destruct (percentToSortedQuotes sort routeType buckets by_ !! 100)
    as [[|first others]|] eqn:E100; try done.
  match goal with
  | |- (?m ≫= _) = _ -> _ => destruct m as [[bestQuote bestSwap]|] eqn:Eloop;
                               [|done]
  end.
  rewrite bind_Ok.
  destruct (assemble sort bestSwap) as [plan'|] eqn:Eplan; [|done].
  rewrite bind_Ok. intros [= <-].
  exists first, others, bestQuote, bestSwap.
  split; [done|]. split; [|done].
  eapply splitsLoop_good; [exact Hkeyed| |exact Eloop].
  by eapply initial_good.
Qed.

Lemma getBestSwapRoute_unfold percents routesWithQuotes quoteToken
    routeType routingConfig :
  getBestSwapRoute sort getPoolAddress estimateGasCost percents
    routesWithQuotes quoteToken routeType routingConfig
  = getBestSwapRouteBy sort getPoolAddress routeType
      (percentToQuotes estimateGasCost percents routesWithQuotes routeType)
      percents RouteWithValidQuote.quoteAdjustedForGas routingConfig.
Proof.
  unfold getBestSwapRoute.
  by destruct (getBestSwapRouteBy _ _ _ _ _ _ _) as [[plan|]|e].
Qed.

(** C1.  In every plan the split optimiser returns, the pool-address
    sets of any two components have an empty intersection. *)
Theorem getBestSwapRoute_pool_disjoint percents routesWithQuotes
    quoteToken routeType routingConfig plan :
  getBestSwapRoute sort getPoolAddress estimateGasCost percents
    routesWithQuotes quoteToken routeType routingConfig
  = Ok (Some plan) ->
  forall (i j : nat) routeAmountA routeAmountB,
    i <> j ->
    SwapRoute.routeAmounts plan !! i = Some routeAmountA ->
    SwapRoute.routeAmounts plan !! j = Some routeAmountB ->
    poolAddresses getPoolAddress (RouteAmount.route routeAmountA)
    ∩ poolAddresses getPoolAddress (RouteAmount.route routeAmountB)
    = ∅.
Proof.
  rewrite getBestSwapRoute_unfold. intros Hplan.
  apply getBestSwapRouteBy_plan in Hplan
      as (first & others & bestQuote & bestSwap & _ & Hgood & Hplan);
    [|apply percentToQuotes_keyed].
  apply assemble_spec in Hplan as (_ & _ & _ & Hperm).
  destruct Hgood as [_ Hdisjoint _ _]. simpl in Hdisjoint.
  change (pairwise (fun a b =>
                      poolDisjoint getPoolAddress (RouteAmount.route a)
                        (RouteAmount.route b))
            (SwapRoute.routeAmounts plan)).
  eapply pairwise_Permutation; [exact Hperm|].
  by apply pairwise_fmap.
Qed.

(** The sums of a plan, for any buckets that file each quote under its own
    percent and any ranking function [by_]. *)
Lemma getBestSwapRouteBy_sums_of_keyed_buckets routeType buckets percents
    by_ routingConfig plan :
  bucketsKeyed buckets ->
  getBestSwapRouteBy sort getPoolAddress routeType buckets percents by_
    routingConfig
  = Ok (Some plan) ->
  sumZ (map RouteAmount.percentage (SwapRoute.routeAmounts plan)) = 100
  /\ (SwapRoute.quote plan
      == sumQ (map RouteAmount.quote (SwapRoute.routeAmounts plan)))%Q
  /\ (SwapRoute.quoteGasAdjusted plan
      == sumQ (map RouteAmount.quoteGasAdjusted
                 (SwapRoute.routeAmounts plan)))%Q
  /\ SwapRoute.estimatedGasUsed plan
     = sumZ (map RouteAmount.estimatedGasUsed
               (SwapRoute.routeAmounts plan)).
Proof.
  intros Hkeyed Hplan.
  apply getBestSwapRouteBy_plan in Hplan
      as (first & others & bestQuote & bestSwap & _ & Hgood & Hplan);
    [|done].
  apply assemble_spec in Hplan as (Hquote & Hadjusted & Hgas & Hperm).
  destruct Hgood as [Hpercent _ _ _]. simpl in Hpercent.
  split; [|split; [|split]].
  - rewrite (sumZ_Permutation _ _ (Permutation_map _ Hperm)).
    by rewrite map_map.
  - rewrite (sumQ_Permutation _ _ (Permutation_map _ Hperm)).
    rewrite map_map. by apply sum_sumQ.
  - rewrite (sumQ_Permutation _ _ (Permutation_map _ Hperm)).
    rewrite map_map. by apply sum_sumQ.
  - rewrite (sumZ_Permutation _ _ (Permutation_map _ Hperm)).
    by rewrite map_map.
Qed.

(** C2.  In every plan [getBestSwapRouteBy] returns, the percentages of
    the route amounts sum to 100, the plan's quote is the exact sum of
    the components' quotes, its [quoteGasAdjusted] the sum of their
    gas-adjusted quotes and its [estimatedGasUsed] the sum of their gas
    estimates. *)
Theorem getBestSwapRouteBy_plan_sums percents routesWithQuotes routeType
    routingConfig plan :
  getBestSwapRouteBy sort getPoolAddress routeType
    (percentToQuotes estimateGasCost percents routesWithQuotes routeType)
    percents RouteWithValidQuote.quoteAdjustedForGas routingConfig
  = Ok (Some plan) ->
  sumZ (map RouteAmount.percentage (SwapRoute.routeAmounts plan)) = 100
  /\ (SwapRoute.quote plan
      == sumQ (map RouteAmount.quote (SwapRoute.routeAmounts plan)))%Q
  /\ (SwapRoute.quoteGasAdjusted plan
      == sumQ (map RouteAmount.quoteGasAdjusted
                 (SwapRoute.routeAmounts plan)))%Q
  /\ SwapRoute.estimatedGasUsed plan
     = sumZ (map RouteAmount.estimatedGasUsed
               (SwapRoute.routeAmounts plan)).
Proof.
  intros Hplan.
  pose proof (percentToQuotes_keyed percents routesWithQuotes routeType)
    as Hkeyed.
  exact (getBestSwapRouteBy_sums_of_keyed_buckets routeType _ percents _
           routingConfig plan Hkeyed Hplan).
Qed.

(** C8.  A returned plan's gas-adjusted quote is at least as good, by
    the trade type's comparator, as the gas-adjusted quote of the
    baseline, the head of the sorted 100% bucket. *)
Theorem getBestSwapRoute_at_least_baseline percents routesWithQuotes
    quoteToken routeType routingConfig plan :
  getBestSwapRoute sort getPoolAddress estimateGasCost percents
    routesWithQuotes quoteToken routeType routingConfig
  = Ok (Some plan) ->
  exists baseline others,
    percentToSortedQuotes sort routeType
      (percentToQuotes estimateGasCost percents routesWithQuotes routeType)
      RouteWithValidQuote.quoteAdjustedForGas !! 100
    = Some (baseline :: others)
    /\ RouteWithValidQuote.percent baseline = 100
    /\ atLeastAsGood routeType (SwapRoute.quoteGasAdjusted plan)
         (RouteWithValidQuote.quoteAdjustedForGas baseline).
Proof.
  rewrite getBestSwapRoute_unfold. intros Hplan.
  apply getBestSwapRouteBy_plan in Hplan
      as (first & others & bestQuote & bestSwap & H100 & Hgood & Hplan);
    [|apply percentToQuotes_keyed].
  apply assemble_spec in Hplan as (_ & Hadjusted & _ & _).
  destruct Hgood as [_ _ Hquote Hbetter]. simpl in *.
  exists first, others. split; [done|]. split.
  - eapply sorted_member; [apply percentToQuotes_keyed|exact H100|by left].
  - rewrite Hquote in Hadjusted. by simplify_eq.
Qed.

(** C3, as the code has it.  The optimiser returns [null] exactly when no
    route has a valid quote at 100%, and that outcome is not an error.
    When some route has one, [maxSplits] is at most 3 and every percent
    of [percents] has a valid quote, a plan is returned; with
    [maxSplits >= 4] instead, the fatal error is raised. *)
Theorem getBestSwapRoute_null_iff_no_baseline percents routesWithQuotes
    quoteToken routeType routingConfig :
  (getBestSwapRoute sort getPoolAddress estimateGasCost percents
     routesWithQuotes quoteToken routeType routingConfig = Ok None
   <-> ~ hasValidQuoteAt percents routesWithQuotes 100)
  /\ (hasValidQuoteAt percents routesWithQuotes 100 ->
      maxSplits routingConfig <= 3 ->
      (forall percent, percent ∈ percents ->
         hasValidQuoteAt percents routesWithQuotes percent) ->
      exists plan,
        getBestSwapRoute sort getPoolAddress estimateGasCost percents
          routesWithQuotes quoteToken routeType routingConfig
        = Ok (Some plan))
  /\ (hasValidQuoteAt percents routesWithQuotes 100 ->
      4 <= maxSplits routingConfig ->
      (forall percent, percent ∈ percents ->
         hasValidQuoteAt percents routesWithQuotes percent) ->
      getBestSwapRoute sort getPoolAddress estimateGasCost percents
        routesWithQuotes quoteToken routeType routingConfig
      = Throw (Error "Four splits is not supported")).
Proof.
  rewrite getBestSwapRoute_unfold.
  pose proof (percentToQuotes_keyed percents routesWithQuotes routeType)
    as Hkeyed.
  pose proof (percentToQuotes_present percents routesWithQuotes routeType)
    as Hpresent.
  split; [|split].
  - rewrite getBestSwapRouteBy_undefined by done.
    rewrite eq_None_not_Some. by rewrite Hpresent.
  - intros H100 Hsplits Hall.
    apply getBestSwapRouteBy_total; [done| |done|].
    + by apply Hpresent.
    + intros percent Hin. by apply Hpresent, Hall.
  - intros H100 Hsplits Hall.
    apply getBestSwapRouteBy_four_splits; [done| |done|].
    + by apply Hpresent.
    + intros percent Hin. by apply Hpresent, Hall.
Qed.
End SplitOptimiserFacts.

(** *** The optimiser run on examples *)

Lemma Array_insert_permutation {A} (compareFn : A -> A -> Z) x l :
  Array_insert compareFn x l ≡ₚ x :: l.
Proof.
  induction l as [|y l IH]; simpl; [done|].
  destruct (compareFn x y <=? 0); [done|].
  rewrite IH. apply Permutation_swap.
Qed.

Lemma Array_sort_permutation (A : Type) (compareFn : A -> A -> Z) l :
  Array_sort A compareFn l ≡ₚ l.
Proof.
  induction l as [|x l IH]; simpl; [done|].
  by rewrite Array_insert_permutation, IH.
Qed.

(** [Array_sort] sorts, for a comparator that comes from a strict order. *)
Lemma Array_insert_noLaterBefore {A} (compareFn : A -> A -> Z) x l :
  (forall a b, compareFn a b <= 0 -> ~ compareFn b a < 0) ->
  (forall a b c, compareFn a b < 0 -> compareFn b c <= 0 ->
                 compareFn a c < 0) ->
  noLaterBefore compareFn l ->
  noLaterBefore compareFn (Array_insert compareFn x l).
Proof.
  intros Hasym Htrans. unfold noLaterBefore.
  induction l as [|y rest IH]; intros Hl; simpl.
  - constructor; constructor.
  - inversion Hl as [|? ? Hy Hrest]; subst.
    destruct (Z.leb_spec (compareFn x y) 0) as [Hle|Hgt].
    + constructor; [|done].
      constructor; [by apply Hasym|].
      apply List.Forall_forall. intros z Hz Hzx.
      rewrite List.Forall_forall in Hy. apply (Hy z Hz).
      by eapply Htrans.
    + constructor; [|by apply IH].
      apply List.Forall_forall. intros z Hz.
      apply list_elem_of_In in Hz.
      rewrite Array_insert_permutation in Hz.
      apply elem_of_cons in Hz as [->|Hz]; [lia|].
      rewrite List.Forall_forall in Hy. apply Hy. by apply list_elem_of_In.
Qed.

Lemma Array_sort_noLaterBefore {A} (compareFn : A -> A -> Z) l :
  (forall a b, compareFn a b <= 0 -> ~ compareFn b a < 0) ->
  (forall a b c, compareFn a b < 0 -> compareFn b c <= 0 ->
                 compareFn a c < 0) ->
  noLaterBefore compareFn (Array_sort A compareFn l).
Proof.
  intros Hasym Htrans. induction l as [|x l IH]; simpl.
  - constructor.
  - by apply Array_insert_noLaterBefore.
Qed.

Lemma compareQuotes_before routeType by_ a b :
  compareQuotes routeType by_ a b < 0
  <-> match routeType with
      | EXACT_INPUT => (by_ b < by_ a)%Q
      | EXACT_OUTPUT => (by_ a < by_ b)%Q
      end.
Proof.
  unfold compareQuotes. destruct routeType.
  - rewrite <- greaterThan_spec. destruct (greaterThan _ _); split; done.
  - rewrite <- lessThan_spec. destruct (lessThan _ _); split; done.
Qed.

Lemma compareQuotes_nonzero routeType by_ a b :
  compareQuotes routeType by_ a b <= 0 <-> compareQuotes routeType by_ a b < 0.
Proof.
  unfold compareQuotes.
  destruct routeType; [destruct (greaterThan _ _)|destruct (lessThan _ _)];
    lia.
Qed.

Lemma Array_sort_quotes routeType by_ l :
  noLaterBefore (compareQuotes routeType by_)
    (Array_sort _ (compareQuotes routeType by_) l).
Proof.
  apply Array_sort_noLaterBefore.
  - intros a b. rewrite compareQuotes_nonzero, !compareQuotes_before.
    destruct routeType; intros H1 H2; by eapply Qlt_irrefl, Qlt_trans.
  - intros a b c. rewrite compareQuotes_nonzero, !compareQuotes_before.
    destruct routeType; intros H1 H2; by eapply Qlt_trans.
Qed.

(** With a sort that sorts, the baseline is the best unsplit route: the
    plan is at least as good as every valid 100% quote. *)
Lemma getBestSwapRoute_at_least_every_unsplit_route
    (sort : forall A : Type, (A -> A -> Z) -> list A -> list A)
    getPoolAddress estimateGasCost percents routesWithQuotes quoteToken
    routeType routingConfig plan bucket rq :
  (forall A compareFn (l : list A), sort A compareFn l ≡ₚ l) ->
  (forall by_ l,
     noLaterBefore (compareQuotes routeType by_)
       (sort _ (compareQuotes routeType by_) l)) ->
  getBestSwapRoute sort getPoolAddress estimateGasCost percents
    routesWithQuotes quoteToken routeType routingConfig
  = Ok (Some plan) ->
  percentToQuotes estimateGasCost percents routesWithQuotes routeType !! 100
  = Some bucket ->
  rq ∈ bucket ->
  atLeastAsGood routeType (SwapRoute.quoteGasAdjusted plan)
    (RouteWithValidQuote.quoteAdjustedForGas rq).
Proof.
  intros Hperm Hsorted Hplan Hbucket Hrq.
  rewrite getBestSwapRoute_unfold in Hplan.
  apply getBestSwapRouteBy_plan in Hplan
      as (first & others & bestQuote & bestSwap & H100 & Hgood & Hplan);
    [|done|by apply percentToQuotes_keyed].
  apply assemble_spec in Hplan as (_ & Hadjusted & _ & _); [|done].
  destruct Hgood as [_ _ Hquote Hbetter]. simpl in *.
  rewrite Hquote in Hadjusted. simplify_eq.
  rewrite percentToSortedQuotes_lookup, Hbucket in H100. simpl in H100.
  injection H100 as H100.
  specialize (Hsorted RouteWithValidQuote.quoteAdjustedForGas bucket).
  rewrite H100 in Hsorted.
  assert (Hin : rq ∈ first :: others) by by rewrite <- H100, Hperm.
  assert (Hfirst :
    atLeastAsGood routeType (RouteWithValidQuote.quoteAdjustedForGas first)
      (RouteWithValidQuote.quoteAdjustedForGas rq)).
  { apply elem_of_cons in Hin as [->|Hin]; [apply atLeastAsGood_refl|].
    inversion Hsorted as [|? ? Hall _]; subst.
    rewrite List.Forall_forall in Hall.
    specialize (Hall rq ltac:(by apply list_elem_of_In)).
    rewrite compareQuotes_before in Hall.
    destruct routeType; simpl; by apply Qnot_lt_le. }
  destruct routeType; simpl in *; by eapply Qle_trans.
Qed.

(** The three-way split of the example: three pool-disjoint routes. *)
Lemma getBestSwapRoute_pool_disjoint_witness :
  exists plan,
    getBestSwapRoute Array_sort Fixture.poolAddress Fixture.gasModel
      [25; 50; 75; 100] Fixture.threeWay Fixture.tokenC EXACT_INPUT
      DEFAULT_CONFIG
    = Ok (Some plan)
    /\ length (SwapRoute.routeAmounts plan) = 3%nat
    /\ forall (i j : nat) routeAmountA routeAmountB,
         i <> j ->
         SwapRoute.routeAmounts plan !! i = Some routeAmountA ->
         SwapRoute.routeAmounts plan !! j = Some routeAmountB ->
         poolAddresses Fixture.poolAddress (RouteAmount.route routeAmountA)
         ∩ poolAddresses Fixture.poolAddress
             (RouteAmount.route routeAmountB)
         = ∅.
Proof.
  eexists. split; [vm_compute; reflexivity|]. split; [reflexivity|].
  apply (getBestSwapRoute_pool_disjoint Array_sort Array_sort_permutation
           Fixture.poolAddress Fixture.gasModel [25; 50; 75; 100]
           Fixture.threeWay Fixture.tokenC EXACT_INPUT DEFAULT_CONFIG).
  vm_compute. reflexivity.
Defined.

(** The three-way split of the example: 50 + 25 + 25. *)
Lemma getBestSwapRouteBy_plan_sums_witness :
  exists plan,
    getBestSwapRouteBy Array_sort Fixture.poolAddress EXACT_INPUT
      (percentToQuotes Fixture.gasModel [25; 50; 75; 100]
         Fixture.threeWay EXACT_INPUT)
      [25; 50; 75; 100] RouteWithValidQuote.quoteAdjustedForGas
      DEFAULT_CONFIG
    = Ok (Some plan)
    /\ map RouteAmount.percentage (SwapRoute.routeAmounts plan)
       = [50; 25; 25]
    /\ sumZ (map RouteAmount.percentage (SwapRoute.routeAmounts plan)) = 100
    /\ (SwapRoute.quote plan
        == sumQ (map RouteAmount.quote (SwapRoute.routeAmounts plan)))%Q
    /\ (SwapRoute.quoteGasAdjusted plan
        == sumQ (map RouteAmount.quoteGasAdjusted
                   (SwapRoute.routeAmounts plan)))%Q
    /\ SwapRoute.estimatedGasUsed plan
       = sumZ (map RouteAmount.estimatedGasUsed
                 (SwapRoute.routeAmounts plan)).
Proof.
  eexists. split; [vm_compute; reflexivity|]. split; [reflexivity|].
  apply (getBestSwapRouteBy_plan_sums Array_sort Array_sort_permutation
           Fixture.poolAddress Fixture.gasModel [25; 50; 75; 100]
           Fixture.threeWay EXACT_INPUT DEFAULT_CONFIG).
  vm_compute. reflexivity.
Defined.

(** The forced split of the example against its unsplit baseline. *)
Lemma getBestSwapRoute_at_least_baseline_witness :
  exists plan,
    getBestSwapRoute Array_sort Fixture.poolAddress Fixture.gasModel
      [50; 100] Fixture.forcedSplit Fixture.tokenC EXACT_INPUT
      DEFAULT_CONFIG
    = Ok (Some plan)
    /\ exists baseline others,
         percentToSortedQuotes Array_sort EXACT_INPUT
           (percentToQuotes Fixture.gasModel [50; 100]
              Fixture.forcedSplit EXACT_INPUT)
           RouteWithValidQuote.quoteAdjustedForGas !! 100
         = Some (baseline :: others)
         /\ RouteWithValidQuote.percent baseline = 100
         /\ atLeastAsGood EXACT_INPUT (SwapRoute.quoteGasAdjusted plan)
              (RouteWithValidQuote.quoteAdjustedForGas baseline).
Proof.
  eexists. split; [vm_compute; reflexivity|].
  apply (getBestSwapRoute_at_least_baseline Array_sort
           Array_sort_permutation Fixture.poolAddress Fixture.gasModel
           [50; 100] Fixture.forcedSplit Fixture.tokenC EXACT_INPUT
           DEFAULT_CONFIG).
  vm_compute. reflexivity.
Defined.

Lemma forcedSplit_valid_at (percent : Z) :
  percent ∈ [50; 100] ->
  hasValidQuoteAt [50; 100] Fixture.forcedSplit percent.
Proof.
  intros Hin. apply elem_of_cons in Hin as [->|Hin].
  - exists Fixture.routeAC,
      [Fixture.validQuote 50 60; Fixture.validQuote 100 90], 0%nat,
      (Fixture.validQuote 50 60).
    split; [by left|done].
  - apply list_elem_of_singleton in Hin as ->.
    exists Fixture.routeAC,
      [Fixture.validQuote 50 60; Fixture.validQuote 100 90], 1%nat,
      (Fixture.validQuote 100 90).
    split; [by left|done].
Qed.

(** The forced split of the example: every percent has a valid quote and
    [maxSplits = 3], so a plan is returned. *)
Lemma getBestSwapRoute_null_iff_no_baseline_witness :
  exists plan,
    getBestSwapRoute Array_sort Fixture.poolAddress Fixture.gasModel
      [50; 100] Fixture.forcedSplit Fixture.tokenC EXACT_INPUT
      DEFAULT_CONFIG
    = Ok (Some plan).
Proof.
  apply (getBestSwapRoute_null_iff_no_baseline Array_sort
           Array_sort_permutation Fixture.poolAddress Fixture.gasModel
           [50; 100] Fixture.forcedSplit Fixture.tokenC EXACT_INPUT
           DEFAULT_CONFIG).
  - apply forcedSplit_valid_at. by right; left.
  - simpl. lia.
  - apply forcedSplit_valid_at.
Defined.

(** C3, as stated, fails: with [maxSplits = 4] a valid 100% quote exists
    and no plan is returned, the fatal error is raised. *)
Lemma getBestSwapRoute_baseline_without_plan :
  hasValidQuoteAt [100] Fixture.unsplit 100
  /\ getBestSwapRoute Array_sort Fixture.poolAddress Fixture.gasModel
       [100] Fixture.unsplit Fixture.tokenC EXACT_INPUT
       Fixture.fourSplits
     = Throw (Error "Four splits is not supported")
  /\ ~ exists plan,
         getBestSwapRoute Array_sort Fixture.poolAddress Fixture.gasModel
           [100] Fixture.unsplit Fixture.tokenC EXACT_INPUT
           Fixture.fourSplits
         = Ok (Some plan).
Proof.
  assert (Hrun :
    getBestSwapRoute Array_sort Fixture.poolAddress Fixture.gasModel
      [100] Fixture.unsplit Fixture.tokenC EXACT_INPUT Fixture.fourSplits
    = Throw (Error "Four splits is not supported"))
    by (vm_compute; reflexivity).
  split; [|split; [exact Hrun|]].
  - exists Fixture.routeAC, [Fixture.validQuote 100 90], 0%nat,
      (Fixture.validQuote 100 90).
    split; [by left|done].
  - intros [plan Hplan]. rewrite Hrun in Hplan. discriminate Hplan.
Qed.

(** C4, where the code departs from it.  One route, its 50% quote failed
    and its 100% quote valid: the valid 100% quote exists, the bucket of
    50 does not, and the 2-split loop reads [percentToSortedQuotes[50][0]]:
    a [TypeError] instead of the plan made of the 100% quote. *)
Theorem getBestSwapRoute_missing_bucket_throws :
  hasValidQuoteAt [50; 100] Fixture.halfFailed 100
  /\ percentToQuotes Fixture.gasModel [50; 100] Fixture.halfFailed
       EXACT_INPUT !! 50 = None
  /\ getBestSwapRoute Array_sort Fixture.poolAddress Fixture.gasModel
       [50; 100] Fixture.halfFailed Fixture.tokenC EXACT_INPUT
       DEFAULT_CONFIG
     = Throw TypeError.
Proof.
  split; [|split; vm_compute; reflexivity].
  exists Fixture.routeAC,
    [Fixture.failedQuote 50; Fixture.validQuote 100 90], 1%nat,
    (Fixture.validQuote 100 90).
  split; [by left|done].
Qed.

(** The same input with [maxSplits = 1], where no split loop runs: the
    plan is the 100% quote. *)
Example getBestSwapRoute_missing_bucket_no_split :
  SwapRoute.quote <$>
    (getBestSwapRoute Array_sort Fixture.poolAddress Fixture.gasModel
       [50; 100] Fixture.halfFailed Fixture.tokenC EXACT_INPUT
       {| topN := 4; topNTokenInOut := 4; topNSecondHop := 2;
          maxSwapsPerPath := 3; maxSplits := 1; distributionPercent := 5;
          multicallChunkSize := 50 |}
     ≫= fun plan => match plan with
                    | Some plan => Ok plan
                    | None => Throw TypeError
                    end)
  = Ok (inject_Z 90).
Proof. vm_compute. reflexivity. Qed.

(** Forced split: the 50/50 plan over the direct pool and the two-hop
    route beats the unsplit route. *)
Example getBestSwapRoute_forced_split :
  (fun plan =>
     map (fun routeAmount =>
            (RouteAmount.percentage routeAmount,
             RouteAmount.route routeAmount))
       (SwapRoute.routeAmounts plan)) <$>
    (getBestSwapRoute Array_sort Fixture.poolAddress Fixture.gasModel
       [50; 100] Fixture.forcedSplit Fixture.tokenC EXACT_INPUT
       DEFAULT_CONFIG
     ≫= fun plan => match plan with
                    | Some plan => Ok plan
                    | None => Throw TypeError
                    end)
  = Ok [(50, Fixture.routeAC); (50, Fixture.routeABC)].
Proof. vm_compute. reflexivity. Qed.

(** The forced split again: the plan is at least as good as each of the
    two unsplit quotes. *)
Example getBestSwapRoute_forced_split_beats_unsplit :
  exists plan bucket,
    getBestSwapRoute Array_sort Fixture.poolAddress Fixture.gasModel
      [50; 100] Fixture.forcedSplit Fixture.tokenC EXACT_INPUT
      DEFAULT_CONFIG
    = Ok (Some plan)
    /\ percentToQuotes Fixture.gasModel [50; 100] Fixture.forcedSplit
         EXACT_INPUT !! 100 = Some bucket
    /\ length bucket = 2%nat
    /\ forall rq, rq ∈ bucket ->
         atLeastAsGood EXACT_INPUT (SwapRoute.quoteGasAdjusted plan)
           (RouteWithValidQuote.quoteAdjustedForGas rq).
Proof.
  eexists. eexists.
  split; [vm_compute; reflexivity|].
  split; [vm_compute; reflexivity|].
  split; [reflexivity|].
  intros rq Hrq.
  eapply (getBestSwapRoute_at_least_every_unsplit_route Array_sort
            Fixture.poolAddress Fixture.gasModel [50; 100]
            Fixture.forcedSplit Fixture.tokenC EXACT_INPUT DEFAULT_CONFIG).
  - apply Array_sort_permutation.
  - intros by_ l. apply Array_sort_quotes.
  - vm_compute. reflexivity.
  - vm_compute. reflexivity.
  - exact Hrq.
Qed.

(** * Further properties *)

(** ** Multicall provider: gas statistics and surfacing errors *)

Section UniswapMulticallProviderMore.
Context {TFunctionParams TReturn Number : Type}.
Variable encodeFunctionData : TFunctionParams -> string.
Variable decodeFunctionResult : string -> result TReturn.
Variable multicall :
  list Call -> option Z -> result (Z * list AggregateResult).
Variable percentile : list Z -> Z -> Number.

(** The gas array the loop builds: the gas of the calls that did not
    fail, in order. *)
Lemma processResult_loop_gas aggregateResults results gasUsedForSuccess :
  Forall (decodable decodeFunctionResult) aggregateResults ->
  exists slots,
    forEachM (processResult decodeFunctionResult) aggregateResults
      (results, gasUsedForSuccess)
    = Ok (results ++ slots,
          gasUsedForSuccess
          ++ map gasUsed
               (List.filter (fun r => negb (failedCall r)) aggregateResults)).
Proof.
  revert results gasUsedForSuccess.
  induction aggregateResults as [|r rest IH]; intros results gasAcc Hall.
  - exists []. simpl. by rewrite !app_nil_r.
  - apply Forall_cons in Hall as [Hr Hrest].
    rewrite forEachM_cons. unfold decodable in Hr. cbn [List.filter].
    destruct (failedCall r) eqn:Efail; cbn [negb map].
    + rewrite processResult_failed, bind_Ok by done.
      destruct (IH (results ++ [ResultFailure (returnData r)]) gasAcc Hrest)
        as (slots & Hloop).
      exists (ResultFailure (returnData r) :: slots).
      by rewrite Hloop, <- !app_assoc.
    + destruct Hr as [[decoded Hdecoded] Hgas]; [done|].
      rewrite (processResult_decoded _ _ _ _ decoded), bind_Ok by done.
      destruct (IH (results ++ [ResultSuccess decoded])
                  (gasAcc ++ [gasUsed r]) Hrest) as (slots & Hloop).
      exists (ResultSuccess decoded :: slots).
      by rewrite Hloop, <- !app_assoc.
Qed.

(** X1.  The gas statistic of a batch is taken over the gas used by
    exactly the calls that did not fail, in submission order: a failed
    call's gas does not enter it. *)
Theorem multicall_gas_of_successful_calls
    (address : string) (functionParams : list TFunctionParams)
    (gasLimitPerCall : Z) (blockNumberOverride : option Z)
    (blockNumber : Z) (aggregateResults : list AggregateResult) :
  multicall
    (map (fun functionParam =>
            {| target := address;
               callData := encodeFunctionData functionParam;
               gasLimit := gasLimitPerCall |}) functionParams)
    blockNumberOverride
  = Ok (blockNumber, aggregateResults) ->
  Forall (decodable decodeFunctionResult) aggregateResults ->
  exists outcome,
    callSameFunctionOnContractWithMultipleParams encodeFunctionData
      decodeFunctionResult multicall percentile address functionParams
      gasLimitPerCall blockNumberOverride
    = Ok outcome
    /\ approxGasUsedPerSuccessCall outcome
       = percentile
           (map gasUsed
              (List.filter (fun r => negb (failedCall r)) aggregateResults))
           99.
Proof.
  intros Hcall Hall.
  destruct (processResult_loop_gas aggregateResults [] [] Hall)
    as (slots & Hloop).
  unfold callSameFunctionOnContractWithMultipleParams.
  rewrite Hcall. simpl. rewrite Hloop. simpl.
  eexists. split; done.
Qed.

(** The loop stops at the first call it cannot use. *)
Lemma processResult_loop_unusable aggregateResults st :
  Exists (unusableCall decodeFunctionResult) aggregateResults ->
  exists e,
    forEachM (processResult decodeFunctionResult) aggregateResults st
    = Throw e.
Proof.
  revert st. induction aggregateResults as [|r rest IH]; intros st Hex.
  - inversion Hex.
  - rewrite forEachM_cons.
    destruct (processResult decodeFunctionResult st r) as [st'|e] eqn:Estep.
    + rewrite bind_Ok. apply IH.
      apply Exists_cons in Hex as [Hbad|Hex]; [|done].
      exfalso. destruct Hbad as [Hfail Hbad]. destruct st as [results gas].
      unfold processResult in Estep.
      change (negb (success r) || (String.length (returnData r) <=? 2)%nat)
        with (failedCall r) in Estep.
      rewrite Hfail in Estep. unfold toNumber in Estep.
      destruct (Z.ltb_spec (Z.abs (gasUsed r)) (2 ^ 53)) as [Hlt|Hge].
      * destruct Hbad as [Hbad|[e He]]; [lia|].
        rewrite bind_Ok, He in Estep. done.
      * done.
    + by exists e.
Qed.

(** X2.  A call that did not fail but cannot be used (its gas is not a
    safe number, or the decoder rejects its data) fails the whole batch:
    no partial results are returned. *)
Theorem multicall_unusable_call_fails_batch
    (address : string) (functionParams : list TFunctionParams)
    (gasLimitPerCall : Z) (blockNumberOverride : option Z)
    (blockNumber : Z) (aggregateResults : list AggregateResult) :
  multicall
    (map (fun functionParam =>
            {| target := address;
               callData := encodeFunctionData functionParam;
               gasLimit := gasLimitPerCall |}) functionParams)
    blockNumberOverride
  = Ok (blockNumber, aggregateResults) ->
  Exists (unusableCall decodeFunctionResult) aggregateResults ->
  exists e,
    callSameFunctionOnContractWithMultipleParams encodeFunctionData
      decodeFunctionResult multicall percentile address functionParams
      gasLimitPerCall blockNumberOverride
    = Throw e.
Proof.
  intros Hcall Hex.
  destruct (processResult_loop_unusable aggregateResults ([], []) Hex)
    as [e He].
  unfold callSameFunctionOnContractWithMultipleParams.
  rewrite Hcall. simpl. rewrite He. by exists e.
Qed.
End UniswapMulticallProviderMore.

(** The batch of three quote calls: the statistic is over the one call
    that succeeded. *)
Lemma multicall_gas_of_successful_calls_witness :
  exists outcome,
    callSameFunctionOnContractWithMultipleParams Fixture.encodeAmount
      Fixture.decodeQuote Fixture.aggregator Fixture.maxGas "0xQuoter"
      [1; 2; 3] 1000000 None
    = Ok outcome
    /\ approxGasUsedPerSuccessCall outcome
       = Fixture.maxGas
           (map gasUsed
              (List.filter (fun r => negb (failedCall r))
                 [ {| success := false; returnData := "0x08c379a0";
                      gasUsed := 21000 |};
                   {| success := true; returnData := "0x";
                      gasUsed := 30000 |};
                   {| success := true; returnData := "0x2a";
                      gasUsed := 90000 |} ]))
           99.
Proof.
  apply (multicall_gas_of_successful_calls Fixture.encodeAmount
           Fixture.decodeQuote Fixture.aggregator Fixture.maxGas
           "0xQuoter" [1; 2; 3] 1000000 None 100).
  - reflexivity.
  - apply Forall_cons_2; [intros Hfail; discriminate Hfail|].
    apply Forall_cons_2; [intros Hfail; discriminate Hfail|].
    apply Forall_cons_2; [|apply Forall_nil_2].
    intros _. split; [eexists; reflexivity | reflexivity].
Defined.

(** A batch whose second call returns one byte too few for the decoder. *)
Lemma multicall_unusable_call_fails_batch_witness :
  exists e,
    callSameFunctionOnContractWithMultipleParams Fixture.encodeAmount
      Fixture.decodeQuote
      (fun _ _ =>
         Ok (100, [ {| success := true; returnData := "0x2a";
                       gasUsed := 90000 |};
                    {| success := true; returnData := "0x1";
                       gasUsed := 50000 |} ]))
      Fixture.maxGas "0xQuoter" [1; 2] 1000000 None
    = Throw e.
Proof.
  apply (multicall_unusable_call_fails_batch Fixture.encodeAmount
           Fixture.decodeQuote
           (fun _ _ =>
              Ok (100, [ {| success := true; returnData := "0x2a";
                            gasUsed := 90000 |};
                         {| success := true; returnData := "0x1";
                            gasUsed := 50000 |} ]))
           Fixture.maxGas "0xQuoter" [1; 2] 1000000 None 100
           [ {| success := true; returnData := "0x2a"; gasUsed := 90000 |};
             {| success := true; returnData := "0x1"; gasUsed := 50000 |} ]).
  - reflexivity.
  - apply Exists_cons_tl, Exists_cons_hd.
    split; [reflexivity|]. right. eexists. reflexivity.
Defined.

(** ** Multicall provider: one function on several contracts *)

Section CallSameFunctionOnMultipleContractsFacts.
Context {TFunctionParams TReturn : Type}.
Variable encodeFunctionData : TFunctionParams -> string.
Variable decodeFunctionResult : string -> result TReturn.
Variable multicall :
  list Call -> option Z -> result (Z * list AggregateResult).
Variable gasLimitPerCall : Z.

Lemma processContractResult_failed results r :
  failedCall r = true ->
  processContractResult decodeFunctionResult results r
  = Ok (results ++ [ResultFailure (returnData r)]).
Proof. unfold processContractResult, failedCall. by intros ->. Qed.

Lemma processContractResult_decoded results r decoded :
  failedCall r = false ->
  decodeFunctionResult (returnData r) = Ok decoded ->
  processContractResult decodeFunctionResult results r
  = Ok (results ++ [ResultSuccess decoded]).
Proof. unfold processContractResult, failedCall. by intros -> ->. Qed.

Lemma processContractResult_loop aggregateResults results :
  (forall r, r ∈ aggregateResults -> failedCall r = false ->
     exists decoded, decodeFunctionResult (returnData r) = Ok decoded) ->
  exists slots,
    forEachM (processContractResult decodeFunctionResult) aggregateResults
      results
    = Ok (results ++ slots)
    /\ Forall2 (slotOf decodeFunctionResult) aggregateResults slots.
Proof.
  revert results.
  induction aggregateResults as [|r rest IH]; intros results Hall.
  - exists []. rewrite forEachM_nil, app_nil_r. split; [done|constructor].
  - rewrite forEachM_cons.
    destruct (failedCall r) eqn:Efail.
    + rewrite processContractResult_failed, bind_Ok by done.
      destruct (IH (results ++ [ResultFailure (returnData r)]))
        as (slots & Hloop & Hslots).
      { intros r' Hin. apply Hall. by right. }
      exists (ResultFailure (returnData r) :: slots).
      rewrite Hloop, <- app_assoc. split; [done|].
      constructor; [|done]. unfold slotOf. by rewrite Efail.
    + destruct (Hall r) as [decoded Hdecoded]; [by left|done|].
      rewrite (processContractResult_decoded _ _ decoded), bind_Ok by done.
      destruct (IH (results ++ [ResultSuccess decoded]))
        as (slots & Hloop & Hslots).
      { intros r' Hin. apply Hall. by right. }
      exists (ResultSuccess decoded :: slots).
      rewrite Hloop, <- app_assoc. split; [done|].
      constructor; [|done]. unfold slotOf. rewrite Efail. eauto.
Qed.

(** X3.  One function called on several contracts: whatever calls
    failed, the batch is answered with one slot per address, in order, a
    failed call's slot being the failure with its return data and every
    other slot the decoded result.  The gas used by the calls plays no
    part. *)
Theorem multipleContracts_failed_call_does_not_fail_batch
    (addresses : list string) (functionParams : TFunctionParams)
    (blockNumber : Z) (aggregateResults : list AggregateResult) :
  multicall
    (map (fun address =>
            {| target := address;
               callData := encodeFunctionData functionParams;
               gasLimit := gasLimitPerCall |}) addresses)
    None
  = Ok (blockNumber, aggregateResults) ->
  length aggregateResults = length addresses ->
  (forall r, r ∈ aggregateResults -> failedCall r = false ->
     exists decoded, decodeFunctionResult (returnData r) = Ok decoded) ->
  exists results,
    callSameFunctionOnMultipleContracts encodeFunctionData
      decodeFunctionResult multicall gasLimitPerCall addresses
      functionParams
    = Ok (blockNumber, results)
    /\ length results = length addresses
    /\ forall (i : nat) address,
         addresses !! i = Some address ->
         exists r slot,
           aggregateResults !! i = Some r
           /\ results !! i = Some slot
           /\ slotOf decodeFunctionResult r slot.
Proof.
  intros Hcall Hlen Hall.
  destruct (processContractResult_loop aggregateResults [] Hall)
    as (slots & Hloop & Hslots).
  unfold callSameFunctionOnMultipleContracts.
  rewrite Hcall. simpl. rewrite Hloop. simpl.
  exists slots. split; [done|].
  pose proof (Forall2_length _ _ _ Hslots) as Hlen'.
  split; [lia|].
  intros i address Hi. apply lookup_lt_Some in Hi.
  destruct (lookup_lt_is_Some_2 aggregateResults i) as [r Hr]; [lia|].
  destruct (Forall2_lookup_l _ _ _ _ _ Hslots Hr) as (slot & Hslot & Hok).
  by exists r, slot.
Qed.
End CallSameFunctionOnMultipleContractsFacts.

(** Three pool contracts, the second one not deployed; the gas reported
    is far beyond the safe range and is not looked at. *)
Lemma multipleContracts_failed_call_does_not_fail_batch_witness :
  exists results,
    callSameFunctionOnMultipleContracts FixtureCalls.encodeNoParams
      Fixture.decodeQuote FixtureCalls.poolAggregator 1000000
      ["0xPool1"; "0xPool2"; "0xPool3"] tt
    = Ok (200, results)
    /\ length results = length ["0xPool1"; "0xPool2"; "0xPool3"]
    /\ forall (i : nat) address,
         ["0xPool1"; "0xPool2"; "0xPool3"] !! i = Some address ->
         exists r slot,
           [ {| success := true; returnData := "0x07"; gasUsed := 2 ^ 60 |};
             {| success := true; returnData := "0x"; gasUsed := 2 ^ 60 |};
             {| success := true; returnData := "0x07"; gasUsed := 2 ^ 60 |} ]
             !! i = Some r
           /\ results !! i = Some slot
           /\ slotOf Fixture.decodeQuote r slot.
Proof.
  apply (multipleContracts_failed_call_does_not_fail_batch
           FixtureCalls.encodeNoParams Fixture.decodeQuote
           FixtureCalls.poolAggregator 1000000
           ["0xPool1"; "0xPool2"; "0xPool3"] tt 200).
  - reflexivity.
  - reflexivity.
  - intros r Hin Hfail.
    apply elem_of_cons in Hin as [->|Hin]; [eexists; reflexivity|].
    apply elem_of_cons in Hin as [->|Hin]; [discriminate Hfail|].
    apply list_elem_of_singleton in Hin as ->. eexists. reflexivity.
Defined.

(** ** Split optimiser: the first pool-disjoint candidate *)

Lemma notUsingUsedPools_spec getPoolAddress usedRoutes rq :
  existsb
    (fun pool =>
       bool_decide
         (getPoolAddress pool
          ∈ (list_to_set
               (map getPoolAddress (flat_map RouteSOR.pools usedRoutes))
             : gset string)))
    (RouteSOR.pools (RouteWithValidQuote.route rq)) = true
  <-> sharesPool getPoolAddress usedRoutes rq.
Proof.
  rewrite existsb_exists. unfold sharesPool. split.
  - intros (q & Hq & Hin).
    apply bool_decide_eq_true, elem_of_list_to_set in Hin.
    apply list_elem_of_In, in_map_iff in Hin as (p & Hpq & Hp).
    apply in_flat_map in Hp as (used & Hused & Hp).
    exists used, p, q. by rewrite <- !list_elem_of_In in *.
  - intros (used & p & q & Hused & Hp & Hq & Hpq).
    exists q. split; [by apply list_elem_of_In|].
    apply bool_decide_eq_true, elem_of_list_to_set.
    apply list_elem_of_In, in_map_iff. exists p. split; [done|].
    apply in_flat_map. exists used. by rewrite <- !list_elem_of_In.
Qed.

(** X4.  [findFirstRouteNotUsingUsedPools] returns the first candidate, in
    the order of the list, that shares no pool address with the used
    routes: every candidate before it shares one; it returns [null] exactly
    when every candidate shares one. *)
Theorem findFirstRouteNotUsingUsedPools_first getPoolAddress usedRoutes
    candidates :
  match findFirstRouteNotUsingUsedPools getPoolAddress usedRoutes
          candidates with
  | Some found =>
      exists before after,
        candidates = before ++ found :: after
        /\ Forall (sharesPool getPoolAddress usedRoutes) before
        /\ ~ sharesPool getPoolAddress usedRoutes found
  | None => Forall (sharesPool getPoolAddress usedRoutes) candidates
  end.
Proof.
  unfold findFirstRouteNotUsingUsedPools.
  induction candidates as [|rq rest IH]; simpl; [constructor|].
  destruct (existsb _ (RouteSOR.pools (RouteWithValidQuote.route rq)))
    eqn:Eshares; simpl.
  - apply notUsingUsedPools_spec in Eshares.
    destruct (List.find _ rest) as [found|].
    + destruct IH as (before & after & -> & Hbefore & Hfound).
      exists (rq :: before), after. split; [done|].
      split; [by constructor|done].
    + by constructor.
  - exists [], rest. split; [done|]. split; [constructor|].
    intros Hshares. apply notUsingUsedPools_spec in Hshares.
    by rewrite Hshares in Eshares.
Qed.

(** ** Split optimiser: what the search steps do *)

Section SplitOptimiserMore.
Variable sort : forall A : Type, (A -> A -> Z) -> list A -> list A.
Hypothesis sort_permutation :
  forall (A : Type) (compareFn : A -> A -> Z) (l : list A),
    sort A compareFn l ≡ₚ l.
Variable getPoolAddress : Pool.t -> string.
Variable estimateGasCost : RouteSOR.t -> Z -> GasCost.

Section Steps.
Variable routeType : TradeType.
Variable buckets : gmap Z (list RouteWithValidQuote.t).
Variable percents : list Z.
Variable by_ : RouteWithValidQuote.t -> CurrencyAmount.

Local Abbreviation sortedBuckets :=
  (percentToSortedQuotes sort routeType buckets by_).

Lemma firstOfBucket_member percent rq :
  firstOfBucket sort routeType buckets by_ percent = Ok rq ->
  exists bucket, sortedBuckets !! percent = Some bucket /\ rq ∈ bucket.
Proof.
  unfold firstOfBucket.
  destruct (sortedBuckets !! percent) as [[|first rest]|]; try done.
  intros [= ->]. eexists. split; [done | by left].
Qed.

(** A step of the 2-split loop leaves the state as it is or replaces it
    by a pair that passed [quoteCompFn]. *)
Lemma split2Body_cases st percentA st' :
  split2Body sort getPoolAddress routeType buckets by_ st percentA = Ok st'
  ->
  st' = st
  \/ exists A B candidatesB,
       firstOfBucket sort routeType buckets by_ percentA = Ok A
       /\ sortedBuckets !! (100 - percentA) = Some candidatesB
       /\ B ∈ candidatesB
       /\ quoteCompFn routeType (by_ A + by_ B)%Q st.1 = true
       /\ st' = ((by_ A + by_ B)%Q, [A; B]).
Proof.
  unfold split2Body.
  destruct (firstOfBucket sort routeType buckets by_ percentA)
    as [A|] eqn:EA; [|done].
  rewrite bind_Ok.
  destruct (sortedBuckets !! (100 - percentA)) as [candidatesB|] eqn:EB;
    [|intros [= <-]; by left].
  destruct (findFirstRouteNotUsingUsedPools getPoolAddress
              [RouteWithValidQuote.route A] candidatesB)
    as [B|] eqn:EfB; [|intros [= <-]; by left].
  destruct (quoteCompFn routeType (by_ A + by_ B)%Q st.1) eqn:Ecmp;
    [|intros [= <-]; by left].
  intros [= <-]. right. exists A, B, candidatesB.
  apply find_some in EfB as [HB _]. apply list_elem_of_In in HB. done.
Qed.

Lemma split3Body_cases A remainingPercent st percentB st' :
  split3Body sort getPoolAddress routeType buckets by_ A remainingPercent
    st percentB = Ok st'
  ->
  st' = st
  \/ exists B C candidatesB candidatesC,
       sortedBuckets !! percentB = Some candidatesB
       /\ B ∈ candidatesB
       /\ sortedBuckets !! (remainingPercent - percentB)
          = Some candidatesC
       /\ C ∈ candidatesC
       /\ quoteCompFn routeType (by_ A + by_ B + by_ C)%Q st.1 = true
       /\ st' = ((by_ A + by_ B + by_ C)%Q, [A; B; C]).
Proof.
  unfold split3Body.
  destruct (sortedBuckets !! percentB) as [candidatesB|] eqn:EB; [|done].
  destruct (findFirstRouteNotUsingUsedPools getPoolAddress
              [RouteWithValidQuote.route A] candidatesB)
    as [B|] eqn:EfB; [|intros [= <-]; by left].
  destruct (sortedBuckets !! (remainingPercent - percentB))
    as [candidatesC|] eqn:EC; [|intros [= <-]; by left].
  destruct (findFirstRouteNotUsingUsedPools getPoolAddress
              [RouteWithValidQuote.route A; RouteWithValidQuote.route B]
              candidatesC)
    as [C|] eqn:EfC; [|intros [= <-]; by left].
  destruct (quoteCompFn routeType (by_ A + by_ B + by_ C)%Q st.1)
    eqn:Ecmp; [|intros [= <-]; by left].
  intros [= <-]. right. exists B, C, candidatesB, candidatesC.
  apply find_some in EfB as [HB _]. apply list_elem_of_In in HB.
  apply find_some in EfC as [HC _]. apply list_elem_of_In in HC. done.
Qed.

(** An invariant of the search: kept by the steps that replace the state
    by a pair or a triple, it holds when the loops end. *)
Section Invariant.
Variable P : CurrencyAmount * list RouteWithValidQuote.t -> Prop.
Hypothesis P_pair :
  forall st percentA A B candidatesB,
    P st ->
    firstOfBucket sort routeType buckets by_ percentA = Ok A ->
    sortedBuckets !! (100 - percentA) = Some candidatesB ->
    B ∈ candidatesB ->
    quoteCompFn routeType (by_ A + by_ B)%Q st.1 = true ->
    P ((by_ A + by_ B)%Q, [A; B]).
Hypothesis P_triple :
  forall st percentA A percentB B C candidatesB candidatesC,
    P st ->
    firstOfBucket sort routeType buckets by_ percentA = Ok A ->
    sortedBuckets !! percentB = Some candidatesB ->
    B ∈ candidatesB ->
    sortedBuckets !! (100 - percentA - percentB) = Some candidatesC ->
    C ∈ candidatesC ->
    quoteCompFn routeType (by_ A + by_ B + by_ C)%Q st.1 = true ->
    P ((by_ A + by_ B + by_ C)%Q, [A; B; C]).

Lemma split2_invariant st st' :
  P st ->
  split2 sort getPoolAddress routeType buckets percents by_ st = Ok st' ->
  P st'.
Proof.
  intros Hst. unfold split2. apply forEachM_invariant; [|done].
  intros s percentA s' _ Hs Hstep.
  apply split2Body_cases in Hstep
      as [->|(A & B & cB & HA & HcB & HB & Hcmp & ->)]; [done|].
  by apply (P_pair s percentA A B cB).
Qed.

Lemma split3_invariant percentsFromI st st' :
  P st ->
  split3 sort getPoolAddress routeType buckets by_ percentsFromI st
  = Ok st' ->
  P st'.
Proof.
  revert st. induction percentsFromI as [|percentA rest IH];
    intros st Hst; simpl.
  - by intros [= <-].
  - destruct (firstOfBucket sort routeType buckets by_ percentA)
      as [A|] eqn:EA; [|done].
    rewrite bind_Ok.
    destruct (forEachM
                (split3Body sort getPoolAddress routeType buckets by_ A
                   (100 - percentA)) rest st) as [st1|] eqn:Einner;
      [|done].
    rewrite bind_Ok. apply IH.
    revert Einner. apply forEachM_invariant; [|done].
    intros s percentB s' _ Hs Hstep.
    apply split3Body_cases in Hstep
        as [->|(B & C & cB & cC & HcB & HB & HcC & HC & Hcmp & ->)];
      [done|].
    by apply (P_triple s percentA A percentB B C cB cC).
Qed.

Lemma splitsBody_invariant splits st st' :
  P st ->
  splitsBody sort getPoolAddress routeType buckets percents by_ splits st
  = Ok st' ->
  P st'.
Proof.
  intros Hst. unfold splitsBody.
  match goal with
  | |- (?m ≫= _) = _ -> _ => destruct m as [st1|] eqn:E2; [|done]
  end.
  assert (Hst1 : P st1).
  { destruct (splits =? 2); [by eapply split2_invariant | by simplify_eq]. }
  rewrite bind_Ok.
  match goal with
  | |- (?m ≫= _) = _ -> _ => destruct m as [st2|] eqn:E3; [|done]
  end.
  assert (Hst2 : P st2).
  { destruct ((splits =? 3) && (length st1.2 =? 2)%nat);
      [by eapply split3_invariant | by simplify_eq]. }
  rewrite bind_Ok.
  destruct (splits =? 4); [done|]. by intros [= <-].
Qed.

Lemma splitsLoop_invariant n splits st st' :
  P st ->
  splitsLoop sort getPoolAddress routeType buckets percents by_ n splits st
  = Ok st' ->
  P st'.
Proof.
  revert splits st. induction n as [|n IH]; intros splits st Hst; simpl.
  - by intros [= <-].
  - destruct (splitsBody sort getPoolAddress routeType buckets percents
                by_ splits st) as [st1|] eqn:Ebody; [|done].
    rewrite bind_Ok. apply IH. by eapply splitsBody_invariant.
Qed.
End Invariant.

(** With [splits == 2] the body of the [while] loop is the 2-split loop. *)
Lemma splitsBody_two st st' :
  splitsBody sort getPoolAddress routeType buckets percents by_ 2 st
  = Ok st' ->
  split2 sort getPoolAddress routeType buckets percents by_ st = Ok st'.
Proof.
  unfold splitsBody. change (2 =? 2) with true. cbv iota.
  destruct (split2 sort getPoolAddress routeType buckets percents by_ st)
    as [st1|]; [|done].
  rewrite bind_Ok. change (2 =? 3) with false. simpl. done.
Qed.
End Steps.

Lemma getBestSwapRouteBy_search routeType buckets percents by_
    routingConfig plan :
  getBestSwapRouteBy sort getPoolAddress routeType buckets percents by_
    routingConfig
  = Ok (Some plan) ->
  exists first others bestQuote bestSwap,
    percentToSortedQuotes sort routeType buckets by_ !! 100
    = Some (first :: others)
    /\ splitsLoop sort getPoolAddress routeType buckets percents by_
         (Z.to_nat (maxSplits routingConfig - 1)) 2 (by_ first, [first])
       = Ok (bestQuote, bestSwap)
    /\ assemble sort bestSwap = Ok plan.
Proof.
  unfold getBestSwapRouteBy.
  destruct (percentToSortedQuotes sort routeType buckets by_ !! 100)
    as [[|first others]|] eqn:E100; try done.
  match goal with
  | |- (?m ≫= _) = _ -> _ =>
      destruct m as [[bestQuote bestSwap]|] eqn:Eloop; [|done]
  end.
  rewrite bind_Ok.
  destruct (assemble sort bestSwap) as [plan'|] eqn:Eplan; [|done].
  rewrite bind_Ok. intros [= <-].
  by exists first, others, bestQuote, bestSwap.
Qed.

Lemma quoteCompFn_strictlyBetter routeType a b :
  quoteCompFn routeType a b = true -> strictlyBetter routeType a b.
Proof.
  destruct routeType; simpl; intros Hcmp.
  - by apply greaterThan_spec.
  - by apply lessThan_spec.
Qed.

Lemma strictlyBetter_trans routeType a b c :
  strictlyBetter routeType a b -> strictlyBetter routeType b c ->
  strictlyBetter routeType a c.
Proof.
  destruct routeType; simpl; intros Hab Hbc.
  - by eapply Qlt_trans.
  - by eapply Qlt_trans.
Qed.

(** ** Bucketing: where the bucketed quotes come from *)

Lemma pushQuote_built routeType percents routesWithQuotes buckets percent
    rq :
  allBuilt estimateGasCost routeType percents routesWithQuotes buckets ->
  builtFromQuote estimateGasCost routeType percents routesWithQuotes rq ->
  allBuilt estimateGasCost routeType percents routesWithQuotes
    (pushQuote buckets percent rq).
Proof.
  intros Hall Hrq p bucket rq'. unfold pushQuote.
  destruct (decide (percent = p)) as [->|Hne].
  - rewrite lookup_insert_eq. intros [= <-] Hin.
    apply elem_of_app in Hin as [Hin|Hin].
    + destruct (buckets !! p) as [old|] eqn:Eold; simpl in Hin.
      * by apply (Hall p old).
      * inversion Hin.
    + apply list_elem_of_singleton in Hin. by subst.
  - rewrite lookup_insert_ne by done. apply Hall.
Qed.

Lemma bucketQuotes_built routeType percents routesWithQuotes route
    allQuotes :
  (route, allQuotes) ∈ routesWithQuotes ->
  forall quotes percentsLeft buckets,
    (forall (j : nat) amountQuote percent,
        quotes !! j = Some amountQuote ->
        percentsLeft !! j = Some percent ->
        exists i : nat,
          percents !! i = Some percent
          /\ allQuotes !! i = Some amountQuote) ->
    allBuilt estimateGasCost routeType percents routesWithQuotes buckets ->
    allBuilt estimateGasCost routeType percents routesWithQuotes
      (bucketQuotes estimateGasCost routeType route percentsLeft quotes
         buckets).
Proof.
  intros Hroute.
  induction quotes as [|amountQuote quotes IH];
    intros percentsLeft buckets Haligned Hall; simpl; [done|].
  destruct percentsLeft as [|percent percentsLeft]; [done|].
  assert (Hrest : forall (j : nat) aq pc,
             quotes !! j = Some aq -> percentsLeft !! j = Some pc ->
             exists i : nat,
               percents !! i = Some pc /\ allQuotes !! i = Some aq).
  { intros j aq pc Hq Hp. by apply (Haligned (S j)). }
  destruct (Haligned 0%nat amountQuote percent eq_refl eq_refl)
    as (i & Hi & Hqi).
  destruct (AmountQuote.quote amountQuote) as [quote|] eqn:Equote;
    [|by apply IH].
  destruct (AmountQuote.sqrtPriceX96AfterList amountQuote) eqn:Esqrt;
    [|by apply IH].
  destruct (AmountQuote.initializedTicksCrossedList amountQuote) eqn:Eticks;
    [|by apply IH].
  destruct (AmountQuote.gasEstimate amountQuote) as [gasEstimate|] eqn:Egas;
    [|by apply IH].
  apply IH; [done|]. apply pushQuote_built; [done|].
  exists route, allQuotes, i, amountQuote, quote, gasEstimate.
  repeat split; try done.
  unfold isValidQuote. by rewrite Equote, Esqrt, Eticks, Egas.
Qed.

Lemma percentToQuotes_built routeType percents routesWithQuotes :
  allBuilt estimateGasCost routeType percents routesWithQuotes
    (percentToQuotes estimateGasCost percents routesWithQuotes routeType).
Proof.
  unfold percentToQuotes.
  assert (Hgen : forall todo buckets,
    (forall x, x ∈ todo -> x ∈ routesWithQuotes) ->
    allBuilt estimateGasCost routeType percents routesWithQuotes buckets ->
    allBuilt estimateGasCost routeType percents routesWithQuotes
      (fold_left
         (fun acc (routeWithQuote : RouteWithQuotes) =>
            bucketQuotes estimateGasCost routeType routeWithQuote.1
              percents routeWithQuote.2 acc)
         todo buckets)).
  { induction todo as [|[route quotes] todo IH]; intros buckets Hsub Hall;
      simpl; [done|].
    apply IH; [intros x Hx; apply Hsub; by right|].
    apply (bucketQuotes_built routeType percents routesWithQuotes route
             quotes); [apply Hsub; by left| |done].
    intros j aq pc Hq Hp. by exists j. }
  apply Hgen; [done|]. intros percent bucket rq Hlookup.
  by rewrite lookup_empty in Hlookup.
Qed.

Lemma percentToSortedQuotes_built routeType percents routesWithQuotes by_
    percent bucket rq :
  percentToSortedQuotes sort routeType
    (percentToQuotes estimateGasCost percents routesWithQuotes routeType)
    by_ !! percent = Some bucket ->
  rq ∈ bucket ->
  builtFromQuote estimateGasCost routeType percents routesWithQuotes rq.
Proof.
  rewrite percentToSortedQuotes_lookup.
  destruct (percentToQuotes estimateGasCost percents routesWithQuotes
              routeType !! percent) as [unsorted|] eqn:Ebucket; [|done].
  simpl. intros [= <-] Hin.
  apply (percentToQuotes_built routeType percents routesWithQuotes percent
           unsorted rq Ebucket).
  by rewrite <- (sort_permutation _ (compareQuotes routeType by_) unsorted).
Qed.

(** X5.  A plan of the split optimiser has one, two or three components,
    and never more than [maxSplits] of them when [maxSplits] is at
    least one. *)
Theorem getBestSwapRoute_component_count percents routesWithQuotes
    quoteToken routeType routingConfig plan :
  getBestSwapRoute sort getPoolAddress estimateGasCost percents
    routesWithQuotes quoteToken routeType routingConfig
  = Ok (Some plan) ->
  (1 <= length (SwapRoute.routeAmounts plan) <= 3)%nat
  /\ Z.of_nat (length (SwapRoute.routeAmounts plan))
     <= Z.max 1 (maxSplits routingConfig).
Proof.
  rewrite getBestSwapRoute_unfold. intros Hrun.
  apply getBestSwapRouteBy_search in Hrun
      as (first & others & bestQuote & bestSwap & E100 & Hloop & Hplan).
  apply assemble_spec in Hplan as (_ & _ & _ & Hperm); [|done].
  rewrite Hperm, length_map.
  set (buckets := percentToQuotes estimateGasCost percents routesWithQuotes
                    routeType) in *.
  set (by_ := RouteWithValidQuote.quoteAdjustedForGas) in *.
  assert (Hthree : (1 <= length bestSwap <= 3)%nat).
  { change bestSwap with (bestQuote, bestSwap).2.
    revert Hloop.
    apply (splitsLoop_invariant routeType buckets percents by_
             (fun st => (1 <= length st.2 <= 3)%nat)); simpl; lia. }
  split; [done|].
  destruct (Z.to_nat (maxSplits routingConfig - 1)) as [|[|n]] eqn:En.
  - simpl in Hloop. injection Hloop as <- <-. simpl. lia.
  - rewrite splitsLoop_S in Hloop.
    destruct (splitsBody sort getPoolAddress routeType buckets percents
                by_ 2 (by_ first, [first])) as [st1|] eqn:Ebody; [|done].
    rewrite bind_Ok in Hloop. simpl in Hloop. injection Hloop as ->.
    apply splitsBody_two in Ebody.
    assert (Htwo : (length (bestQuote, bestSwap).2 <= 2)%nat).
    { revert Ebody.
      apply (split2_invariant routeType buckets percents by_
               (fun st => (length st.2 <= 2)%nat)); simpl; lia. }
    simpl in Htwo. lia.
  - lia.
Qed.

(** X6.  The optimiser splits only for a strict gain: the plan is the
    first route of the sorted 100% bucket alone, or it has at least two
    components and its gas-adjusted quote is strictly better than that
    route's. *)
Theorem getBestSwapRoute_unsplit_or_strictly_better percents
    routesWithQuotes quoteToken routeType routingConfig plan :
  getBestSwapRoute sort getPoolAddress estimateGasCost percents
    routesWithQuotes quoteToken routeType routingConfig
  = Ok (Some plan) ->
  exists baseline others,
    percentToSortedQuotes sort routeType
      (percentToQuotes estimateGasCost percents routesWithQuotes routeType)
      RouteWithValidQuote.quoteAdjustedForGas !! 100
    = Some (baseline :: others)
    /\ (SwapRoute.routeAmounts plan = [toRouteAmount baseline]
        \/ ((2 <= length (SwapRoute.routeAmounts plan))%nat
            /\ strictlyBetter routeType (SwapRoute.quoteGasAdjusted plan)
                 (RouteWithValidQuote.quoteAdjustedForGas baseline))).
Proof.
  rewrite getBestSwapRoute_unfold. intros Hrun.
  apply getBestSwapRouteBy_search in Hrun
      as (first & others & bestQuote & bestSwap & E100 & Hloop & Hplan).
  exists first, others. split; [done|].
  apply assemble_spec in Hplan as (_ & Hsum & _ & Hperm); [|done].
  set (buckets := percentToQuotes estimateGasCost percents routesWithQuotes
                    routeType) in *.
  set (by_ := RouteWithValidQuote.quoteAdjustedForGas) in *.
  assert (Hinv :
    sum (map by_ (bestQuote, bestSwap).2) = Some (bestQuote, bestSwap).1
    /\ ((bestQuote, bestSwap) = (by_ first, [first])
        \/ ((2 <= length (bestQuote, bestSwap).2)%nat
            /\ strictlyBetter routeType (bestQuote, bestSwap).1
                 (by_ first)))).
  { revert Hloop.
    apply (splitsLoop_invariant routeType buckets percents by_
             (fun st =>
                sum (map by_ st.2) = Some st.1
                /\ (st = (by_ first, [first])
                    \/ ((2 <= length st.2)%nat
                        /\ strictlyBetter routeType st.1 (by_ first))))).
    - intros st percentA A B cB [_ Hst] _ _ _ Hcmp. split; [done|].
      right. split; [simpl; lia|].
      apply quoteCompFn_strictlyBetter in Hcmp.
      destruct Hst as [->|[_ Hst]]; [done|].
      by eapply strictlyBetter_trans.
    - intros st percentA A percentB B C cB cC [_ Hst] _ _ _ _ _ Hcmp.
      split; [done|]. right. split; [simpl; lia|].
      apply quoteCompFn_strictlyBetter in Hcmp.
      destruct Hst as [->|[_ Hst]]; [done|].
      by eapply strictlyBetter_trans.
    - split; [done | by left]. }
  simpl in Hinv. destruct Hinv as [Hquote [Hinit|[Hlen Hbetter]]].
  - injection Hinit as -> ->. left.
    by apply Permutation_singleton_r in Hperm.
  - right. rewrite Hperm, length_map. split; [done|].
    rewrite Hsum in Hquote. by injection Hquote as ->.
Qed.

(** X7.  Every component of a plan is one of the valid quotes handed to
    the optimiser: the quote of some route at the index its percent has
    in [percents], none of its four optional fields absent. *)
Theorem getBestSwapRoute_components_from_valid_quotes percents
    routesWithQuotes quoteToken routeType routingConfig plan routeAmount :
  getBestSwapRoute sort getPoolAddress estimateGasCost percents
    routesWithQuotes quoteToken routeType routingConfig
  = Ok (Some plan) ->
  routeAmount ∈ SwapRoute.routeAmounts plan ->
  exists rq,
    builtFromQuote estimateGasCost routeType percents routesWithQuotes rq
    /\ routeAmount = toRouteAmount rq.
Proof.
  rewrite getBestSwapRoute_unfold. intros Hrun Hin.
  apply getBestSwapRouteBy_search in Hrun
      as (first & others & bestQuote & bestSwap & E100 & Hloop & Hplan).
  apply assemble_spec in Hplan as (_ & _ & _ & Hperm); [|done].
  rewrite Hperm in Hin. apply list_elem_of_fmap in Hin as (rq & -> & Hrq).
  exists rq. split; [|done].
  set (buckets := percentToQuotes estimateGasCost percents routesWithQuotes
                    routeType) in *.
  set (by_ := RouteWithValidQuote.quoteAdjustedForGas) in *.
  assert (Hinv : forall rq', rq' ∈ (bestQuote, bestSwap).2 ->
            exists percent bucket,
              percentToSortedQuotes sort routeType buckets by_ !! percent
              = Some bucket /\ rq' ∈ bucket).
  { revert Hloop.
    apply (splitsLoop_invariant routeType buckets percents by_
             (fun st => forall rq', rq' ∈ st.2 ->
                exists percent bucket,
                  percentToSortedQuotes sort routeType buckets by_
                    !! percent = Some bucket /\ rq' ∈ bucket)).
    - intros st percentA A B cB _ HA HcB HB _ rq'. simpl.
      apply firstOfBucket_member in HA as (cA & HcA & HA).
      rewrite !elem_of_cons. intros [->|[->|Hnil]]; eauto.
      inversion Hnil.
    - intros st percentA A percentB B C cB cC _ HA HcB HB HcC HC _ rq'.
      simpl. apply firstOfBucket_member in HA as (cA & HcA & HA).
      rewrite !elem_of_cons. intros [->|[->|[->|Hnil]]]; eauto.
      inversion Hnil.
    - intros rq'. simpl. intros Hfirst.
      apply list_elem_of_singleton in Hfirst as ->.
      exists 100, (first :: others). split; [done | by left]. }
  destruct (Hinv rq Hrq) as (percent & bucket & Hbucket & Hmember).
  by eapply percentToSortedQuotes_built.
Qed.

(** X8.  With [maxSplits] at most one the optimiser does not split and
    does not throw, whatever buckets are missing: it returns null when no
    route has a valid quote for 100%, and otherwise the first route of
    the sorted 100% bucket alone. *)
Theorem getBestSwapRoute_without_splitting percents routesWithQuotes
    quoteToken routeType routingConfig :
  maxSplits routingConfig <= 1 ->
  match percentToSortedQuotes sort routeType
          (percentToQuotes estimateGasCost percents routesWithQuotes
             routeType)
          RouteWithValidQuote.quoteAdjustedForGas !! 100 with
  | Some (baseline :: _) =>
      exists plan,
        getBestSwapRoute sort getPoolAddress estimateGasCost percents
          routesWithQuotes quoteToken routeType routingConfig
        = Ok (Some plan)
        /\ SwapRoute.routeAmounts plan = [toRouteAmount baseline]
        /\ SwapRoute.quote plan = RouteWithValidQuote.quote baseline
        /\ SwapRoute.quoteGasAdjusted plan
           = RouteWithValidQuote.quoteAdjustedForGas baseline
  | Some [] => False
  | None =>
      getBestSwapRoute sort getPoolAddress estimateGasCost percents
        routesWithQuotes quoteToken routeType routingConfig
      = Ok None
      /\ ~ hasValidQuoteAt percents routesWithQuotes 100
  end.
Proof.
  intros Hsplits. rewrite getBestSwapRoute_unfold.
  set (buckets := percentToQuotes estimateGasCost percents routesWithQuotes
                    routeType).
  set (by_ := RouteWithValidQuote.quoteAdjustedForGas).
  pose proof (percentToQuotes_keyed estimateGasCost percents
                routesWithQuotes routeType) as Hkeyed.
  fold buckets in Hkeyed.
  destruct (percentToSortedQuotes sort routeType buckets by_ !! 100)
    as [[|baseline others]|] eqn:E100.
  - by destruct (percentToSortedQuotes_keyed sort sort_permutation
                   routeType buckets by_ Hkeyed 100 [] E100) as [Hne _].
  - unfold getBestSwapRouteBy. rewrite E100.
    replace (Z.to_nat (maxSplits routingConfig - 1)) with 0%nat by lia.
    simpl. eexists. split; [reflexivity|]. simpl.
    split; [|done].
    apply Permutation_singleton_r. apply sort_permutation.
  - split.
    + unfold getBestSwapRouteBy. by rewrite E100.
    + intros Hvalid.
      apply (proj2 (percentToQuotes_present estimateGasCost percents
                      routesWithQuotes routeType 100)) in Hvalid.
      apply (proj2 (sorted_present sort routeType buckets by_ 100))
        in Hvalid.
      rewrite E100 in Hvalid. by destruct Hvalid.
Qed.
End SplitOptimiserMore.

(** The three-way split of the example has three components, the
    default [maxSplits]. *)
Lemma getBestSwapRoute_component_count_witness :
  exists plan,
    getBestSwapRoute Array_sort Fixture.poolAddress Fixture.gasModel
      [25; 50; 75; 100] Fixture.threeWay Fixture.tokenC EXACT_INPUT
      DEFAULT_CONFIG
    = Ok (Some plan)
    /\ length (SwapRoute.routeAmounts plan) = 3%nat
    /\ (1 <= length (SwapRoute.routeAmounts plan) <= 3)%nat
    /\ Z.of_nat (length (SwapRoute.routeAmounts plan))
       <= Z.max 1 (maxSplits DEFAULT_CONFIG).
Proof.
  eexists. split; [vm_compute; reflexivity|]. split; [reflexivity|].
  apply (getBestSwapRoute_component_count Array_sort Array_sort_permutation
           Fixture.poolAddress Fixture.gasModel [25; 50; 75; 100]
           Fixture.threeWay Fixture.tokenC EXACT_INPUT DEFAULT_CONFIG).
  vm_compute. reflexivity.
Defined.

(** The forced split of the example is strictly better than the direct
    route alone. *)
Lemma getBestSwapRoute_unsplit_or_strictly_better_witness :
  exists plan,
    getBestSwapRoute Array_sort Fixture.poolAddress Fixture.gasModel
      [50; 100] Fixture.forcedSplit Fixture.tokenC EXACT_INPUT
      DEFAULT_CONFIG
    = Ok (Some plan)
    /\ length (SwapRoute.routeAmounts plan) = 2%nat
    /\ exists baseline others,
         percentToSortedQuotes Array_sort EXACT_INPUT
           (percentToQuotes Fixture.gasModel [50; 100]
              Fixture.forcedSplit EXACT_INPUT)
           RouteWithValidQuote.quoteAdjustedForGas !! 100
         = Some (baseline :: others)
         /\ (SwapRoute.routeAmounts plan = [toRouteAmount baseline]
             \/ ((2 <= length (SwapRoute.routeAmounts plan))%nat
                 /\ strictlyBetter EXACT_INPUT
                      (SwapRoute.quoteGasAdjusted plan)
                      (RouteWithValidQuote.quoteAdjustedForGas baseline))).
Proof.
  eexists. split; [vm_compute; reflexivity|]. split; [reflexivity|].
  apply (getBestSwapRoute_unsplit_or_strictly_better Array_sort
           Array_sort_permutation Fixture.poolAddress Fixture.gasModel
           [50; 100] Fixture.forcedSplit Fixture.tokenC EXACT_INPUT
           DEFAULT_CONFIG).
  vm_compute. reflexivity.
Defined.

(** The larger component of the three-way split is a valid input quote. *)
Lemma getBestSwapRoute_components_from_valid_quotes_witness :
  exists plan routeAmount,
    getBestSwapRoute Array_sort Fixture.poolAddress Fixture.gasModel
      [25; 50; 75; 100] Fixture.threeWay Fixture.tokenC EXACT_INPUT
      DEFAULT_CONFIG
    = Ok (Some plan)
    /\ head (SwapRoute.routeAmounts plan) = Some routeAmount
    /\ exists rq,
         builtFromQuote Fixture.gasModel EXACT_INPUT [25; 50; 75; 100]
           Fixture.threeWay rq
         /\ routeAmount = toRouteAmount rq.
Proof.
  eexists. eexists. split; [vm_compute; reflexivity|].
  split; [vm_compute; reflexivity|].
  eapply (getBestSwapRoute_components_from_valid_quotes Array_sort
            Array_sort_permutation Fixture.poolAddress Fixture.gasModel
            [25; 50; 75; 100] Fixture.threeWay Fixture.tokenC EXACT_INPUT
            DEFAULT_CONFIG).
  - vm_compute. reflexivity.
  - vm_compute. left.
Defined.

(** Without splitting, the route whose 50% quote failed is returned for
    the full amount. *)
Lemma getBestSwapRoute_without_splitting_witness :
  maxSplits FixturePlans.noSplits <= 1
  /\ match percentToSortedQuotes Array_sort EXACT_INPUT
             (percentToQuotes Fixture.gasModel [50; 100]
                Fixture.halfFailed EXACT_INPUT)
             RouteWithValidQuote.quoteAdjustedForGas !! 100 with
     | Some (baseline :: _) =>
         exists plan,
           getBestSwapRoute Array_sort Fixture.poolAddress
             Fixture.gasModel [50; 100] Fixture.halfFailed Fixture.tokenC
             EXACT_INPUT FixturePlans.noSplits
           = Ok (Some plan)
           /\ SwapRoute.routeAmounts plan = [toRouteAmount baseline]
           /\ SwapRoute.quote plan = RouteWithValidQuote.quote baseline
           /\ SwapRoute.quoteGasAdjusted plan
              = RouteWithValidQuote.quoteAdjustedForGas baseline
     | Some [] => False
     | None =>
         getBestSwapRoute Array_sort Fixture.poolAddress Fixture.gasModel
           [50; 100] Fixture.halfFailed Fixture.tokenC EXACT_INPUT
           FixturePlans.noSplits
         = Ok None
         /\ ~ hasValidQuoteAt [50; 100] Fixture.halfFailed 100
     end.
Proof.
  assert (Hsplits : maxSplits FixturePlans.noSplits <= 1) by (simpl; lia).
  split; [exact Hsplits|].
  apply (getBestSwapRoute_without_splitting Array_sort
           Array_sort_permutation Fixture.poolAddress Fixture.gasModel
           [50; 100] Fixture.halfFailed Fixture.tokenC EXACT_INPUT
           FixturePlans.noSplits Hsplits).
Defined.

(** ** Route enumerator: what it finds *)

Lemma Token_equals_true a b :
  Token.equals a b = true <-> tokenKey a = tokenKey b.
Proof.
  unfold Token.equals, tokenKey.
  rewrite andb_true_iff, Z.eqb_eq, String.eqb_eq.
  split; [intros [-> ->]; done | intros [= -> ->]; done].
Qed.

Lemma Token_equals_false a b :
  Token.equals a b = false <-> tokenKey a <> tokenKey b.
Proof.
  rewrite <- Token_equals_true. by destruct (Token.equals a b).
Qed.

Lemma involvesToken_true pool token :
  Pool.involvesToken pool token = true
  <-> tokenKey token = tokenKey (Pool.token0 pool)
      \/ tokenKey token = tokenKey (Pool.token1 pool).
Proof.
  unfold Pool.involvesToken.
  by rewrite orb_true_iff, !Token_equals_true.
Qed.

Lemma involvesToken_false pool token :
  Pool.involvesToken pool token = false
  <-> tokenKey token <> tokenKey (Pool.token0 pool)
      /\ tokenKey token <> tokenKey (Pool.token1 pool).
Proof.
  unfold Pool.involvesToken.
  by rewrite orb_false_iff, !Token_equals_false.
Qed.

(** A token path that starts off [tokenOut], whose last pool is the only
    one to involve [tokenOut], ends at [tokenOut]. *)
Lemma tokenPathEnd_reaches tokenOut route :
  forall current reached,
    Token.equals current tokenOut = false ->
    tokenPathEnd current route = Some reached ->
    (exists final, last route = Some final
                   /\ Pool.involvesToken final tokenOut = true) ->
    (forall (i : nat) p,
        route !! i = Some p -> (S i < length route)%nat ->
        Pool.involvesToken p tokenOut = false) ->
    Token.equals reached tokenOut = true.
Proof.
  induction route as [|p rest IH];
    intros current reached Hstart Hpath (final & Hlast & Hfinal) Hearly.
  - done.
  - simpl in Hpath.
    destruct (Pool.involvesToken p current) eqn:Hinvolves; [|done].
    apply involvesToken_true in Hinvolves.
    apply Token_equals_false in Hstart.
    destruct rest as [|q rest].
    + simpl in Hlast, Hpath. simplify_eq.
      apply involvesToken_true in Hfinal. apply Token_equals_true.
      destruct (Token.equals (Pool.token0 final) current) eqn:E0.
      * apply Token_equals_true in E0.
        destruct Hfinal as [H0|H1]; congruence.
      * apply Token_equals_false in E0.
        destruct Hinvolves as [H0|H1]; [congruence|].
        destruct Hfinal as [H0|H1']; congruence.
    + assert (Hp : Pool.involvesToken p tokenOut = false).
      { apply (Hearly 0%nat p eq_refl). simpl. lia. }
      apply involvesToken_false in Hp as [Hp0 Hp1].
      eapply IH; [|exact Hpath| |].
      * apply Token_equals_false.
        destruct (Token.equals (Pool.token0 p) current); congruence.
      * exists final. by split.
      * intros i p' Hi Hlt. apply (Hearly (S i) p' Hi). simpl in *. lia.
Qed.

Section ComputeAllRoutesMore.
Variables (tokenIn tokenOut : Token.t) (pools : list Pool.t) (maxHops : Z).

Lemma computeRoutes_zero currentRoute poolsUsed prev :
  computeRoutes tokenIn tokenOut pools maxHops 0 currentRoute poolsUsed
    prev
  = if Z.of_nat (length currentRoute) >? maxHops then []
    else if lastInvolvesTokenOut tokenOut currentRoute
    then [RouteSOR.new currentRoute tokenIn tokenOut]
    else [].
Proof. reflexivity. Qed.

Lemma computeRoutes_complete rest :
  forall fuel currentRoute poolsUsed prev,
    (length rest <= fuel)%nat ->
    Z.of_nat (length (currentRoute ++ rest)) <= maxHops ->
    (exists indices : list nat,
        NoDup indices
        /\ Forall2 (fun i p => pools !! i = Some p) indices rest
        /\ forall i, i ∈ indices -> poolsUsed !! i = Some false) ->
    is_Some (tokenPathEnd (default tokenIn prev) rest) ->
    (exists final, last (currentRoute ++ rest) = Some final
                   /\ Pool.involvesToken final tokenOut = true) ->
    (forall (i : nat) p,
        (currentRoute ++ rest) !! i = Some p ->
        (S i < length (currentRoute ++ rest))%nat ->
        Pool.involvesToken p tokenOut = false) ->
    RouteSOR.new (currentRoute ++ rest) tokenIn tokenOut
    ∈ computeRoutes tokenIn tokenOut pools maxHops fuel currentRoute
        poolsUsed prev.
Proof.
  induction rest as [|p rest IH];
    intros fuel cr used prev Hfuel Hhops (indices & Hnodup & Hindices & Hfree)
      Hpath (final & Hlast & Hfinal) Hearly.
  - rewrite app_nil_r in *.
    assert (Hemit :
      (if Z.of_nat (length cr) >? maxHops then []
       else if lastInvolvesTokenOut tokenOut cr
            then [RouteSOR.new cr tokenIn tokenOut]
            else [])
      = [RouteSOR.new cr tokenIn tokenOut]).
    { replace (Z.of_nat (length cr) >? maxHops) with false
        by (symmetry; rewrite Z.gtb_ltb; apply Z.ltb_ge; lia).
      unfold lastInvolvesTokenOut. by rewrite Hlast, Hfinal. }
    destruct fuel as [|fuel].
    + rewrite computeRoutes_zero, Hemit. by left.
    + rewrite computeRoutes_unfold.
      replace (Z.of_nat (length cr) >? maxHops) with false
        by (symmetry; rewrite Z.gtb_ltb; apply Z.ltb_ge; lia).
      unfold lastInvolvesTokenOut. rewrite Hlast, Hfinal. by left.
  - destruct fuel as [|fuel]; [simpl in Hfuel; lia|].
    rewrite length_app in Hhops. simpl in Hhops, Hfuel.
    rewrite computeRoutes_unfold.
    replace (Z.of_nat (length cr) >? maxHops) with false
      by (symmetry; rewrite Z.gtb_ltb; apply Z.ltb_ge; lia).
    assert (Hnotlast : lastInvolvesTokenOut tokenOut cr = false).
    { unfold lastInvolvesTokenOut.
      destruct (last cr) as [q|] eqn:Eq; [|done].
      rewrite last_lookup in Eq.
      pose proof (lookup_lt_Some _ _ _ Eq) as Hlt.
      apply (Hearly (pred (length cr)) q).
      - by rewrite lookup_app_l.
      - rewrite length_app. simpl. lia. }
    rewrite Hnotlast.
    destruct indices as [|i indices]; [by inversion Hindices|].
    apply Forall2_cons_1 in Hindices as [Hi Hindices].
    apply NoDup_cons in Hnodup as [Hfresh Hnodup].
    simpl in Hpath.
    destruct (Pool.involvesToken p (default tokenIn prev)) eqn:Hinvolves;
      [|by destruct Hpath].
    apply elem_of_concat_imap. exists i, p. split; [done|].
    rewrite (Hfree i) by by left. simpl. rewrite Hinvolves. simpl.
    replace (cr ++ p :: rest) with ((cr ++ [p]) ++ rest) in *
      by by rewrite <- app_assoc.
    apply IH.
    + lia.
    + rewrite !length_app in *. simpl in *. lia.
    + exists indices. split; [done|]. split; [done|].
      intros i' Hi'. rewrite list_lookup_insert_ne.
      * apply Hfree. by right.
      * intros ->. done.
    + done.
    + by exists final.
    + done.
Qed.

Lemma computeAllRoutes_emits indices route :
  NoDup indices ->
  Forall2 (fun i p => pools !! i = Some p) indices route ->
  Z.of_nat (length route) <= maxHops ->
  is_Some (tokenPathEnd tokenIn route) ->
  (exists final, last route = Some final
                 /\ Pool.involvesToken final tokenOut = true) ->
  (forall (i : nat) p,
      route !! i = Some p -> (S i < length route)%nat ->
      Pool.involvesToken p tokenOut = false) ->
  RouteSOR.new route tokenIn tokenOut
  ∈ computeAllRoutes tokenIn tokenOut pools maxHops.
Proof.
  intros Hnodup Hindices Hhops Hpath Hlast Hearly.
  unfold computeAllRoutes.
  apply (computeRoutes_complete route (S (Z.to_nat maxHops)) []
           (replicate (length pools) false) None); try done.
  - lia.
  - exists indices. split; [done|]. split; [done|].
    intros i Hi. apply lookup_replicate_2.
    apply list_elem_of_lookup in Hi as [k Hk].
    destruct (Forall2_lookup_l _ _ _ _ _ Hindices Hk) as (p & _ & Hp).
    by eapply lookup_lt_Some.
Qed.

(** X9.  The enumerator misses nothing: any chain of at most [maxHops]
    pools taken from distinct entries of the pool array, along which the
    token path from [tokenIn] holds and whose final pool is the only one
    that involves [tokenOut], is among the routes returned. *)
Theorem computeAllRoutes_complete route :
  usesDistinctPools pools route ->
  Z.of_nat (length route) <= maxHops ->
  is_Some (tokenPathEnd tokenIn route) ->
  (exists final, last route = Some final
                 /\ Pool.involvesToken final tokenOut = true) ->
  ~ passesThroughTokenOutMidway tokenOut
      (RouteSOR.new route tokenIn tokenOut) ->
  RouteSOR.new route tokenIn tokenOut
  ∈ computeAllRoutes tokenIn tokenOut pools maxHops.
Proof.
  intros (indices & Hnodup & Hindices) Hhops Hpath Hlast Hearly.
  apply (computeAllRoutes_emits indices); try done.
  intros i p Hi Hlt.
  destruct (Pool.involvesToken p tokenOut) eqn:Hinvolves; [|done].
  destruct Hearly. by exists i, p.
Qed.

(** X10.  When [tokenIn] and [tokenOut] are different tokens, the token
    path of every returned route, walked from [tokenIn], ends at
    [tokenOut]. *)
Theorem computeAllRoutes_path_ends_at_tokenOut r :
  Token.equals tokenIn tokenOut = false ->
  r ∈ computeAllRoutes tokenIn tokenOut pools maxHops ->
  exists reached,
    tokenPathEnd tokenIn (RouteSOR.pools r) = Some reached
    /\ Token.equals reached tokenOut = true.
Proof.
  intros Hdifferent Hr.
  destruct (computeRoutes_sound tokenIn tokenOut pools maxHops _ _ _ _ r
              (enumerationState_initial tokenIn tokenOut pools) Hr)
    as [Hwf Hearly].
  destruct (wf_path _ _ _ _ _ Hwf) as [reached Hreached].
  exists reached. split; [done|].
  eapply tokenPathEnd_reaches; [exact Hdifferent|exact Hreached| |].
  - apply (wf_last _ _ _ _ _ Hwf).
  - intros i p Hi Hlt.
    destruct (Pool.involvesToken p tokenOut) eqn:Hinvolves; [|done].
    destruct Hearly. by exists i, p.
Qed.

(** X11.  The enumerator returns no route when [maxHops] is below one,
    when no pool involves [tokenIn], or when no pool involves
    [tokenOut]. *)
Theorem computeAllRoutes_no_route :
  maxHops < 1
  \/ (forall p, p ∈ pools -> Pool.involvesToken p tokenIn = false)
  \/ (forall p, p ∈ pools -> Pool.involvesToken p tokenOut = false) ->
  computeAllRoutes tokenIn tokenOut pools maxHops = [].
Proof.
  intros Hnone.
  destruct (computeAllRoutes tokenIn tokenOut pools maxHops)
    as [|r others] eqn:Eroutes; [done|].
  assert (Hr : r ∈ computeAllRoutes tokenIn tokenOut pools maxHops)
    by (rewrite Eroutes; by left).
  destruct (computeRoutes_sound tokenIn tokenOut pools maxHops _ _ _ _ r
              (enumerationState_initial tokenIn tokenOut pools) Hr)
    as [Hwf _].
  assert (Hsub : forall p, p ∈ RouteSOR.pools r -> p ∈ pools).
  { intros p Hp. destruct (wf_distinct _ _ _ _ _ Hwf) as (ix & _ & Hix).
    apply list_elem_of_lookup in Hp as [k Hk].
    destruct (Forall2_lookup_r _ _ _ _ _ Hix Hk) as (i & _ & Hi).
    by eapply list_elem_of_lookup_2. }
  destruct Hnone as [Hhops|[Hin|Hout]].
  - pose proof (wf_length _ _ _ _ _ Hwf). lia.
  - destruct (wf_first _ _ _ _ _ Hwf) as (first & Hfirst & Hinvolves).
    rewrite Hin in Hinvolves; [done|]. apply Hsub.
    destruct (RouteSOR.pools r); simplify_eq/=. by left.
  - destruct (wf_last _ _ _ _ _ Hwf) as (final & Hfinal & Hinvolves).
    rewrite Hout in Hinvolves; [done|]. apply Hsub.
    rewrite last_lookup in Hfinal. by eapply list_elem_of_lookup_2.
Qed.
End ComputeAllRoutesMore.

(** X20.  Raising [maxHops] or appending pools to the pool array loses
    no route: a route returned for [pools] and [maxHops] is returned for
    [pools ++ morePools] and any larger [maxHops']. *)
Theorem computeAllRoutes_monotone tokenIn tokenOut pools morePools maxHops
    maxHops' r :
  maxHops <= maxHops' ->
  r ∈ computeAllRoutes tokenIn tokenOut pools maxHops ->
  r ∈ computeAllRoutes tokenIn tokenOut (pools ++ morePools) maxHops'.
Proof.
  intros Hhops Hr.
  destruct (computeRoutes_sound tokenIn tokenOut pools maxHops _ _ _ _ r
              (enumerationState_initial tokenIn tokenOut pools) Hr)
    as [Hwf Hearly].
  destruct Hwf as [Hinput Houtput Hlength _ _ Hpath Hlast Hdistinct _].
  destruct r as [route input output]. simpl in *. subst input output.
  destruct Hdistinct as (indices & Hnodup & Hindices).
  apply (computeAllRoutes_emits tokenIn tokenOut (pools ++ morePools)
           maxHops' indices route); try done.
  - eapply Forall2_impl; [exact Hindices|].
    intros i p Hp. simpl in Hp. by apply lookup_app_l_Some.
  - lia.
  - intros i p Hi Hlt.
    destruct (Pool.involvesToken p tokenOut) eqn:Hinvolves; [|done].
    destruct Hearly. by exists i, p.
Qed.

(** With one more hop allowed and two more pools, A -> B -> C is still
    returned. *)
Lemma computeAllRoutes_monotone_witness :
  Fixture.route [Fixture.poolAB; Fixture.poolBC] Fixture.tokenA
    Fixture.tokenC
  ∈ computeAllRoutes Fixture.tokenA Fixture.tokenC
      ([Fixture.poolAB; Fixture.poolBC; Fixture.poolAC]
       ++ [Fixture.poolAD; Fixture.poolCD]) 3.
Proof.
  apply (computeAllRoutes_monotone Fixture.tokenA Fixture.tokenC
           [Fixture.poolAB; Fixture.poolBC; Fixture.poolAC]
           [Fixture.poolAD; Fixture.poolCD] 2 3).
  - lia.
  - vm_compute. apply list_elem_of_here.
Defined.

(** The two-hop chain A -> B -> C among three pools is returned. *)
Lemma computeAllRoutes_complete_witness :
  RouteSOR.new [Fixture.poolAB; Fixture.poolBC] Fixture.tokenA
    Fixture.tokenC
  ∈ computeAllRoutes Fixture.tokenA Fixture.tokenC
      [Fixture.poolAB; Fixture.poolBC; Fixture.poolAC] 3.
Proof.
  apply (computeAllRoutes_complete Fixture.tokenA Fixture.tokenC
           [Fixture.poolAB; Fixture.poolBC; Fixture.poolAC] 3
           [Fixture.poolAB; Fixture.poolBC]).
  - exists [0%nat; 1%nat]. split.
    + apply NoDup_cons. split; [|apply NoDup_singleton].
      intros Hin. apply list_elem_of_singleton in Hin. discriminate.
    + repeat constructor.
  - simpl. lia.
  - vm_compute. eexists. reflexivity.
  - exists Fixture.poolBC. split; [reflexivity | vm_compute; reflexivity].
  - intros (i & p & Hp & Hlt & Hinvolves). simpl in Hp, Hlt.
    destruct i as [|[|i]].
    + injection Hp as <-. vm_compute in Hinvolves. discriminate.
    + lia.
    + discriminate.
Defined.

(** The token path of A -> B -> C ends at C. *)
Lemma computeAllRoutes_path_ends_at_tokenOut_witness :
  Token.equals Fixture.tokenA Fixture.tokenC = false
  /\ exists reached,
       tokenPathEnd Fixture.tokenA
         (RouteSOR.pools
            (Fixture.route [Fixture.poolAB; Fixture.poolBC]
               Fixture.tokenA Fixture.tokenC))
       = Some reached
       /\ Token.equals reached Fixture.tokenC = true.
Proof.
  split; [vm_compute; reflexivity|].
  apply (computeAllRoutes_path_ends_at_tokenOut Fixture.tokenA
           Fixture.tokenC
           [Fixture.poolAB; Fixture.poolBC; Fixture.poolAC] 3).
  - vm_compute. reflexivity.
  - vm_compute. apply list_elem_of_here.
Defined.

(** No pool of the array involves C: no route from A to C. *)
Lemma computeAllRoutes_no_route_witness :
  computeAllRoutes Fixture.tokenA Fixture.tokenC
    [Fixture.poolAB; Fixture.poolAD; Fixture.poolDB] 3
  = [].
Proof.
  apply (computeAllRoutes_no_route Fixture.tokenA Fixture.tokenC
           [Fixture.poolAB; Fixture.poolAD; Fixture.poolDB] 3).
  right. right. intros p Hp.
  rewrite !elem_of_cons in Hp.
  destruct Hp as [->|[->|[->|Hp]]]; [vm_compute; reflexivity ..|].
  inversion Hp.
Defined.

(** ** Pool selector: the slices *)

Lemma slice0_elem_of {A} (end_ : Z) (l : list A) x :
  x ∈ slice0 end_ l -> x ∈ l.
Proof.
  unfold slice0. destruct (end_ <? 0); apply subseteq_take.
Qed.

Lemma slice0_length {A} (end_ : Z) (l : list A) :
  0 <= end_ -> Z.of_nat (length (slice0 end_ l)) <= end_.
Proof.
  intros Hend. unfold slice0.
  destruct (Z.ltb_spec end_ 0) as [Hneg|_]; [lia|].
  rewrite length_take. lia.
Qed.

Lemma slice0_prefix {A} (end_ : Z) (l : list A) :
  exists rest, l = slice0 end_ l ++ rest.
Proof.
  unfold slice0. destruct (end_ <? 0).
  - eexists. symmetry. apply take_drop.
  - eexists. symmetry. apply take_drop.
Qed.

Lemma sortBy_permutation {A} (iteratee : A -> Q) (l : list A) :
  sortBy iteratee l ≡ₚ l.
Proof. apply Array_sort_permutation. Qed.

Lemma ForallOrdPairs_impl {A} (R S : A -> A -> Prop) (l : list A) :
  (forall a b, R a b -> S a b) ->
  ForallOrdPairs R l -> ForallOrdPairs S l.
Proof.
  intros Himpl. induction 1 as [|a l Ha Hl IH]; constructor; [|done].
  eapply List.Forall_impl; [|exact Ha]. apply Himpl.
Qed.

Lemma ForallOrdPairs_app {A} (R : A -> A -> Prop) (l1 l2 : list A) a b :
  ForallOrdPairs R (l1 ++ l2) -> a ∈ l1 -> b ∈ l2 -> R a b.
Proof.
  induction l1 as [|x l1 IH]; intros Hpairs Ha Hb; [inversion Ha|].
  simpl in Hpairs. inversion Hpairs as [|? ? Hx Hrest]; subst.
  apply elem_of_cons in Ha as [->|Ha].
  - rewrite List.Forall_forall in Hx. apply Hx.
    apply list_elem_of_In. apply elem_of_app. by right.
  - by apply IH.
Qed.

(** [sortBy] sorts: an earlier entry has an iteratee no greater than a
    later one's. *)
Lemma sortBy_sorted {A} (iteratee : A -> Q) (l : list A) :
  ForallOrdPairs (fun earlier later => (iteratee earlier <= iteratee later)%Q)
    (sortBy iteratee l).
Proof.
  unfold sortBy.
  set (compareFn := fun a b : A =>
         match (iteratee a ?= iteratee b)%Q with
         | Lt => -1
         | Eq => 0
         | Gt => 1
         end).
  assert (Hle : forall a b, compareFn a b <= 0
                            <-> (iteratee a <= iteratee b)%Q).
  { intros a b. unfold compareFn.
    destruct (iteratee a ?= iteratee b)%Q eqn:E.
    - apply Qeq_alt in E. rewrite E. split; [intros _; apply Qle_refl|lia].
    - apply Qlt_alt in E. split; [intros _; by apply Qlt_le_weak|lia].
    - apply Qgt_alt in E. split; [lia|].
      intros Hab. by apply Qle_not_lt in Hab. }
  assert (Hlt : forall a b, compareFn a b < 0
                            <-> (iteratee a < iteratee b)%Q).
  { intros a b. unfold compareFn.
    destruct (iteratee a ?= iteratee b)%Q eqn:E.
    - apply Qeq_alt in E. rewrite E. split; [lia|].
      intros Hbb. by apply Qlt_irrefl in Hbb.
    - apply Qlt_alt in E. split; [done|lia].
    - apply Qgt_alt in E. split; [lia|].
      intros Hab. exfalso. apply (Qlt_irrefl (iteratee a)).
      by eapply Qlt_trans. }
  pose proof (Array_sort_noLaterBefore compareFn l) as Hsorted.
  unfold noLaterBefore in Hsorted.
  eapply ForallOrdPairs_impl; [|apply Hsorted].
  - intros earlier later Hnot. cbv beta in Hnot.
    apply Qnot_lt_le. intros Hlater. apply Hnot. by apply Hlt.
  - intros a b. rewrite Hle, Hlt. apply Qle_not_lt.
  - intros a b c. rewrite !Hlt, Hle. apply Qlt_le_trans.
Qed.

Lemma uniqByFrom_spec {A} (iteratee : A -> string) (l : list A) :
  forall seen,
    NoDup (map iteratee (uniqByFrom iteratee seen l))
    /\ forall x, x ∈ uniqByFrom iteratee seen l ->
                 x ∈ l /\ iteratee x ∉ seen.
Proof.
  induction l as [|y l IH]; intros seen; simpl.
  - split; [constructor | intros x Hx; inversion Hx].
  - destruct (bool_decide_reflect (iteratee y ∈ seen)) as [Hseen|Hnew].
    + destruct (IH seen) as [Hnodup Hin]. split; [done|].
      intros x Hx. destruct (Hin x Hx). split; [by right | done].
    + destruct (IH ({[iteratee y]} ∪ seen)) as [Hnodup Hin]. split.
      * simpl. apply NoDup_cons. split; [|done].
        intros Hdup. apply list_elem_of_fmap in Hdup as (x & Hxy & Hx).
        destruct (Hin x Hx) as [_ Hfresh]. apply Hfresh.
        apply elem_of_union. left. apply elem_of_singleton. done.
      * intros x Hx. apply elem_of_cons in Hx as [->|Hx].
        -- split; [by left | done].
        -- destruct (Hin x Hx) as [Hxl Hfresh]. split; [by right|].
           intros Hseen. apply Hfresh. apply elem_of_union. by right.
Qed.

Lemma uniqByFrom_length {A} (iteratee : A -> string) (l : list A) :
  forall seen, (length (uniqByFrom iteratee seen l) <= length l)%nat.
Proof.
  induction l as [|y l IH]; intros seen; simpl; [done|].
  destruct (bool_decide (iteratee y ∈ seen)).
  - specialize (IH seen). lia.
  - specialize (IH ({[iteratee y]} ∪ seen)). simpl. lia.
Qed.

(** [uniqBy] loses no iteratee value. *)
Lemma uniqByFrom_keeps {A} (iteratee : A -> string) (l : list A) :
  forall seen x,
    x ∈ l -> iteratee x ∉ seen ->
    exists y, y ∈ uniqByFrom iteratee seen l /\ iteratee y = iteratee x.
Proof.
  induction l as [|y l IH]; intros seen x Hx Hfresh; [inversion Hx|].
  simpl. apply elem_of_cons in Hx as [->|Hx].
  - rewrite bool_decide_eq_false_2 by done. exists y. split; [by left|done].
  - destruct (bool_decide_reflect (iteratee y ∈ seen)) as [Hseen|Hnew].
    + by apply IH.
    + destruct (decide (iteratee x = iteratee y)) as [Heq|Hne].
      * exists y. split; [by left | done].
      * destruct (IH ({[iteratee y]} ∪ seen) x Hx) as (z & Hz & Hzx).
        -- intros Hin. apply elem_of_union in Hin as [Hin|Hin]; [|done].
           apply elem_of_singleton in Hin. done.
        -- exists z. split; [by right | done].
Qed.

Lemma elem_of_List_filter {A} (f : A -> bool) (l : list A) x :
  x ∈ List.filter f l <-> x ∈ l /\ f x = true.
Proof. rewrite !list_elem_of_In. apply filter_In. Qed.

Section GetPoolsToConsiderFacts.
Variable wrappedNative : Token.t.
Variables (tokenIn tokenOut : Token.t) (routeType : TradeType).
Variable routingConfig : AlphaRouterConfig.
Variable tokenExists : string -> bool.
Variable totalValueLockedUSDFloat : SubgraphPool.t -> Q.
Variable allPools : list SubgraphPool.t.

Lemma top2EthQuoteTokenPool_unfold :
  GetPoolsToConsider.top2EthQuoteTokenPool wrappedNative tokenIn tokenOut
    routeType tokenExists totalValueLockedUSDFloat allPools
  = take 2
      (List.filter
         (isEthQuoteTokenPool wrappedNative tokenIn tokenOut routeType)
         (GetPoolsToConsider.subgraphPoolsSorted tokenExists
            totalValueLockedUSDFloat allPools)).
Proof. reflexivity. Qed.

Local Abbreviation sorted :=
  (GetPoolsToConsider.subgraphPoolsSorted tokenExists
     totalValueLockedUSDFloat allPools).
Local Abbreviation top2DirectSwapPool :=
  (GetPoolsToConsider.top2DirectSwapPool tokenIn tokenOut tokenExists
     totalValueLockedUSDFloat allPools).
Local Abbreviation top2EthQuoteTokenPool :=
  (GetPoolsToConsider.top2EthQuoteTokenPool wrappedNative tokenIn tokenOut
     routeType tokenExists totalValueLockedUSDFloat allPools).
Local Abbreviation topByTVL :=
  (GetPoolsToConsider.topByTVL routingConfig tokenExists
     totalValueLockedUSDFloat allPools).
Local Abbreviation topByTVLUsingTokenIn :=
  (GetPoolsToConsider.topByTVLUsingTokenIn wrappedNative tokenIn tokenOut
     routeType routingConfig tokenExists totalValueLockedUSDFloat allPools).
Local Abbreviation topByTVLUsingTokenOut :=
  (GetPoolsToConsider.topByTVLUsingTokenOut wrappedNative tokenIn tokenOut
     routeType routingConfig tokenExists totalValueLockedUSDFloat allPools).
Local Abbreviation topByTVLUsingTokenInSecondHops :=
  (GetPoolsToConsider.topByTVLUsingTokenInSecondHops wrappedNative tokenIn
     tokenOut routeType routingConfig tokenExists totalValueLockedUSDFloat
     allPools).
Local Abbreviation topByTVLUsingTokenOutSecondHops :=
  (GetPoolsToConsider.topByTVLUsingTokenOutSecondHops wrappedNative tokenIn
     tokenOut routeType routingConfig tokenExists totalValueLockedUSDFloat
     allPools).
Local Abbreviation subgraphPools :=
  (GetPoolsToConsider.subgraphPools wrappedNative tokenIn tokenOut
     routeType routingConfig tokenExists totalValueLockedUSDFloat allPools).
Local Abbreviation secondHops :=
  (GetPoolsToConsider.secondHops routingConfig tokenExists
     totalValueLockedUSDFloat allPools).

Lemma subgraphPoolsSorted_spec p :
  p ∈ sorted
  <-> p ∈ allPools
      /\ tokenExists (SubgraphToken.symbol (SubgraphPool.token0 p)) = true
      /\ tokenExists (SubgraphToken.symbol (SubgraphPool.token1 p)) = true.
Proof.
  unfold GetPoolsToConsider.subgraphPoolsSorted.
  rewrite sortBy_permutation, elem_of_List_filter, andb_true_iff. done.
Qed.

Lemma elem_of_addToAddressSet soFar pools address :
  address ∈ GetPoolsToConsider.addToAddressSet soFar pools
  <-> address ∈ soFar \/ exists p, p ∈ pools /\ SubgraphPool.id p = address.
Proof.
  unfold GetPoolsToConsider.addToAddressSet.
  revert soFar. induction pools as [|q pools IH]; intros soFar; simpl.
  - split; [by left | intros [H|(p & Hp & _)]; [done | inversion Hp]].
  - rewrite IH, elem_of_union, elem_of_singleton. split.
    + intros [[->|Hin]|(p & Hp & Hid)].
      * right. exists q. split; [by left | done].
      * by left.
      * right. exists p. split; [by right | done].
    + intros [Hin|(p & Hp & Hid)]; [by left; right|].
      apply elem_of_cons in Hp as [->|Hp]; [by left; left|].
      right. by exists p.
Qed.

Lemma notSoFar_true soFar p :
  GetPoolsToConsider.notSoFar soFar p = true
  <-> SubgraphPool.id p ∉ soFar.
Proof.
  unfold GetPoolsToConsider.notSoFar.
  rewrite negb_true_iff, bool_decide_eq_false. done.
Qed.

(** A pool of a filtered slice: among the sorted pools, not seen so
    far, and passing the slice's test. *)
Lemma filtered_slice_spec end_ soFar test p :
  p ∈ slice0 end_
        (List.filter
           (fun subgraphPool =>
              GetPoolsToConsider.notSoFar soFar subgraphPool
              && test subgraphPool)
           sorted) ->
  p ∈ sorted /\ (SubgraphPool.id p ∉ soFar) /\ test p = true.
Proof.
  intros Hp. apply slice0_elem_of in Hp.
  apply elem_of_List_filter in Hp as [Hsorted Htest].
  apply andb_true_iff in Htest as [Hnew Htest].
  by apply notSoFar_true in Hnew.
Qed.

Lemma secondHops_spec tokenAddress soFar firstHops p :
  p ∈ secondHops tokenAddress soFar firstHops ->
  p ∈ sorted
  /\ (SubgraphPool.id p ∉ soFar)
  /\ exists firstHop,
       firstHop ∈ firstHops
       /\ GetPoolsToConsider.usesToken
            (GetPoolsToConsider.secondHopId tokenAddress firstHop) p
          = true.
Proof.
  unfold GetPoolsToConsider.secondHops. intros Hp.
  apply slice0_elem_of in Hp. rewrite sortBy_permutation in Hp.
  apply (uniqByFrom_spec SubgraphPool.id) in Hp as [Hp _].
  apply list_elem_of_In, in_flat_map in Hp as (hopId & HhopId & Hp).
  apply list_elem_of_In in Hp.
  apply filtered_slice_spec in Hp as (Hsorted & Hnew & Huses).
  apply in_map_iff in HhopId as (firstHop & <- & HfirstHop).
  apply list_elem_of_In in HfirstHop.
  split; [done|]. split; [done|]. by exists firstHop.
Qed.

Lemma secondHops_length tokenAddress soFar firstHops :
  0 <= topNSecondHop routingConfig ->
  Z.of_nat (length (secondHops tokenAddress soFar firstHops))
  <= topNSecondHop routingConfig.
Proof. apply slice0_length. Qed.

Lemma top2EthQuoteTokenPool_sorted p :
  p ∈ top2EthQuoteTokenPool -> p ∈ sorted.
Proof.
  rewrite top2EthQuoteTokenPool_unfold.
  intros Hp. apply subseteq_take in Hp.
  by apply elem_of_List_filter in Hp as [Hp _].
Qed.

(** Every slice is taken from the sorted token-list pools. *)
Lemma selected_sorted p :
  p ∈ top2DirectSwapPool ++ top2EthQuoteTokenPool ++ topByTVL
      ++ topByTVLUsingTokenIn ++ topByTVLUsingTokenOut
      ++ topByTVLUsingTokenInSecondHops
      ++ topByTVLUsingTokenOutSecondHops ->
  p ∈ sorted.
Proof.
  rewrite !elem_of_app.
  intros [Hp|[Hp|[Hp|[Hp|[Hp|[Hp|Hp]]]]]].
  - by apply filtered_slice_spec in Hp as [Hp _].
  - by apply top2EthQuoteTokenPool_sorted.
  - by apply slice0_elem_of in Hp.
  - by apply filtered_slice_spec in Hp as [Hp _].
  - by apply filtered_slice_spec in Hp as [Hp _].
  - by apply secondHops_spec in Hp as [Hp _].
  - by apply secondHops_spec in Hp as [Hp _].
Qed.

(** X12.  The pools handed to the pool provider have pairwise different
    ids, and each of them is one of the subgraph's pools with both
    token symbols in the token list. *)
Theorem subgraphPools_distinct_token_list_pools :
  NoDup (map SubgraphPool.id subgraphPools)
  /\ forall p,
       p ∈ subgraphPools ->
       p ∈ allPools
       /\ tokenExists (SubgraphToken.symbol (SubgraphPool.token0 p)) = true
       /\ tokenExists (SubgraphToken.symbol (SubgraphPool.token1 p))
          = true.
Proof.
  unfold GetPoolsToConsider.subgraphPools, uniqBy.
  match goal with
  | |- context [uniqByFrom SubgraphPool.id ∅ ?l] =>
      destruct (uniqByFrom_spec SubgraphPool.id l ∅) as [Hnodup Hin]
  end.
  split; [done|]. intros p Hp.
  apply subgraphPoolsSorted_spec, selected_sorted.
  by destruct (Hin p Hp).
Qed.

(** X13.  No slice is lost: every pool of the seven slices has its id
    among the pools handed to the pool provider. *)
Theorem subgraphPools_cover_slices p :
  p ∈ top2DirectSwapPool ++ top2EthQuoteTokenPool ++ topByTVL
      ++ topByTVLUsingTokenIn ++ topByTVLUsingTokenOut
      ++ topByTVLUsingTokenInSecondHops
      ++ topByTVLUsingTokenOutSecondHops ->
  exists kept,
    kept ∈ subgraphPools /\ SubgraphPool.id kept = SubgraphPool.id p.
Proof.
  intros Hp. unfold GetPoolsToConsider.subgraphPools, uniqBy.
  apply uniqByFrom_keeps; [done|]. apply not_elem_of_empty.
Qed.

Local Abbreviation poolAddressesSoFar3 :=
  (GetPoolsToConsider.poolAddressesSoFar3 wrappedNative tokenIn tokenOut
     routeType routingConfig tokenExists totalValueLockedUSDFloat allPools).
Local Abbreviation poolAddressesSoFar4 :=
  (GetPoolsToConsider.poolAddressesSoFar4 wrappedNative tokenIn tokenOut
     routeType routingConfig tokenExists totalValueLockedUSDFloat allPools).
Local Abbreviation poolAddressesSoFar5 :=
  (GetPoolsToConsider.poolAddressesSoFar5 wrappedNative tokenIn tokenOut
     routeType routingConfig tokenExists totalValueLockedUSDFloat allPools).
Local Abbreviation poolAddressesSoFar6 :=
  (GetPoolsToConsider.poolAddressesSoFar6 wrappedNative tokenIn tokenOut
     routeType routingConfig tokenExists totalValueLockedUSDFloat allPools).

Lemma poolAddressesSoFar3_has q :
  q ∈ top2DirectSwapPool ++ top2EthQuoteTokenPool ++ topByTVL ->
  SubgraphPool.id q ∈ poolAddressesSoFar3.
Proof.
  rewrite !elem_of_app.
  unfold GetPoolsToConsider.poolAddressesSoFar3,
    GetPoolsToConsider.poolAddressesSoFar2,
    GetPoolsToConsider.poolAddressesSoFar1.
  rewrite !elem_of_addToAddressSet. intros [Hq|[Hq|Hq]]; eauto 6.
Qed.

Lemma poolAddressesSoFar4_has q :
  q ∈ top2DirectSwapPool ++ top2EthQuoteTokenPool ++ topByTVL
      ++ topByTVLUsingTokenIn ->
  SubgraphPool.id q ∈ poolAddressesSoFar4.
Proof.
  rewrite !app_assoc, elem_of_app, <- !app_assoc.
  unfold GetPoolsToConsider.poolAddressesSoFar4.
  rewrite elem_of_addToAddressSet. intros [Hq|Hq]; [|eauto].
  left. by apply poolAddressesSoFar3_has.
Qed.

Lemma poolAddressesSoFar5_has q :
  q ∈ top2DirectSwapPool ++ top2EthQuoteTokenPool ++ topByTVL
      ++ topByTVLUsingTokenIn ++ topByTVLUsingTokenOut ->
  SubgraphPool.id q ∈ poolAddressesSoFar5.
Proof.
  rewrite !app_assoc, elem_of_app, <- !app_assoc.
  unfold GetPoolsToConsider.poolAddressesSoFar5.
  rewrite elem_of_addToAddressSet. intros [Hq|Hq]; [|eauto].
  left. by apply poolAddressesSoFar4_has.
Qed.

Lemma poolAddressesSoFar6_has q :
  q ∈ top2DirectSwapPool ++ top2EthQuoteTokenPool ++ topByTVL
      ++ topByTVLUsingTokenIn ++ topByTVLUsingTokenOut
      ++ topByTVLUsingTokenInSecondHops ->
  SubgraphPool.id q ∈ poolAddressesSoFar6.
Proof.
  rewrite !app_assoc, elem_of_app, <- !app_assoc.
  unfold GetPoolsToConsider.poolAddressesSoFar6.
  rewrite elem_of_addToAddressSet. intros [Hq|Hq]; [|eauto].
  left. by apply poolAddressesSoFar5_has.
Qed.

(** X14.  For non-negative [topN], [topNTokenInOut] and [topNSecondHop]
    the number of pools handed to the pool provider is at most
    [4 + topN + 2 * topNTokenInOut + 2 * topNSecondHop]. *)
Theorem subgraphPools_bounded :
  0 <= topN routingConfig ->
  0 <= topNTokenInOut routingConfig ->
  0 <= topNSecondHop routingConfig ->
  Z.of_nat (length subgraphPools)
  <= 4 + topN routingConfig + 2 * topNTokenInOut routingConfig
     + 2 * topNSecondHop routingConfig.
Proof.
  intros HtopN HinOut Hsecond.
  unfold GetPoolsToConsider.subgraphPools, uniqBy.
  match goal with
  | |- context [uniqByFrom SubgraphPool.id ∅ ?l] =>
      pose proof (uniqByFrom_length SubgraphPool.id l ∅) as Huniq
  end.
  rewrite !length_app in Huniq.
  assert (Hdirect : Z.of_nat (length top2DirectSwapPool) <= 2)
    by by apply slice0_length.
  assert (Heth : Z.of_nat (length top2EthQuoteTokenPool) <= 2).
  { rewrite top2EthQuoteTokenPool_unfold, length_take. lia. }
  pose proof (slice0_length (topN routingConfig) sorted HtopN) as Htvl.
  assert (Hin : Z.of_nat (length topByTVLUsingTokenIn)
                <= topNTokenInOut routingConfig)
    by by apply slice0_length.
  assert (Hout : Z.of_nat (length topByTVLUsingTokenOut)
                 <= topNTokenInOut routingConfig)
    by by apply slice0_length.
  assert (Hin2 : Z.of_nat (length topByTVLUsingTokenInSecondHops)
                 <= topNSecondHop routingConfig)
    by by apply secondHops_length.
  assert (Hout2 : Z.of_nat (length topByTVLUsingTokenOutSecondHops)
                  <= topNSecondHop routingConfig)
    by by apply secondHops_length.
  fold topByTVL in Htvl. lia.
Qed.

(** X15.  The four slices filtered on the seen-address set repeat no
    pool selected before them: no pool of [topByTVLUsingTokenIn],
    [topByTVLUsingTokenOut] or of a second-hop slice has the id of a
    pool of an earlier slice. *)
Theorem filtered_slices_skip_selected_pools :
  (forall p q,
      p ∈ topByTVLUsingTokenIn ->
      q ∈ top2DirectSwapPool ++ top2EthQuoteTokenPool ++ topByTVL ->
      SubgraphPool.id p <> SubgraphPool.id q)
  /\ (forall p q,
        p ∈ topByTVLUsingTokenOut ->
        q ∈ top2DirectSwapPool ++ top2EthQuoteTokenPool ++ topByTVL
            ++ topByTVLUsingTokenIn ->
        SubgraphPool.id p <> SubgraphPool.id q)
  /\ (forall p q,
        p ∈ topByTVLUsingTokenInSecondHops ->
        q ∈ top2DirectSwapPool ++ top2EthQuoteTokenPool ++ topByTVL
            ++ topByTVLUsingTokenIn ++ topByTVLUsingTokenOut ->
        SubgraphPool.id p <> SubgraphPool.id q)
  /\ (forall p q,
        p ∈ topByTVLUsingTokenOutSecondHops ->
        q ∈ top2DirectSwapPool ++ top2EthQuoteTokenPool ++ topByTVL
            ++ topByTVLUsingTokenIn ++ topByTVLUsingTokenOut
            ++ topByTVLUsingTokenInSecondHops ->
        SubgraphPool.id p <> SubgraphPool.id q).
Proof.
  repeat split; intros p q Hp Hq Heq.
  - apply filtered_slice_spec in Hp as (_ & Hnew & _). apply Hnew.
    rewrite Heq. by apply poolAddressesSoFar3_has.
  - apply filtered_slice_spec in Hp as (_ & Hnew & _). apply Hnew.
    rewrite Heq. by apply poolAddressesSoFar4_has.
  - apply secondHops_spec in Hp as (_ & Hnew & _). apply Hnew.
    rewrite Heq. by apply poolAddressesSoFar5_has.
  - apply secondHops_spec in Hp as (_ & Hnew & _). apply Hnew.
    rewrite Heq. by apply poolAddressesSoFar6_has.
Qed.

(** X16.  Both second-hop slices are grown from the pools of
    [topByTVLUsingTokenIn]: a pool of either slice uses the token on the
    other side (of [tokenIn], respectively of [tokenOut]) of one of
    those pools.  With no such pool both slices are empty. *)
Theorem second_hops_grow_from_tokenIn_pools :
  (forall p,
      p ∈ topByTVLUsingTokenInSecondHops ->
      exists firstHop,
        firstHop ∈ topByTVLUsingTokenIn
        /\ GetPoolsToConsider.usesToken
             (GetPoolsToConsider.secondHopId (tokenInAddress tokenIn)
                firstHop) p
           = true)
  /\ (forall p,
        p ∈ topByTVLUsingTokenOutSecondHops ->
        exists firstHop,
          firstHop ∈ topByTVLUsingTokenIn
          /\ GetPoolsToConsider.usesToken
               (GetPoolsToConsider.secondHopId (tokenOutAddress tokenOut)
                  firstHop) p
             = true)
  /\ (topByTVLUsingTokenIn = [] ->
      topByTVLUsingTokenInSecondHops = []
      /\ topByTVLUsingTokenOutSecondHops = []).
Proof.
  split; [|split].
  - intros p Hp. by apply secondHops_spec in Hp as (_ & _ & Hhop).
  - intros p Hp. by apply secondHops_spec in Hp as (_ & _ & Hhop).
  - intros Hempty. split.
    + destruct topByTVLUsingTokenInSecondHops as [|p others] eqn:E;
        [done|].
      assert (Hp : p ∈ topByTVLUsingTokenInSecondHops)
        by (rewrite E; by left).
      apply secondHops_spec in Hp as (_ & _ & firstHop & Hfirst & _).
      rewrite Hempty in Hfirst. inversion Hfirst.
    + destruct topByTVLUsingTokenOutSecondHops as [|p others] eqn:E;
        [done|].
      assert (Hp : p ∈ topByTVLUsingTokenOutSecondHops)
        by (rewrite E; by left).
      apply secondHops_spec in Hp as (_ & _ & firstHop & Hfirst & _).
      rewrite Hempty in Hfirst. inversion Hfirst.
Qed.

Lemma subgraphPoolsSorted_by_TVL :
  ForallOrdPairs
    (fun earlier later =>
       (totalValueLockedUSDFloat later
        <= totalValueLockedUSDFloat earlier)%Q)
    sorted.
Proof.
  unfold GetPoolsToConsider.subgraphPoolsSorted.
  eapply ForallOrdPairs_impl; [|apply sortBy_sorted].
  intros earlier later Hle. cbv beta in Hle.
  apply Qopp_le_compat in Hle. by rewrite !Qopp_involutive in Hle.
Qed.

(** X17.  [topByTVL] is a leading part of the token-list pools in which
    no pool has less TVL than a token-list pool left out of it. *)
Theorem topByTVL_has_the_most_TVL :
  exists leftOut,
    sorted = topByTVL ++ leftOut
    /\ forall p q,
         p ∈ topByTVL -> q ∈ leftOut ->
         (totalValueLockedUSDFloat q <= totalValueLockedUSDFloat p)%Q.
Proof.
  destruct (slice0_prefix (topN routingConfig) sorted) as [leftOut Hsplit].
  exists leftOut. split; [exact Hsplit|].
  intros p q Hp Hq.
  refine (ForallOrdPairs_app
            (fun earlier later =>
               (totalValueLockedUSDFloat later
                <= totalValueLockedUSDFloat earlier)%Q)
            topByTVL leftOut p q _ Hp Hq).
  unfold GetPoolsToConsider.topByTVL. rewrite <- Hsplit.
  apply subgraphPoolsSorted_by_TVL.
Qed.
End GetPoolsToConsiderFacts.

(** The selection on the example: the direct pool, the WETH pool of the
    quote token, the top pool by TVL, one pool of each end token, and
    one second hop from each chain; the pool of the unlisted token is
    left out. *)
Example getPoolsToConsider_selection :
  map SubgraphPool.id FixturePools.subgraphPools
  = ["0x03"; "0x02"; "0x01"; "0x04"; "0x05"; "0x07"; "0x08"]%string.
Proof. vm_compute. reflexivity. Qed.

Lemma subgraphPools_cover_slices_witness :
  exists kept,
    kept ∈ FixturePools.subgraphPools
    /\ SubgraphPool.id kept = SubgraphPool.id Fixture.directAC.
Proof.
  apply (subgraphPools_cover_slices Fixture.WETH Fixture.tokenA
           Fixture.tokenC EXACT_INPUT FixturePools.onePerSlice
           FixturePools.tokenExists FixturePools.totalValueLockedUSDFloat
           FixturePools.allPools Fixture.directAC).
  vm_compute. apply list_elem_of_here.
Defined.

Lemma subgraphPools_bounded_witness :
  Z.of_nat (length FixturePools.subgraphPools)
  <= 4 + topN FixturePools.onePerSlice
     + 2 * topNTokenInOut FixturePools.onePerSlice
     + 2 * topNSecondHop FixturePools.onePerSlice.
Proof.
  apply (subgraphPools_bounded Fixture.WETH Fixture.tokenA Fixture.tokenC
           EXACT_INPUT FixturePools.onePerSlice FixturePools.tokenExists
           FixturePools.totalValueLockedUSDFloat FixturePools.allPools);
    simpl; lia.
Defined.

(** ** The distribution and the split optimiser together *)

Lemma getAmountDistribution_percents amount routingConfig percents amounts
    (k : nat) percent :
  getAmountDistribution amount routingConfig = Some (percents, amounts) ->
  percents !! k = Some percent ->
  percent = (1 + Z.of_nat k) * distributionPercent routingConfig.
Proof.
  unfold getAmountDistribution.
  destruct (distributionPercent routingConfig =? 0); [done|].
  intros [= Hloop] Hk.
  pose proof (distributionLoop_length
                (Z.to_nat (100 / distributionPercent routingConfig)) 1
                (distributionPercent routingConfig) amount) as [Hlen _].
  pose proof (distributionLoop_lookup
                (Z.to_nat (100 / distributionPercent routingConfig)) 1
                (distributionPercent routingConfig) amount k) as Hlookup.
  rewrite Hloop in Hlen, Hlookup. simpl in Hlen, Hlookup.
  apply lookup_lt_Some in Hk as Hlt. rewrite Hlen in Hlt.
  destruct (Hlookup Hlt) as [Hpercent _]. congruence.
Qed.

Section DistributionAndSplit.
Variable sort : forall A : Type, (A -> A -> Z) -> list A -> list A.
Variable getPoolAddress : Pool.t -> string.
Variable estimateGasCost : RouteSOR.t -> Z -> GasCost.

(** X18.  Unless [distributionPercent] is a positive divisor of 100, the
    percents of [getAmountDistribution] do not contain 100, and
    [getBestSwapRoute] run on them returns null whatever the quotes. *)
Theorem getBestSwapRoute_null_unless_distribution_reaches_100 amount
    routingConfig percents amounts routesWithQuotes quoteToken routeType :
  getAmountDistribution amount routingConfig = Some (percents, amounts) ->
  ~ (0 < distributionPercent routingConfig
     /\ (distributionPercent routingConfig | 100)) ->
  (100 ∉ percents)
  /\ getBestSwapRoute sort getPoolAddress estimateGasCost percents
       routesWithQuotes quoteToken routeType routingConfig
     = Ok None.
Proof.
  intros Hdistribution Hnot.
  assert (Hmissing : forall k : nat, percents !! k <> Some 100).
  { intros k Hk.
    pose proof (getAmountDistribution_percents amount routingConfig
                  percents amounts k 100 Hdistribution Hk) as Hproduct.
    apply Hnot. split; [|by exists (1 + Z.of_nat k)].
    destruct (Z_lt_le_dec 0 (distributionPercent routingConfig))
      as [Hpos|Hneg]; [done|].
    pose proof (Z.mul_nonneg_nonpos (1 + Z.of_nat k)
                  (distributionPercent routingConfig)).
    lia. }
  split.
  - intros Hin. apply list_elem_of_lookup in Hin as [k Hk].
    by apply (Hmissing k).
  - rewrite getBestSwapRoute_unfold.
    apply getBestSwapRouteBy_undefined; [apply percentToQuotes_keyed|].
    destruct (percentToQuotes estimateGasCost percents routesWithQuotes
                routeType !! 100) as [bucket|] eqn:Ebucket; [|done].
    assert (Hvalid : hasValidQuoteAt percents routesWithQuotes 100).
    { apply (percentToQuotes_present estimateGasCost percents
               routesWithQuotes routeType 100). by rewrite Ebucket. }
    destruct Hvalid as (route & quotes & k & amountQuote & _ & Hk & _).
    by destruct (Hmissing k).
Qed.
End DistributionAndSplit.

(** With [distributionPercent = 30] the amounts are 30, 60 and 90
    percent: no route is found. *)
Lemma getBestSwapRoute_null_unless_distribution_reaches_100_witness :
  exists percents amounts,
    getAmountDistribution (inject_Z 1000)
      FixtureDistribution.thirtyPercent
    = Some (percents, amounts)
    /\ percents = [30; 60; 90]
    /\ (100 ∉ percents)
    /\ getBestSwapRoute Array_sort Fixture.poolAddress Fixture.gasModel
         percents FixtureDistribution.quotes Fixture.tokenC EXACT_INPUT
         FixtureDistribution.thirtyPercent
       = Ok None.
Proof.
  eexists. eexists. split; [vm_compute; reflexivity|].
  split; [reflexivity|].
  eapply (getBestSwapRoute_null_unless_distribution_reaches_100 Array_sort
            Fixture.poolAddress Fixture.gasModel (inject_Z 1000) FixtureDistribution.thirtyPercent
           [30; 60; 90]).
  - vm_compute. reflexivity.
  - simpl. intros [_ [q Hq]]. lia.
Defined.

(** ** Bucketing: no valid quote is dropped *)

Section BucketingComplete.
Variable estimateGasCost : RouteSOR.t -> Z -> GasCost.

Lemma pushQuote_keeps buckets percent pushed rq :
  bucketed buckets rq -> bucketed (pushQuote buckets percent pushed) rq.
Proof.
  intros (bucket & Hbucket & Hin). unfold bucketed, pushQuote.
  destruct (decide (percent = RouteWithValidQuote.percent rq)) as [->|Hne].
  - rewrite lookup_insert_eq, Hbucket. simpl. eexists. split; [done|].
    apply elem_of_app. by left.
  - rewrite lookup_insert_ne by done. by exists bucket.
Qed.

Lemma pushQuote_adds buckets rq :
  bucketed (pushQuote buckets (RouteWithValidQuote.percent rq) rq) rq.
Proof.
  unfold bucketed, pushQuote. rewrite lookup_insert_eq.
  eexists. split; [done|]. apply elem_of_app. right. by left.
Qed.

Lemma bucketQuotes_keeps routeType route quotes :
  forall percents buckets rq,
    bucketed buckets rq ->
    bucketed
      (bucketQuotes estimateGasCost routeType route percents quotes buckets)
      rq.
Proof.
  induction quotes as [|amountQuote quotes IH];
    intros percents buckets rq Hrq; simpl; [done|].
  destruct percents as [|percent percents]; [done|].
  destruct (AmountQuote.quote amountQuote); [|by apply IH].
  destruct (AmountQuote.sqrtPriceX96AfterList amountQuote); [|by apply IH].
  destruct (AmountQuote.initializedTicksCrossedList amountQuote);
    [|by apply IH].
  destruct (AmountQuote.gasEstimate amountQuote); [|by apply IH].
  apply IH. by apply pushQuote_keeps.
Qed.

Lemma bucketQuotes_adds routeType route quotes :
  forall percents buckets (i : nat) amountQuote percent rawQuote gasEstimate,
    quotes !! i = Some amountQuote ->
    percents !! i = Some percent ->
    isValidQuote amountQuote = true ->
    AmountQuote.quote amountQuote = Some rawQuote ->
    AmountQuote.gasEstimate amountQuote = Some gasEstimate ->
    bucketed
      (bucketQuotes estimateGasCost routeType route percents quotes buckets)
      (RouteWithValidQuote.new estimateGasCost route rawQuote
         (AmountQuote.amount amountQuote) percent gasEstimate routeType).
Proof.
  induction quotes as [|first quotes IH];
    intros percents buckets i amountQuote percent rawQuote gasEstimate
      Hquote Hpercent Hvalid Hraw Hgas; [done|].
  destruct percents as [|firstPercent percents]; [done|].
  destruct i as [|i]; simpl in Hquote, Hpercent.
  - simplify_eq. simpl. unfold isValidQuote in Hvalid.
    rewrite Hraw, Hgas in *.
    destruct (AmountQuote.sqrtPriceX96AfterList amountQuote); [|done].
    destruct (AmountQuote.initializedTicksCrossedList amountQuote);
      [|done].
    apply bucketQuotes_keeps.
    apply (pushQuote_adds buckets
             (RouteWithValidQuote.new estimateGasCost route rawQuote
                (AmountQuote.amount amountQuote) percent gasEstimate
                routeType)).
  - simpl.
    destruct (AmountQuote.quote first); [|by eapply IH].
    destruct (AmountQuote.sqrtPriceX96AfterList first); [|by eapply IH].
    destruct (AmountQuote.initializedTicksCrossedList first);
      [|by eapply IH].
    destruct (AmountQuote.gasEstimate first); [|by eapply IH].
    by eapply IH.
Qed.

Lemma percentToQuotes_complete routeType percents routesWithQuotes rq :
  builtFromQuote estimateGasCost routeType percents routesWithQuotes rq ->
  bucketed
    (percentToQuotes estimateGasCost percents routesWithQuotes routeType)
    rq.
Proof.
  intros (route & quotes & i & amountQuote & rawQuote & gasEstimate
          & Hroute & Hpercent & Hquote & Hvalid & Hraw & Hgas & Hnew).
  rewrite Hnew. clear Hnew.
  generalize dependent (RouteWithValidQuote.percent rq).
  clear rq. intros percent Hpercent.
  unfold percentToQuotes.
  set (step := fun acc (routeWithQuote : RouteWithQuotes) =>
         bucketQuotes estimateGasCost routeType routeWithQuote.1 percents
           routeWithQuote.2 acc).
  set (rq := RouteWithValidQuote.new estimateGasCost route rawQuote
               (AmountQuote.amount amountQuote) percent gasEstimate
               routeType).
  assert (Hkeeps : forall todo buckets,
             bucketed buckets rq -> bucketed (fold_left step todo buckets) rq).
  { induction todo as [|x todo IH]; intros buckets Hb; simpl; [done|].
    apply IH. by apply bucketQuotes_keeps. }
  assert (Hadds : forall todo buckets,
             (route, quotes) ∈ todo ->
             bucketed (fold_left step todo buckets) rq).
  { induction todo as [|x todo IH]; intros buckets Hin; [inversion Hin|].
    simpl. apply elem_of_cons in Hin as [<-|Hin]; [|by apply IH].
    apply Hkeeps. unfold step. simpl.
    by apply (bucketQuotes_adds routeType route quotes percents buckets i
                amountQuote). }
  by apply Hadds.
Qed.
End BucketingComplete.

(** X19.  With a sort that sorts, no valid quote for the full amount
    beats the plan: the plan's gas-adjusted quote is at least as good as
    that of every valid quote passed in at the index of 100 in
    [percents]. *)
Theorem getBestSwapRoute_at_least_every_valid_full_quote
    (sort : forall A : Type, (A -> A -> Z) -> list A -> list A)
    getPoolAddress estimateGasCost percents routesWithQuotes quoteToken
    routeType routingConfig plan route quotes (i : nat) amountQuote rawQuote
    gasEstimate :
  (forall A compareFn (l : list A), sort A compareFn l ≡ₚ l) ->
  (forall by_ l,
     noLaterBefore (compareQuotes routeType by_)
       (sort _ (compareQuotes routeType by_) l)) ->
  getBestSwapRoute sort getPoolAddress estimateGasCost percents
    routesWithQuotes quoteToken routeType routingConfig
  = Ok (Some plan) ->
  (route, quotes) ∈ routesWithQuotes ->
  percents !! i = Some 100 ->
  quotes !! i = Some amountQuote ->
  isValidQuote amountQuote = true ->
  AmountQuote.quote amountQuote = Some rawQuote ->
  AmountQuote.gasEstimate amountQuote = Some gasEstimate ->
  atLeastAsGood routeType (SwapRoute.quoteGasAdjusted plan)
    (RouteWithValidQuote.quoteAdjustedForGas
       (RouteWithValidQuote.new estimateGasCost route rawQuote
          (AmountQuote.amount amountQuote) 100 gasEstimate routeType)).
Proof.
  intros Hperm Hsorted Hplan Hroute Hpercent Hquote Hvalid Hraw Hgas.
  destruct (percentToQuotes_complete estimateGasCost routeType percents
              routesWithQuotes
              (RouteWithValidQuote.new estimateGasCost route rawQuote
                 (AmountQuote.amount amountQuote) 100 gasEstimate
                 routeType))
    as (bucket & Hbucket & Hin).
  { by exists route, quotes, i, amountQuote, rawQuote, gasEstimate. }
  simpl in Hbucket.
  by eapply getBestSwapRoute_at_least_every_unsplit_route.
Qed.

(** The forced split is at least as good as the two-hop route taken for
    the full amount. *)
Lemma getBestSwapRoute_at_least_every_valid_full_quote_witness :
  exists plan,
    getBestSwapRoute Array_sort Fixture.poolAddress Fixture.gasModel
      [50; 100] Fixture.forcedSplit Fixture.tokenC EXACT_INPUT
      DEFAULT_CONFIG
    = Ok (Some plan)
    /\ atLeastAsGood EXACT_INPUT (SwapRoute.quoteGasAdjusted plan)
         (RouteWithValidQuote.quoteAdjustedForGas
            (RouteWithValidQuote.new Fixture.gasModel Fixture.routeABC 80
               (AmountQuote.amount (Fixture.validQuote 100 80)) 100 100000
               EXACT_INPUT)).
Proof.
  eexists. split; [vm_compute; reflexivity|].
  eapply (getBestSwapRoute_at_least_every_valid_full_quote Array_sort
            Fixture.poolAddress Fixture.gasModel [50; 100]
            Fixture.forcedSplit Fixture.tokenC EXACT_INPUT DEFAULT_CONFIG
            _ Fixture.routeABC
            [Fixture.validQuote 50 55; Fixture.validQuote 100 80] 1%nat
            (Fixture.validQuote 100 80) 80 100000).
  - apply Array_sort_permutation.
  - intros by_ l. apply Array_sort_quotes.
  - vm_compute. reflexivity.
  - apply list_elem_of_further, list_elem_of_here.
  - reflexivity.
  - reflexivity.
  - reflexivity.
  - reflexivity.
  - reflexivity.
Defined.

(** ** Route enumerator: each route once *)

Lemma NoDup_concat_imap {A B} (f : nat -> A -> list B) (l : list A) :
  (forall i y, l !! i = Some y -> NoDup (f i y)) ->
  (forall i j y z x,
      l !! i = Some y -> l !! j = Some z ->
      x ∈ f i y -> x ∈ f j z -> i = j) ->
  NoDup (concat (imap f l)).
Proof.
  revert f. induction l as [|a l IH]; intros f Heach Hapart; simpl.
  - constructor.
  - apply NoDup_app. split; [by apply (Heach 0%nat)|]. split.
    + intros x Hx Hlater.
      apply elem_of_concat_imap in Hlater as (i & y & Hy & Hxy).
      by specialize (Hapart 0%nat (S i) a y x eq_refl Hy Hx Hxy).
    + apply IH.
      * intros i y Hy. by apply (Heach (S i)).
      * intros i j y z x Hy Hz Hxy Hxz.
        by specialize (Hapart (S i) (S j) y z x Hy Hz Hxy Hxz)
          as [= ->].
Qed.

Section ComputeAllRoutesOnce.
Variables (tokenIn tokenOut : Token.t) (pools : list Pool.t) (maxHops : Z).

(** A call only returns routes that extend its [currentRoute]. *)
Lemma computeRoutes_extends fuel :
  forall currentRoute poolsUsed prev r,
    r ∈ computeRoutes tokenIn tokenOut pools maxHops fuel currentRoute
          poolsUsed prev ->
    exists rest, RouteSOR.pools r = currentRoute ++ rest.
Proof.
  induction fuel as [|fuel IH]; intros cr used prev r Hr.
  - rewrite computeRoutes_zero in Hr.
    destruct (Z.of_nat (length cr) >? maxHops); [by inversion Hr|].
    destruct (lastInvolvesTokenOut tokenOut cr); [|by inversion Hr].
    apply list_elem_of_singleton in Hr as ->. exists []. simpl.
    by rewrite app_nil_r.
  - rewrite computeRoutes_unfold in Hr.
    destruct (Z.of_nat (length cr) >? maxHops); [by inversion Hr|].
    destruct (lastInvolvesTokenOut tokenOut cr).
    + apply list_elem_of_singleton in Hr as ->. exists []. simpl.
      by rewrite app_nil_r.
    + apply elem_of_concat_imap in Hr as (i & p & Hp & Hr).
      destruct (default false (used !! i)); [by inversion Hr|].
      destruct (negb (Pool.involvesToken p (default tokenIn prev)));
        [by inversion Hr|].
      apply IH in Hr as [rest Hrest].
      exists (p :: rest). by rewrite Hrest, <- app_assoc.
Qed.

Lemma computeRoutes_NoDup fuel :
  NoDup pools ->
  forall currentRoute poolsUsed prev,
    NoDup (computeRoutes tokenIn tokenOut pools maxHops fuel currentRoute
             poolsUsed prev).
Proof.
  intros Hpools. induction fuel as [|fuel IH]; intros cr used prev.
  - rewrite computeRoutes_zero.
    destruct (Z.of_nat (length cr) >? maxHops); [constructor|].
    destruct (lastInvolvesTokenOut tokenOut cr);
      [apply NoDup_singleton | constructor].
  - rewrite computeRoutes_unfold.
    destruct (Z.of_nat (length cr) >? maxHops); [constructor|].
    destruct (lastInvolvesTokenOut tokenOut cr); [apply NoDup_singleton|].
    apply NoDup_concat_imap.
    + intros i p Hp.
      destruct (default false (used !! i)); [constructor|].
      destruct (negb (Pool.involvesToken p (default tokenIn prev)));
        [constructor|].
      apply IH.
    + intros i j p q r Hp Hq Hrp Hrq.
      destruct (default false (used !! i)); [by inversion Hrp|].
      destruct (negb (Pool.involvesToken p (default tokenIn prev)));
        [by inversion Hrp|].
      destruct (default false (used !! j)); [by inversion Hrq|].
      destruct (negb (Pool.involvesToken q (default tokenIn prev)));
        [by inversion Hrq|].
      apply computeRoutes_extends in Hrp as [restP HrestP].
      apply computeRoutes_extends in Hrq as [restQ HrestQ].
      rewrite HrestP, <- !app_assoc in HrestQ.
      apply app_inv_head in HrestQ. simpl in HrestQ.
      injection HrestQ as -> _.
      by eapply NoDup_lookup.
Qed.

(** X21.  When the pool array holds no pool twice, the enumerator returns
    no route twice. *)
Theorem computeAllRoutes_each_route_once :
  NoDup pools -> NoDup (computeAllRoutes tokenIn tokenOut pools maxHops).
Proof. intros Hpools. by apply computeRoutes_NoDup. Qed.
End ComputeAllRoutesOnce.

(** The same pool listed twice gives the same route twice; listed once,
    once. *)
Example computeAllRoutes_duplicate_pool :
  computeAllRoutes Fixture.tokenA Fixture.tokenC
    [Fixture.poolAC; Fixture.poolAC] 3
  = [Fixture.routeAC; Fixture.routeAC].
Proof. vm_compute. reflexivity. Qed.

Lemma computeAllRoutes_each_route_once_witness :
  NoDup (computeAllRoutes Fixture.tokenA Fixture.tokenC
           [Fixture.poolAB; Fixture.poolBC; Fixture.poolAC] 3).
Proof.
  apply (computeAllRoutes_each_route_once Fixture.tokenA Fixture.tokenC
           [Fixture.poolAB; Fixture.poolBC; Fixture.poolAC] 3).
  apply NoDup_cons. split.
  - rewrite !elem_of_cons. intros [H|[H|H]]; [discriminate ..|inversion H].
  - apply NoDup_cons. split.
    + rewrite !elem_of_cons. intros [H|H]; [discriminate|inversion H].
    + apply NoDup_singleton.
Defined.

(** ** Pool selection metrics *)

Lemma findLastIndex_spec {A} (predicate : A -> bool) (l : list A) :
  -1 <= findLastIndex predicate l < Z.of_nat (length l)
  /\ (findLastIndex predicate l = -1 ->
      forall x, x ∈ l -> predicate x = false)
  /\ (0 <= findLastIndex predicate l ->
      exists x,
        l !! Z.to_nat (findLastIndex predicate l) = Some x
        /\ predicate x = true
        /\ forall (j : nat) y,
             (Z.to_nat (findLastIndex predicate l) < j)%nat ->
             l !! j = Some y -> predicate y = false).
Proof.
  induction l as [|x rest IH].
  - simpl. split; [lia|]. split; [|lia]. intros _ y Hy. inversion Hy.
  - destruct IH as (Hbounds & Hnone & Hsome).
    cbn [findLastIndex].
    destruct (Z.leb_spec 0 (findLastIndex predicate rest)) as [Hfound|Hnot].
    + split; [simpl length; lia|]. split; [lia|]. intros _.
      destruct (Hsome Hfound) as (y & Hy & Hpy & Hafter).
      exists y.
      replace (Z.to_nat (findLastIndex predicate rest + 1))
        with (S (Z.to_nat (findLastIndex predicate rest))) by lia.
      split; [done|]. split; [done|].
      intros [|j] z Hj Hz; [lia|]. simpl in Hz.
      apply (Hafter j z); [lia | done].
    + assert (Hrest : forall y, y ∈ rest -> predicate y = false)
        by (apply Hnone; lia).
      destruct (predicate x) eqn:Hx.
      * split; [simpl length; lia|]. split; [lia|]. intros _.
        exists x. split; [done|]. split; [done|].
        intros [|j] z Hj Hz; [simpl in Hj; lia|]. simpl in Hz.
        apply Hrest. by eapply list_elem_of_lookup_2.
      * split; [simpl length; lia|]. split; [|lia]. intros _ y Hy.
        apply elem_of_cons in Hy as [->|Hy]; [done | by apply Hrest].
Qed.

Lemma elem_of_fold_add (l : list string) :
  forall (s : gset string) a,
    a ∈ fold_left (fun used address => {[address]} ∪ used) l s
    <-> a ∈ s \/ a ∈ l.
Proof.
  induction l as [|x l IH]; intros s a; simpl.
  - split; [by left | intros [H|H]; [done | inversion H]].
  - rewrite IH, elem_of_union, elem_of_singleton, elem_of_cons. tauto.
Qed.

Lemma lookup_map {A B} (f : A -> B) (l : list A) (k : nat) :
  map f l !! k = f <$> l !! k.
Proof.
  revert k. induction l as [|x l IH]; intros [|k]; simpl; done.
Qed.

Section EmitPoolSelectionMetricsFacts.
Variable getPoolAddress : Pool.t -> string.

Lemma poolAddressesUsed_spec swapRouteRaw subgraphPool :
  toLowerCase (SubgraphPool.id subgraphPool)
  ∈ poolAddressesUsed getPoolAddress (SwapRoute.routeAmounts swapRouteRaw)
  <-> usedByPlan getPoolAddress swapRouteRaw subgraphPool.
Proof.
  unfold poolAddressesUsed, usedByPlan. rewrite elem_of_fold_add.
  rewrite list_elem_of_In, in_flat_map. split.
  - intros [Hempty|(routeAmount & Hra & Hin)]; [by inversion Hempty|].
    apply in_map_iff in Hin as (pool & Heq & Hpool).
    exists routeAmount, pool. by rewrite <- !list_elem_of_In in *.
  - intros (routeAmount & pool & Hra & Hpool & Heq). right.
    exists routeAmount. split; [by apply list_elem_of_In|].
    apply in_map_iff. exists pool. split; [done|].
    by apply list_elem_of_In.
Qed.

(** X22.  For each selection, in the order of [poolsBySelection], one
    metric is put under the capitalised name of the selection.  Its
    count is not the number of the selection's pools the plan uses but
    the position, counted from one, of the last pool of the selection
    that the plan uses; it is zero exactly when the plan uses none. *)
Theorem emitPoolSelectionMetrics_counts swapRouteRaw poolsBySelection
    (k : nat) topNSelection pools :
  poolsBySelection !! k = Some (topNSelection, pools) ->
  exists count,
    emitPoolSelectionMetrics getPoolAddress swapRouteRaw poolsBySelection
      !! k
    = Some (capitalize topNSelection, count)
    /\ 0 <= count <= Z.of_nat (length pools)
    /\ (count = 0 <->
        forall pool, pool ∈ pools ->
                     ~ usedByPlan getPoolAddress swapRouteRaw pool)
    /\ (0 < count ->
        exists lastUsed,
          pools !! Z.to_nat (count - 1) = Some lastUsed
          /\ usedByPlan getPoolAddress swapRouteRaw lastUsed
          /\ forall (j : nat) later,
               (Z.to_nat (count - 1) < j)%nat ->
               pools !! j = Some later ->
               ~ usedByPlan getPoolAddress swapRouteRaw later).
Proof.
  intros Hk. unfold emitPoolSelectionMetrics.
  unfold PoolsBySelection in *.
  rewrite lookup_map, Hk. simpl. eexists. split; [reflexivity|].
  unfold topNUsed.
  set (used := poolAddressesUsed getPoolAddress
                 (SwapRoute.routeAmounts swapRouteRaw)).
  set (predicate := fun pool : SubgraphPool.t =>
         bool_decide (toLowerCase (SubgraphPool.id pool) ∈ used)).
  assert (Hpredicate : forall pool,
             predicate pool = true
             <-> usedByPlan getPoolAddress swapRouteRaw pool).
  { intros pool. unfold predicate.
    rewrite bool_decide_eq_true. apply poolAddressesUsed_spec. }
  assert (Hnot : forall pool,
             predicate pool = false
             <-> ~ usedByPlan getPoolAddress swapRouteRaw pool).
  { intros pool. rewrite <- Hpredicate. by destruct (predicate pool). }
  destruct (findLastIndex_spec predicate pools) as (Hbounds & Hnone & Hsome).
  split; [lia|]. split; [split|].
  - intros Hzero pool Hpool. apply Hnot. apply Hnone; [lia | done].
  - intros Hunused.
    destruct (Z_lt_le_dec (findLastIndex predicate pools) 0) as [|Hfound];
      [lia|].
    destruct (Hsome Hfound) as (x & Hx & Hpx & _).
    apply Hpredicate in Hpx. destruct (Hunused x); [|done].
    by eapply list_elem_of_lookup_2.
  - intros Hpositive.
    destruct Hsome as (x & Hx & Hpx & Hafter); [lia|].
    replace (findLastIndex predicate pools + 1 - 1)
      with (findLastIndex predicate pools) by lia.
    exists x. split; [done|]. split; [by apply Hpredicate|].
    intros j later Hj Hlater. apply Hnot. by eapply Hafter.
Qed.
End EmitPoolSelectionMetricsFacts.

(** The metrics of the example: the direct pool is used; of the three
    top pools the second is the last one used, so the count is 2 with a
    single pool used; the pool A/D is not used. *)
Example emitPoolSelectionMetrics_example :
  emitPoolSelectionMetrics Fixture.poolAddress FixtureMetrics.plan
    FixtureMetrics.poolsBySelection
  = [("Top2directswappool", 1); ("Topbytvl", 2);
     ("Topbytvlusingtokenin", 0)]%string.
Proof. vm_compute. reflexivity. Qed.

Lemma emitPoolSelectionMetrics_counts_witness :
  exists count,
    emitPoolSelectionMetrics Fixture.poolAddress FixtureMetrics.plan
      FixtureMetrics.poolsBySelection !! 1%nat
    = Some (capitalize "topByTVL", count)
    /\ 0 <= count
       <= Z.of_nat
            (length [FixtureMetrics.selected Fixture.poolAD;
                     FixtureMetrics.selected Fixture.poolBC;
                     FixtureMetrics.selected Fixture.poolCD])
    /\ (count = 0 <->
        forall pool,
          pool ∈ [FixtureMetrics.selected Fixture.poolAD;
                  FixtureMetrics.selected Fixture.poolBC;
                  FixtureMetrics.selected Fixture.poolCD] ->
          ~ usedByPlan Fixture.poolAddress FixtureMetrics.plan pool)
    /\ (0 < count ->
        exists lastUsed,
          [FixtureMetrics.selected Fixture.poolAD;
           FixtureMetrics.selected Fixture.poolBC;
           FixtureMetrics.selected Fixture.poolCD]
            !! Z.to_nat (count - 1) = Some lastUsed
          /\ usedByPlan Fixture.poolAddress FixtureMetrics.plan lastUsed
          /\ forall (j : nat) later,
               (Z.to_nat (count - 1) < j)%nat ->
               [FixtureMetrics.selected Fixture.poolAD;
                FixtureMetrics.selected Fixture.poolBC;
                FixtureMetrics.selected Fixture.poolCD] !! j = Some later ->
               ~ usedByPlan Fixture.poolAddress FixtureMetrics.plan later).
Proof.
  apply (emitPoolSelectionMetrics_counts Fixture.poolAddress
           FixtureMetrics.plan FixtureMetrics.poolsBySelection 1%nat
           "topByTVL").
  reflexivity.
Defined.

(** On the object [getPoolsToConsider] returns, seven metrics are put,
    under these names. *)
Example emitPoolSelectionMetrics_names :
  map fst
    (emitPoolSelectionMetrics Fixture.poolAddress FixtureMetrics.plan
       (GetPoolsToConsiderResult.poolsBySelection Fixture.WETH
          Fixture.tokenA Fixture.tokenC EXACT_INPUT
          FixturePools.onePerSlice FixturePools.tokenExists
          FixturePools.totalValueLockedUSDFloat FixturePools.allPools))
  = ["Top2directswappool"; "Top2ethquotetokenpool"; "Topbytvl";
     "Topbytvlusingtokenin"; "Topbytvlusingtokenout";
     "Topbytvlusingtokeninsecondhops";
     "Topbytvlusingtokenoutsecondhops"]%string.
Proof. vm_compute. reflexivity. Qed.
